(** * Layer compositing and transform engine: model and verification

    A shallow embedding of the layer engine of the in-browser image
    compositor: the reducers ([layersReducer], [canvasStateReducer],
    [rootReducer]), the geometry helpers ([_constrainPan],
    [getLayerMetrics], [getHandleWorldPosition], [isPointInMovieLayer],
    [getRotatedBoundingBox]), the cache builder ([updateLayerCache], and the
    worker's [renderLayer]), the compositor ([drawLayers]), the mipmap
    builder ([generateMipmaps]), the hit test and the resize gesture of the
    pointer handlers, and [setBackground] with [rotateProject]; then the
    view ([_updateViewAnimation], [handleCanvasWheel], the pan gesture,
    [getMovieCanvasPoint]), the handle hit test ([getMovieHandleAtPoint]),
    the content bounds and the crop after background removal
    ([calculateContentBounds], [runU2NetOnImageLayer]), the eraser's stroke
    ([applyBrushToLayer]), the transform caches ([updateTransformCaches],
    [drawFrame]), the export size ([downloadImage]), the matrices of the
    WebGL renderer ([_drawLayer]) and the quota of the asset library
    ([enforceQuota]).

    Numbers.  JavaScript numbers are IEEE doubles.  The model computes with
    exact rationals ([Q]), but for the quotients and products that the source
    rounds to an integer ([setBackground], [downloadImage],
    [generateMipmaps]): these are rounded to the nearest double operation by
    operation, as the source computes them, because the integer can depend
    on it.  NaN and the infinities are outside the model.  Where the source
    divides, the model divides in [Q] (where [x / 0] is [0]); a theorem
    whose truth depends on such a quotient states that the divisor is not
    zero.  Variables that the source keeps integral through [Math.round] and
    [Math.floor] are integers ([Z]) in the model, and a number assigned to
    the width or the height of a canvas is truncated as the attribute
    truncates it.

    Strings.  A string is the sequence of the bytes of its UTF-8 encoding;
    [trim] removes the white space and the line terminators of ECMAScript,
    whichever their encoded length.

    Payloads.  The payload of an action that edits a layer is a list of
    entries, one for a key: the keys of a layer, [id] and [type] among them,
    or any other key.

    Platform.  [Math.cos], [Math.sin], [Math.sqrt], [Math.hypot], [Math.PI]
    and the canvas text measurement are supplied by the browser; the model
    takes them as the fields of a [Platform] and the theorems hold for every
    platform.  [Math.pow] and [Math.atan2] are arguments of the two
    functions that call them.

    Effects.  Functions that mutate a layer or the application state return
    the new value, and a function that can throw returns an [Outcome].  The
    pixels that are drawn are not modelled, only the dimensions of the
    canvases, where the cache builder paints the content on them and, for
    the base mipmap, its alpha channel; a 2D context is any type with a
    [drawImage] operation.  [Date.now()] is one value for the whole of a
    [drawLayers] call. *)

From Stdlib Require Import QArith Qminmax Qround Qabs Qpower ZArith List String Ascii Bool Lia Lqa.
From Stdlib Require Import Permutation Sorted.
From Equations Require Import Equations.
Import ListNotations.
Open Scope Q_scope.

(** ** Numbers *)

Definition Qltb (a b : Q) : bool := negb (Qle_bool b a).
Definition Qgtb (a b : Q) : bool := Qltb b a.
Definition Qleb (a b : Q) : bool := Qle_bool a b.
Definition Qgeb (a b : Q) : bool := Qle_bool b a.

Definition Math_max (a b : Q) : Q := Qmax a b.
Definition Math_min (a b : Q) : Q := Qmin a b.
Definition Math_abs (a : Q) : Q := Qabs a.
(** [Math.round] rounds to the nearest integer, halves towards +infinity. *)
Definition Math_round (a : Q) : Q := inject_Z (Qfloor (a + (1 # 2))).

(** *** Rounding to a double

    Where the source rounds a quotient or a product to an integer, which of
    two integers it gets can depend on the rounding of the quotient or the
    product itself: there the model computes as the source does, with the
    exact result of each operation rounded to the nearest double
    (round-to-nearest, ties to even, 53 bits).  The exponent is not bounded:
    overflow and underflow are outside the model. *)

(** [2^e] *)
Definition pow2 (e : Z) : Q := Qpower 2 e.

(** The integer nearest to [q], the even one of the two when [q] is half
    way between them. *)
Definition roundHalfEven (q : Q) : Z :=
  let f := Qfloor q in
  let r := q - inject_Z f in
  if Qltb r (1 # 2) then f
  else if Qltb (1 # 2) r then (f + 1)%Z
  else if Z.even f then f else (f + 1)%Z.

(** The exponent [e] with [2^e <= |a| < 2^(e+1)], for [a] other than 0. *)
Definition binade (a : Q) : Z :=
  let k := (Z.log2 (Z.abs (Qnum a)) - Z.log2 (Zpos (Qden a)))%Z in
  if Qle_bool (pow2 k) (Qabs a) then k else (k - 1)%Z.

Definition roundToDouble (a0 : Q) : Q :=
  let a := Qred a0 in
  if Qeq_bool a 0 then 0
  else
    let e := (binade a - 52)%Z in
    let m := roundHalfEven (Qabs a / pow2 e) in
    Qred ((if Qltb a 0 then - (1) else 1) * inject_Z m * pow2 e).

(** [a / b] and [a * b] on doubles, for a divisor other than 0. *)
Definition fdiv (a b : Q) : Q := roundToDouble (a / b).
Definition fmul (a b : Q) : Q := roundToDouble (a * b).

(** Assigning the number [v] to the [width] or the [height] of a canvas
    element.  The attribute is an [unsigned long]: [v] is truncated towards
    zero and taken modulo 2^32, and a result above 2^31 - 1 is replaced by
    the attribute's default, 300 for the width and 150 for the height. *)
Definition toUnsignedLong (v : Q) : Z :=
  (Z.quot (Qnum v) (Zpos (Qden v)) mod 2 ^ 32)%Z.

Definition canvasDimension (default : Z) (v : Q) : Q :=
  let n := toUnsignedLong v in
  inject_Z (if (n <=? 2147483647)%Z then n else default).

Definition setCanvasWidth (v : Q) : Q := canvasDimension 300 v.
Definition setCanvasHeight (v : Q) : Q := canvasDimension 150 v.

Record Point : Type := mkPoint { px : Q; py : Q }.

(** ** Platform services *)

Record TextMetrics : Type := mkTextMetrics {
  tm_width : Q;
  actualBoundingBoxAscent : Q;
  actualBoundingBoxDescent : Q
}.

Class Platform : Type := {
  Math_PI : Q;
  Math_cos : Q -> Q;
  Math_sin : Q -> Q;
  Math_sqrt : Q -> Q;
  Math_hypot : Q -> Q -> Q;
  (** [ctx.measureText(line)] with [ctx.font = `${fontSize}px ${font}`] *)
  measureText : string -> Q -> string -> TextMetrics
}.

(** ** Canvases and the small records of a layer *)

Module Canvas.
(** A raster surface: its dimensions and the alpha channel that
    [getImageData(x, y, 1, 1).data[3]] reads. *)
Record t : Type := mk { width : Q; height : Q; alpha : Z -> Z -> Z }.
End Canvas.

Module Bitmap.
(** The effect-cache canvas: only its dimensions are modelled. *)
Record t : Type := mk { width : Q; height : Q }.
End Bitmap.

Module Cache.
Record t : Type := mk { canvas : option Bitmap.t; isValid : bool }.
End Cache.

Module Shadow.
Record t : Type := mk {
  enabled : bool; color : string; blur : Q; offsetX : Q; offsetY : Q }.
End Shadow.

Module Border.
Record t : Type := mk { enabled : bool; color : string; width : Q }.
End Border.

Module Frame.
(** [contentFrame]: a sub-rectangle of the base mipmap. *)
Record t : Type := mk { x : Q; y : Q; width : Q; height : Q; isEmpty : bool }.
End Frame.

(** ** Layers

    A layer is a JavaScript object.  Its scalar properties are kept in one
    map per value type, keyed by the property name, so that the reducer's
    [{ ...l, [property]: value }] is a map update; the structured properties
    are fields.  Every creation site of the source sets [shadow] and
    [border]; an absent [mipmaps] array is the empty list. *)

Module Fld.
Inductive num : Set :=
| x | y | rot | size | fontSize | opacity | brightness | saturation
| contrast | createdAt | propX | propY | propSize | width | height
| strokeWidth | contentVersion.
Inductive str : Set :=
| text | font | color | strokeColor | alignX | alignY | originalHash | src.
Inductive flag : Set :=
| flipX | isLocked | restored | isOptimized.
End Fld.

Scheme Equality for Fld.num.
Scheme Equality for Fld.str.
Scheme Equality for Fld.flag.

Inductive LayerType : Set := ImageLayer | TextLayer.

Record Layer : Type := mkLayer {
  id : string;
  ltype : LayerType;
  num : Fld.num -> Q;
  str : Fld.str -> string;
  flag : Fld.flag -> bool;
  shadow : Shadow.t;
  border : Border.t;
  cache : option Cache.t;
  mipmaps : list Canvas.t;
  contentFrame : option Frame.t
}.

Definition x (l : Layer) : Q := num l Fld.x.
Definition y (l : Layer) : Q := num l Fld.y.
Definition rot (l : Layer) : Q := num l Fld.rot.
Definition size (l : Layer) : Q := num l Fld.size.
Definition fontSize (l : Layer) : Q := num l Fld.fontSize.
Definition createdAt (l : Layer) : Q := num l Fld.createdAt.
Definition propX (l : Layer) : Q := num l Fld.propX.
Definition propY (l : Layer) : Q := num l Fld.propY.
Definition propSize (l : Layer) : Q := num l Fld.propSize.
Definition text (l : Layer) : string := str l Fld.text.
Definition font (l : Layer) : string := str l Fld.font.
Definition flipX (l : Layer) : bool := flag l Fld.flipX.
Definition isLocked (l : Layer) : bool := flag l Fld.isLocked.
Definition restored (l : Layer) : bool := flag l Fld.restored.

Definition setNum (f : Fld.num) (v : Q) (l : Layer) : Layer :=
  mkLayer (id l) (ltype l)
    (fun g => if num_beq g f then v else num l g)
    (str l) (flag l) (shadow l) (border l) (cache l) (mipmaps l) (contentFrame l).

Definition setStr (f : Fld.str) (v : string) (l : Layer) : Layer :=
  mkLayer (id l) (ltype l) (num l)
    (fun g => if str_beq g f then v else str l g)
    (flag l) (shadow l) (border l) (cache l) (mipmaps l) (contentFrame l).

Definition setFlag (f : Fld.flag) (v : bool) (l : Layer) : Layer :=
  mkLayer (id l) (ltype l) (num l) (str l)
    (fun g => if flag_beq g f then v else flag l g)
    (shadow l) (border l) (cache l) (mipmaps l) (contentFrame l).

Definition setShadow (s : Shadow.t) (l : Layer) : Layer :=
  mkLayer (id l) (ltype l) (num l) (str l) (flag l) s (border l) (cache l)
    (mipmaps l) (contentFrame l).

Definition setBorder (b : Border.t) (l : Layer) : Layer :=
  mkLayer (id l) (ltype l) (num l) (str l) (flag l) (shadow l) b (cache l)
    (mipmaps l) (contentFrame l).

Definition setCache (c : option Cache.t) (l : Layer) : Layer :=
  mkLayer (id l) (ltype l) (num l) (str l) (flag l) (shadow l) (border l) c
    (mipmaps l) (contentFrame l).

Definition setMipmaps (m : list Canvas.t) (l : Layer) : Layer :=
  mkLayer (id l) (ltype l) (num l) (str l) (flag l) (shadow l) (border l)
    (cache l) m (contentFrame l).

Definition setContentFrame (f : option Frame.t) (l : Layer) : Layer :=
  mkLayer (id l) (ltype l) (num l) (str l) (flag l) (shadow l) (border l)
    (cache l) (mipmaps l) f.

Definition setId (i : string) (l : Layer) : Layer :=
  mkLayer i (ltype l) (num l) (str l) (flag l) (shadow l) (border l) (cache l)
    (mipmaps l) (contentFrame l).

Definition setType (t : LayerType) (l : Layer) : Layer :=
  mkLayer (id l) t (num l) (str l) (flag l) (shadow l) (border l) (cache l)
    (mipmaps l) (contentFrame l).

(** ** Actions and the reducers (modules.js) *)

(** One entry of an object of layer properties ([transformProps], or the
    [property]/[value] pair of a property-change payload).  The reducer
    copies whatever key the payload holds, so every property of a layer has
    its entry here, [id] and [type] included; a key that is no property of
    the modelled layer is [POther], and writing it changes nothing that the
    model reads. *)
Inductive LayerProp : Type :=
| PNum (f : Fld.num) (v : Q)
| PStr (f : Fld.str) (v : string)
| PFlag (f : Fld.flag) (v : bool)
| PMipmaps (m : list Canvas.t)
| PContentFrame (f : option Frame.t)
| PCache (c : option Cache.t)
| PId (v : string)
| PType (v : LayerType)
| PShadow (v : Shadow.t)
| PBorder (v : Border.t)
| POther (key : string).

Inductive ShadowProp : Type :=
| SEnabled (v : bool) | SColor (v : string) | SBlur (v : Q)
| SOffsetX (v : Q) | SOffsetY (v : Q).

Inductive BorderProp : Type :=
| BEnabled (v : bool) | BColor (v : string) | BWidth (v : Q).

Inductive BgProp : Set := bgBrightnessProp | bgSaturationProp.

Inductive Action : Type :=
| LAYER_ADDED (newLayer : Layer)
| LAYER_DELETED (layerId : string)
| LAYER_REORDERED (layerId : string) (delta : Z)
| LAYER_PROPERTY_PREVIEW_CHANGED (layerId : string) (p : LayerProp)
| LAYER_SHADOW_PREVIEW_CHANGED (layerId : string) (p : ShadowProp)
| LAYER_BORDER_PREVIEW_CHANGED (layerId : string) (p : BorderProp)
| LAYER_PROPERTY_CHANGED (layerId : string) (p : LayerProp)
| LAYER_SHADOW_CHANGED (layerId : string) (p : ShadowProp)
| LAYER_BORDER_CHANGED (layerId : string) (p : BorderProp)
| LAYER_TRANSFORMED (layerId : string) (transformProps : list LayerProp)
| LAYER_REFIT_AND_TRANSFORM (layerId : string) (transform : list LayerProp)
| LAYER_OPTIMIZATION_COMPLETE (layerId : string) (newSrc : string)
    (newContentFrame : option Frame.t) (wasOptimized : bool)
| INVALIDATE_LAYER_CACHE (layerId : string)
| BACKGROUND_FILTER_PREVIEW_CHANGED (property : BgProp) (value : Q)
| BACKGROUND_FILTER_CHANGED (property : BgProp) (value : Q)
| BACKGROUND_CHANGED (backgroundHash : option string)
| PROJECT_ROTATED
| TOGGLE_BACKGROUND_FLIP
| RESET_PROJECT_ROTATION
| SELECT_LAYER (layerId : option string)
| CLEAR_CANVAS
(** any other action type: no reducer has a case for it *)
| OTHER_ACTION (type : string).

(** [{ ...l, [property]: value }] *)
Definition assign (p : LayerProp) (l : Layer) : Layer :=
  match p with
  | PNum f v => setNum f v l
  | PStr f v => setStr f v l
  | PFlag f v => setFlag f v l
  | PMipmaps m => setMipmaps m l
  | PContentFrame f => setContentFrame f l
  | PCache c => setCache c l
  | PId v => setId v l
  | PType v => setType v l
  | PShadow v => setShadow v l
  | PBorder v => setBorder v l
  | POther _ => l
  end.

(** [{ ...layer, ...transformProps }]: the properties are written in order. *)
Definition spread (props : list LayerProp) (l : Layer) : Layer :=
  fold_left (fun acc p => assign p acc) props l.

Definition assignShadow (p : ShadowProp) (s : Shadow.t) : Shadow.t :=
  match p with
  | SEnabled v => Shadow.mk v (Shadow.color s) (Shadow.blur s) (Shadow.offsetX s) (Shadow.offsetY s)
  | SColor v => Shadow.mk (Shadow.enabled s) v (Shadow.blur s) (Shadow.offsetX s) (Shadow.offsetY s)
  | SBlur v => Shadow.mk (Shadow.enabled s) (Shadow.color s) v (Shadow.offsetX s) (Shadow.offsetY s)
  | SOffsetX v => Shadow.mk (Shadow.enabled s) (Shadow.color s) (Shadow.blur s) v (Shadow.offsetY s)
  | SOffsetY v => Shadow.mk (Shadow.enabled s) (Shadow.color s) (Shadow.blur s) (Shadow.offsetX s) v
  end.

Definition assignBorder (p : BorderProp) (b : Border.t) : Border.t :=
  match p with
  | BEnabled v => Border.mk v (Border.color b) (Border.width b)
  | BColor v => Border.mk (Border.enabled b) v (Border.width b)
  | BWidth v => Border.mk (Border.enabled b) (Border.color b) v
  end.

(** [{ ...l.cache, isValid: false }] *)
Definition invalidated (c : option Cache.t) : option Cache.t :=
  match c with
  | Some c' => Some (Cache.mk (Cache.canvas c') false)
  | None => Some (Cache.mk None false)
  end.

(** [l.id !== layerId] *)
Definition idDiffers (l : Layer) (layerId : string) : bool :=
  negb (String.eqb (id l) layerId).

Fixpoint findIndex {A : Type} (f : A -> bool) (l : list A) : option nat :=
  match l with
  | [] => None
  | a :: r => if f a then Some O else option_map S (findIndex f r)
  end.

(** [arr.splice(i, 1)]: the array without its element at [i]. *)
Fixpoint removeAt {A : Type} (i : nat) (l : list A) : list A :=
  match i, l with
  | _, [] => []
  | O, _ :: r => r
  | S i', a :: r => a :: removeAt i' r
  end.

(** [arr.splice(j, 0, item)] *)
Fixpoint insertAt {A : Type} (j : nat) (item : A) (l : list A) : list A :=
  match j, l with
  | O, _ => item :: l
  | S j', a :: r => a :: insertAt j' item r
  | S _, [] => [item]
  end.

Definition layersReducer (layers : list Layer) (action : Action) : list Layer :=
  match action with
  | LAYER_ADDED newLayer => newLayer :: layers
  | LAYER_DELETED layerId => filter (fun l => idDiffers l layerId) layers
  | LAYER_REORDERED layerId delta =>
      match findIndex (fun l => String.eqb (id l) layerId) layers with
      | None => layers
      | Some i =>
          let j := (Z.of_nat i + delta)%Z in
          if ((j <? 0) || (j >=? Z.of_nat (List.length layers)))%Z then layers
          else
            match nth_error layers i with
            | Some item => insertAt (Z.to_nat j) item (removeAt i layers)
            | None => layers
            end
      end
  | LAYER_PROPERTY_PREVIEW_CHANGED layerId p
  | LAYER_PROPERTY_CHANGED layerId p =>
      map (fun l => if idDiffers l layerId then l
                    else setCache (invalidated (cache l)) (assign p l)) layers
  | LAYER_SHADOW_PREVIEW_CHANGED layerId p
  | LAYER_SHADOW_CHANGED layerId p =>
      map (fun l => if idDiffers l layerId then l
                    else setCache (invalidated (cache l))
                           (setShadow (assignShadow p (shadow l)) l)) layers
  | LAYER_BORDER_PREVIEW_CHANGED layerId p
  | LAYER_BORDER_CHANGED layerId p =>
      map (fun l => if idDiffers l layerId then l
                    else setCache (invalidated (cache l))
                           (setBorder (assignBorder p (border l)) l)) layers
  | LAYER_TRANSFORMED layerId transformProps =>
      map (fun layer => if idDiffers layer layerId then layer
                        else spread transformProps layer) layers
  | LAYER_REFIT_AND_TRANSFORM layerId transform =>
      map (fun l => if idDiffers l layerId then l
                    else setCache (invalidated (cache l))
                           (setNum Fld.contentVersion (num l Fld.contentVersion + 1)
                              (spread transform l))) layers
  | LAYER_OPTIMIZATION_COMPLETE layerId newSrc newContentFrame wasOptimized =>
      map (fun l => if idDiffers l layerId then l
                    else setCache (invalidated (cache l))
                           (setFlag Fld.isOptimized wasOptimized
                              (setContentFrame newContentFrame
                                 (setStr Fld.src newSrc l)))) layers
  | INVALIDATE_LAYER_CACHE layerId =>
      map (fun l => if idDiffers l layerId then l
                    else setCache (invalidated (cache l)) l) layers
  | _ => layers
  end.

(** The background image element: its intrinsic dimensions. *)
Record Image : Type := mkImage {
  naturalWidth : Z;
  naturalHeight : Z;
  (** the colour [getDominantColor] reads from the image *)
  dominant : string
}.

Record CanvasState : Type := mkCanvasState {
  layers : list Layer;
  backgroundElement : option Image;
  backgroundType : string;
  backgroundHash : option string;
  bgBrightness : Q;
  bgSaturation : Q;
  (** [None] is an [undefined] rotation, which [|| 0] reads as 0 *)
  projectRotation : option Z;
  backgroundFlipX : bool;
  dominantColor : option string
}.

Definition setLayers (ls : list Layer) (cs : CanvasState) : CanvasState :=
  mkCanvasState ls (backgroundElement cs) (backgroundType cs) (backgroundHash cs)
    (bgBrightness cs) (bgSaturation cs) (projectRotation cs) (backgroundFlipX cs)
    (dominantColor cs).

Definition setBgFilter (p : BgProp) (v : Q) (cs : CanvasState) : CanvasState :=
  match p with
  | bgBrightnessProp =>
      mkCanvasState (layers cs) (backgroundElement cs) (backgroundType cs)
        (backgroundHash cs) v (bgSaturation cs) (projectRotation cs)
        (backgroundFlipX cs) (dominantColor cs)
  | bgSaturationProp =>
      mkCanvasState (layers cs) (backgroundElement cs) (backgroundType cs)
        (backgroundHash cs) (bgBrightness cs) v (projectRotation cs)
        (backgroundFlipX cs) (dominantColor cs)
  end.

Definition setProjectRotation (r : option Z) (cs : CanvasState) : CanvasState :=
  mkCanvasState (layers cs) (backgroundElement cs) (backgroundType cs)
    (backgroundHash cs) (bgBrightness cs) (bgSaturation cs) r
    (backgroundFlipX cs) (dominantColor cs).

Definition setBackgroundFlipX (b : bool) (cs : CanvasState) : CanvasState :=
  mkCanvasState (layers cs) (backgroundElement cs) (backgroundType cs)
    (backgroundHash cs) (bgBrightness cs) (bgSaturation cs) (projectRotation cs)
    b (dominantColor cs).

(** [canvasState.projectRotation || 0] *)
Definition rotationOr0 (cs : CanvasState) : Z :=
  match projectRotation cs with Some r => r | None => 0%Z end.

(** The [default] branch of the source returns [canvasState] itself when
    [layersReducer] returned the very same array and a copy with the new
    array otherwise; both are the value below. *)
Definition canvasStateReducer (canvasState : CanvasState) (action : Action)
  : CanvasState :=
  let newLayers := layersReducer (layers canvasState) action in
  match action with
  | BACKGROUND_FILTER_PREVIEW_CHANGED property value
  | BACKGROUND_FILTER_CHANGED property value =>
      setBgFilter property value (setLayers newLayers canvasState)
  | BACKGROUND_CHANGED backgroundHash =>
      mkCanvasState newLayers (backgroundElement canvasState)
        (backgroundType canvasState) backgroundHash 1 1 (Some 0%Z) false
        (dominantColor canvasState)
  | PROJECT_ROTATED =>
      let newRotation := Z.rem (rotationOr0 canvasState + 90) 360 in
      setProjectRotation (Some newRotation) (setLayers newLayers canvasState)
  | TOGGLE_BACKGROUND_FLIP =>
      setBackgroundFlipX (negb (backgroundFlipX canvasState))
        (setLayers newLayers canvasState)
  | RESET_PROJECT_ROTATION =>
      setProjectRotation (Some 0%Z) (setLayers newLayers canvasState)
  | _ => setLayers newLayers canvasState
  end.

(** ** Pan constraint *)

Definition _constrainPan (movieCanvas : option Bitmap.t) (panX panY scale : Q)
  : Point :=
  match movieCanvas with
  | None => mkPoint 0 0
  | Some c =>
      if Qeq_bool (Bitmap.width c) 0 then mkPoint 0 0
      else
        let canvasWidth := Bitmap.width c in
        let canvasHeight := Bitmap.height c in
        if Qltb scale 1 then
          let centeredX := (canvasWidth - canvasWidth * scale) / 2 in
          let centeredY := (canvasHeight - canvasHeight * scale) / 2 in
          mkPoint centeredX centeredY
        else
          let maxXOffset := canvasWidth * scale - canvasWidth in
          let maxYOffset := canvasHeight * scale - canvasHeight in
          let minX := - maxXOffset in
          let minY := - maxYOffset in
          let maxX := 0 in
          let maxY := 0 in
          let constrainedX := Math_max minX (Math_min panX maxX) in
          let constrainedY := Math_max minY (Math_min panY maxY) in
          mkPoint constrainedX constrainedY
  end.

(** ** Text measurement *)

(** A string is the sequence of the bytes of its UTF-8 encoding, as a
    string literal of this file is.  [trim] strips the WhiteSpace and
    LineTerminator code points of ECMAScript: U+0009 to U+000D and U+0020
    (one byte each), U+00A0 (two bytes) and U+1680, U+2000 to U+200A,
    U+2028, U+2029, U+202F, U+205F, U+3000 and U+FEFF (three bytes each). *)
Definition isWhiteSpace (c : ascii) : bool :=
  let n := nat_of_ascii c in
  (Nat.eqb n 32 || Nat.eqb n 9 || Nat.eqb n 10 || Nat.eqb n 11
   || Nat.eqb n 12 || Nat.eqb n 13)%bool.

Definition isWhiteSpace2 (c0 c1 : ascii) : bool :=
  (Nat.eqb (nat_of_ascii c0) 194 && Nat.eqb (nat_of_ascii c1) 160)%bool.

Definition isWhiteSpace3 (c0 c1 c2 : ascii) : bool :=
  let b0 := nat_of_ascii c0 in
  let b1 := nat_of_ascii c1 in
  let b2 := nat_of_ascii c2 in
  ((b0 =? 225) && (b1 =? 154) && (b2 =? 128)
   || (b0 =? 226) && (b1 =? 128)
      && ((128 <=? b2) && (b2 <=? 138) || (b2 =? 168) || (b2 =? 169) || (b2 =? 175))
   || (b0 =? 226) && (b1 =? 129) && (b2 =? 159)
   || (b0 =? 227) && (b1 =? 128) && (b2 =? 128)
   || (b0 =? 239) && (b1 =? 187) && (b2 =? 191))%nat%bool.

(** [!text || text.trim() === '']: every code point of [text] is one that
    [trim] strips. *)
Fixpoint isBlank (s : string) : bool :=
  match s with
  | EmptyString => true
  | String c0 r0 =>
      if isWhiteSpace c0 then isBlank r0
      else
        match r0 with
        | EmptyString => false
        | String c1 r1 =>
            if isWhiteSpace2 c0 c1 then isBlank r1
            else
              match r1 with
              | EmptyString => false
              | String c2 r2 =>
                  if isWhiteSpace3 c0 c1 c2 then isBlank r2 else false
              end
        end
  end.

(** [text.split('\n')], with the line being read kept in [cur]. *)
Fixpoint splitLines (cur : string) (s : string) : list string :=
  match s with
  | EmptyString => [cur]
  | String c r =>
      if Nat.eqb (nat_of_ascii c) 10 then cur :: splitLines EmptyString r
      else splitLines (cur ++ String c EmptyString)%string r
  end.

Record BlockMetrics : Type := mkBlockMetrics {
  lines : list string;
  lineHeight : Q;
  maxWidth : Q;
  totalHeight : Q;
  ascent : Q
}.

(** What a call that may throw yields. *)
Inductive Outcome (A : Type) : Type :=
| Returned (a : A)
| Thrown (message : string).
Arguments Returned {A} a.
Arguments Thrown {A} message.

Section Engine.
Context `{platform : Platform}.

Definition getTextBlockMetrics (text font : string) (fontSize : Q) : BlockMetrics :=
  if isBlank text then mkBlockMetrics [] 0 0 0 0
  else
    let lines := splitLines EmptyString text in
    let '(maxAscent, maxDescent, maxWidth) :=
      fold_left
        (fun (acc : Q * Q * Q) line =>
           let '(maxAscent, maxDescent, maxWidth) := acc in
           let metrics := measureText font fontSize line in
           (Math_max maxAscent (actualBoundingBoxAscent metrics),
            Math_max maxDescent (actualBoundingBoxDescent metrics),
            Math_max maxWidth (tm_width metrics)))
        lines (0, 0, 0) in
    let singleLineHeight := maxAscent + maxDescent in
    let finalLineHeight :=
      if Qgtb singleLineHeight 0 then singleLineHeight else fontSize * (12 # 10) in
    let totalHeight := inject_Z (Z.of_nat (List.length lines)) * finalLineHeight in
    mkBlockMetrics lines finalLineHeight maxWidth totalHeight maxAscent.

(** ** Geometry *)

(** [{ dWidth, dHeight }] *)
Definition getLayerMetrics (layer : Layer) : Q * Q :=
  match ltype layer with
  | ImageLayer =>
      match contentFrame layer, mipmaps layer with
      | Some frame, baseProxy :: _ =>
          let scale := size layer / Canvas.width baseProxy in
          (Frame.width frame * scale, Frame.height frame * scale)
      | _, _ => (0, 0)
      end
  | TextLayer =>
      let metrics := getTextBlockMetrics (text layer) (font layer) (fontSize layer) in
      (maxWidth metrics, totalHeight metrics)
  end.

(** The offset of the content frame's centre from the layer's centre,
    [(offsetX, offsetY)]; the same block opens [getHandleWorldPosition],
    [getMovieHandleAtPoint] and [isPointInMovieLayer]. *)
Definition frameOffset (layer : Layer) : Q * Q :=
  match ltype layer, contentFrame layer, mipmaps layer with
  | ImageLayer, Some frame, baseProxy :: _ =>
      let fullWidth := size layer in
      let fullHeight := size layer * (Canvas.height baseProxy / Canvas.width baseProxy) in
      let frameScale := fullWidth / Canvas.width baseProxy in
      let frameCenterX := (Frame.x frame + Frame.width frame / 2) * frameScale in
      let frameCenterY := (Frame.y frame + Frame.height frame / 2) * frameScale in
      (frameCenterX - fullWidth / 2, frameCenterY - fullHeight / 2)
  | _, _, _ => (0, 0)
  end.

Inductive HandleName : Set := tl | tr | bl | br | rotateHandle.

(** [handles[handleName]]; the table has no entry for the rotate handle. *)
Definition cornerOf (handleName : HandleName) (dWidth dHeight : Q) : option Point :=
  match handleName with
  | tl => Some (mkPoint (- dWidth / 2) (- dHeight / 2))
  | tr => Some (mkPoint (dWidth / 2) (- dHeight / 2))
  | bl => Some (mkPoint (- dWidth / 2) (dHeight / 2))
  | br => Some (mkPoint (dWidth / 2) (dHeight / 2))
  | rotateHandle => None
  end.

Definition getHandleWorldPosition (layer : Layer) (handleName : HandleName) : Point :=
  let '(dWidth, dHeight) := getLayerMetrics layer in
  if (Qeq_bool dWidth 0 || Qeq_bool dHeight 0)%bool then mkPoint (x layer) (y layer)
  else
    let '(offsetX, offsetY) := frameOffset layer in
    match cornerOf handleName dWidth dHeight with
    | None => mkPoint (x layer) (y layer)
    | Some h =>
        let angle := rot layer * Math_PI / 180 in
        let cos := Math_cos angle in
        let sin := Math_sin angle in
        let handleWorldX := x layer + ((offsetX + px h) * cos - (offsetY + py h) * sin) in
        let handleWorldY := y layer + ((offsetX + px h) * sin + (offsetY + py h) * cos) in
        mkPoint handleWorldX handleWorldY
    end.

Definition isPointInMovieLayer (point : Point) (layer : Layer) : bool :=
  let '(dWidth, dHeight) := getLayerMetrics layer in
  if Qeq_bool dWidth 0 then false
  else
    let dx := px point - x layer in
    let dy := py point - y layer in
    let '(offsetX, offsetY) := frameOffset layer in
    let angle := - rot layer * Math_PI / 180 in
    let localX := dx * Math_cos angle - dy * Math_sin angle in
    let localY := dx * Math_sin angle + dy * Math_cos angle in
    (Qltb (Math_abs (localX - offsetX)) (dWidth / 2)
     && Qltb (Math_abs (localY - offsetY)) (dHeight / 2))%bool.

Record BBox : Type := mkBBox {
  left : Q; top : Q; right : Q; bottom : Q; bwidth : Q; bheight : Q }.

(** [Math.min(...xs)] and [Math.max(...xs)] over the four corners. *)
Definition min4 (a b c d : Q) : Q := Math_min (Math_min (Math_min a b) c) d.
Definition max4 (a b c d : Q) : Q := Math_max (Math_max (Math_max a b) c) d.

Definition getRotatedBoundingBox (layer : Layer) : BBox :=
  let '(dWidth, dHeight) := getLayerMetrics layer in
  if (Qeq_bool dWidth 0 || Qeq_bool dHeight 0)%bool then
    mkBBox (x layer) (y layer) (x layer) (y layer) 0 0
  else
    let angle := rot layer * Math_PI / 180 in
    let cos := Math_cos angle in
    let sin := Math_sin angle in
    let halfW := dWidth / 2 in
    let halfH := dHeight / 2 in
    let rotated (cx cy : Q) : Point :=
      mkPoint (x layer + (cx * cos - cy * sin)) (y layer + (cx * sin + cy * cos)) in
    let c1 := rotated (- halfW) (- halfH) in
    let c2 := rotated halfW (- halfH) in
    let c3 := rotated halfW halfH in
    let c4 := rotated (- halfW) halfH in
    let minX := min4 (px c1) (px c2) (px c3) (px c4) in
    let maxX := max4 (px c1) (px c2) (px c3) (px c4) in
    let minY := min4 (py c1) (py c2) (py c3) (py c4) in
    let maxY := max4 (py c1) (py c2) (py c3) (py c4) in
    mkBBox minX minY maxX maxY (maxX - minX) (maxY - minY).

(** ** Hit testing *)

(** The source catches a failing [getImageData] and answers [true]; reading
    the alpha of a modelled canvas cannot fail. *)
Definition isPixelOpaqueAtPoint (layer : Layer) (point : Point) : bool :=
  match ltype layer, mipmaps layer with
  | ImageLayer, baseProxy :: _ =>
      let dx := px point - x layer in
      let dy := py point - y layer in
      let angle := - rot layer * Math_PI / 180 in
      let localX := dx * Math_cos angle - dy * Math_sin angle in
      let localY := dx * Math_sin angle + dy * Math_cos angle in
      let assetWidth := Canvas.width baseProxy in
      let assetHeight := Canvas.height baseProxy in
      let layerRenderWidth := size layer in
      let layerRenderHeight := size layer * (assetHeight / assetWidth) in
      let scale := assetWidth / layerRenderWidth in
      let proxyX := Qfloor ((localX + layerRenderWidth / 2) * scale) in
      let proxyY := Qfloor ((localY + layerRenderHeight / 2) * scale) in
      if (Qltb (inject_Z proxyX) 0 || Qgeb (inject_Z proxyX) assetWidth
          || Qltb (inject_Z proxyY) 0 || Qgeb (inject_Z proxyY) assetHeight)%bool
      then false
      else (Canvas.alpha baseProxy proxyX proxyY >? 10)%Z
  | _, _ => true
  end.

(** The [for (const layer of layers)] loop of the pointer-down handler:
    the pair [(layerToSelect, topBoundingBoxLayer)] when the loop ends. *)
Fixpoint hitTestScan (point : Point) (layers : list Layer)
    (topBoundingBoxLayer : option Layer) : option Layer * option Layer :=
  match layers with
  | [] => (None, topBoundingBoxLayer)
  | layer :: rest =>
      if isPointInMovieLayer point layer then
        let top' := match topBoundingBoxLayer with
                    | None => Some layer
                    | Some _ => topBoundingBoxLayer
                    end in
        if isPixelOpaqueAtPoint layer point then (Some layer, top')
        else hitTestScan point rest top'
      else hitTestScan point rest topBoundingBoxLayer
  end.

(** The loop followed by [if (!layerToSelect) layerToSelect =
    topBoundingBoxLayer]: the layer a pointer-down at [point] selects. *)
Definition hitTest (point : Point) (layers : list Layer) : option Layer :=
  let '(layerToSelect, topBoundingBoxLayer) := hitTestScan point layers None in
  match layerToSelect with
  | Some l => Some l
  | None => topBoundingBoxLayer
  end.

(** ** Corner resize *)

Record ResizeGesture : Type := mkResizeGesture {
  gestureLayerId : string;
  handle : HandleName;
  startX : Q;
  startY : Q;
  initialState : Layer;
  anchorPoint : Point;
  startHandlePoint : Point
}.

Definition oppositeHandles (h : HandleName) : HandleName :=
  match h with
  | tl => br | tr => bl | bl => tr | br => tl
  | rotateHandle => rotateHandle
  end.

(** The [interactionData] the pointer-down handler builds when a corner
    handle of the active layer is hit; [initialState] is the snapshot
    [JSON.parse(JSON.stringify(activeLayer))]. *)
Definition handleMovieInteractionStart_resize (activeLayer : Layer)
    (handle : HandleName) (point : Point) : ResizeGesture :=
  mkResizeGesture (id activeLayer) handle (px point) (py point) activeLayer
    (getHandleWorldPosition activeLayer (oppositeHandles handle))
    (getHandleWorldPosition activeLayer handle).

(** [scaleFactor] of the resize branch. *)
Definition resizeScaleFactor (g : ResizeGesture) (point : Point) : Q :=
  let initialVector :=
    mkPoint (px (startHandlePoint g) - px (anchorPoint g))
            (py (startHandlePoint g) - py (anchorPoint g)) in
  let currentMouseVector :=
    mkPoint (px point - px (anchorPoint g)) (py point - py (anchorPoint g)) in
  let initialDist := Math_hypot (px initialVector) (py initialVector) in
  let dotProduct :=
    px currentMouseVector * px initialVector
    + py currentMouseVector * py initialVector in
  let projectedDist := dotProduct / initialDist in
  Math_max (1 # 100) (projectedDist / initialDist).

(** The resize branch of the pointer-move handler, for the active layer [l]:
    the actions it dispatches, in order. *)
Definition handleMovieInteractionMove_resize (g : ResizeGesture) (l : Layer)
    (point : Point) : list Action :=
  let initialVector :=
    mkPoint (px (startHandlePoint g) - px (anchorPoint g))
            (py (startHandlePoint g) - py (anchorPoint g)) in
  let initialDist := Math_hypot (px initialVector) (py initialVector) in
  if Qgtb initialDist 1 then
    let scaleFactor := resizeScaleFactor g point in
    let vectorFromAnchorToCenter :=
      mkPoint (x (initialState g) - px (anchorPoint g))
              (y (initialState g) - py (anchorPoint g)) in
    let newX := px (anchorPoint g) + px vectorFromAnchorToCenter * scaleFactor in
    let newY := py (anchorPoint g) + py vectorFromAnchorToCenter * scaleFactor in
    LAYER_TRANSFORMED (id l) [PNum Fld.x newX; PNum Fld.y newY]
    :: match ltype l with
       | TextLayer =>
           let newSize := Math_max 10 (fontSize (initialState g) * scaleFactor) in
           [LAYER_PROPERTY_CHANGED (id l) (PNum Fld.fontSize newSize)]
       | ImageLayer =>
           let newSize := Math_max 20 (size (initialState g) * scaleFactor) in
           [LAYER_PROPERTY_CHANGED (id l) (PNum Fld.size newSize)]
       end
  else [].

(** [dispatch] on the canvas state: one reducer step per action. *)
Definition dispatchAll (cs : CanvasState) (actions : list Action) : CanvasState :=
  fold_left canvasStateReducer actions cs.

(** [layers.find(l => l.id === layerId)] *)
Definition findLayer (layerId : string) (ls : list Layer) : option Layer :=
  find (fun l => String.eqb (id l) layerId) ls.

(** ** The effect cache *)

Definition setValid (b : bool) (layer : Layer) : Layer :=
  match cache layer with
  | Some c => setCache (Some (Cache.mk (Cache.canvas c) b)) layer
  | None => layer
  end.

(** [padding] of [updateLayerCache]. *)
Definition cachePadding (layer : Layer) : Q :=
  let padding :=
    if Shadow.enabled (shadow layer) then
      Shadow.blur (shadow layer) * 2
      + Math_max (Math_abs (Shadow.offsetX (shadow layer)))
                 (Math_abs (Shadow.offsetY (shadow layer)))
    else 0 in
  match ltype layer with
  | ImageLayer =>
      if Border.enabled (border layer) then padding + Border.width (border layer) * 2
      else padding
  | TextLayer => padding
  end.

(** [updateLayerCache] from the point where [contentWidth] and
    [contentHeight] are known: the layer it leaves.  What it paints on the
    cache canvas is [paintCache] below. *)
Definition buildCache (layer : Layer) (contentWidth contentHeight : Q) : Layer :=
  if (Qleb contentWidth 0 || Qleb contentHeight 0)%bool then
    match cache layer with
    | Some c =>
        let canvas' :=
          match Cache.canvas c with
          | Some _ => Some (Bitmap.mk 0 0)
          | None => None
          end in
        setCache (Some (Cache.mk canvas' true)) layer
    | None => layer
    end
  else
    let padding := cachePadding layer in
    let cacheWidth := contentWidth + padding * 2 in
    let cacheHeight := contentHeight + padding * 2 in
    setCache
      (Some (Cache.mk (Some (Bitmap.mk (setCanvasWidth cacheWidth)
                                       (setCanvasHeight cacheHeight))) true))
      layer.

Definition updateLayerCache (layer0 : Layer) : Layer :=
  let layer :=
    match cache layer0 with
    | None => setCache (Some (Cache.mk None false)) layer0
    | Some _ => layer0
    end in
  match ltype layer with
  | ImageLayer =>
      match mipmaps layer with
      | [] => setValid false layer
      | baseProxy :: _ =>
          if Qeq_bool (Canvas.width baseProxy) 0 then setValid false layer
          else buildCache layer (Canvas.width baseProxy) (Canvas.height baseProxy)
      end
  | TextLayer =>
      let metrics := getTextBlockMetrics (text layer) (font layer) (fontSize layer) in
      let layer := setNum Fld.height (totalHeight metrics)
                     (setNum Fld.width (maxWidth metrics) layer) in
      buildCache layer (maxWidth metrics) (totalHeight metrics)
  end.

(** One call that paints content on a cache canvas, in the coordinates of
    the canvas: [drawImage(asset, dx, dy, dWidth, dHeight)], or
    [fillText(line, x, y)] with [textAlign = 'center'] and the alphabetic
    baseline, which centres the line on [x] and puts its baseline at [y]. *)
Inductive CachePaint : Type :=
| PaintImage (dx dy dWidth dHeight : Q)
| PaintText (line : string) (centreX baselineY : Q).

(** [lines.forEach((line, index) => f(line, index))] *)
Fixpoint forEachIndexed {A B : Type} (f : A -> nat -> B) (index : nat) (l : list A)
  : list B :=
  match l with
  | [] => []
  | a :: r => f a index :: forEachIndexed f (S index) r
  end.

(** What [updateLayerCache] paints once the content size is known.  The
    context is translated by [(cacheWidth / 2, cacheHeight / 2)], the
    numbers before they are assigned to the canvas.  A stroked text paints
    each line a second time at the same place. *)
Definition paintCache (layer : Layer) (contentWidth contentHeight : Q)
  : list CachePaint :=
  if (Qleb contentWidth 0 || Qleb contentHeight 0)%bool then []
  else
    let padding := cachePadding layer in
    let cacheWidth := contentWidth + padding * 2 in
    let cacheHeight := contentHeight + padding * 2 in
    let translateX := cacheWidth / 2 in
    let translateY := cacheHeight / 2 in
    match ltype layer with
    | ImageLayer =>
        [PaintImage (translateX + - contentWidth / 2) (translateY + - contentHeight / 2)
           contentWidth contentHeight]
    | TextLayer =>
        let metrics := getTextBlockMetrics (text layer) (font layer) (fontSize layer) in
        let topOfBlockY := - totalHeight metrics / 2 in
        forEachIndexed
          (fun line index =>
             let yPos :=
               topOfBlockY + ascent metrics
               + inject_Z (Z.of_nat index) * lineHeight metrics in
             PaintText line (translateX + 0) (translateY + yPos))
          O (lines metrics)
    end.

Definition updateLayerCache_paint (layer : Layer) : list CachePaint :=
  match ltype layer with
  | ImageLayer =>
      match mipmaps layer with
      | [] => []
      | baseProxy :: _ =>
          if Qeq_bool (Canvas.width baseProxy) 0 then []
          else paintCache layer (Canvas.width baseProxy) (Canvas.height baseProxy)
      end
  | TextLayer =>
      let metrics := getTextBlockMetrics (text layer) (font layer) (fontSize layer) in
      paintCache layer (maxWidth metrics) (totalHeight metrics)
  end.

(** *** The worker's [renderLayer] (layer-renderer.js) *)

Record LayerData : Type := mkLayerData {
  dataType : LayerType;
  propShadow : Shadow.t;
  propBorder : Border.t;
  contentWidth : Q;
  contentHeight : Q
}.

Definition renderLayerPadding (layerData : LayerData) : Q :=
  let padding :=
    if Shadow.enabled (propShadow layerData) then
      Shadow.blur (propShadow layerData) * (25 # 10)
      + Math_max (Math_abs (Shadow.offsetX (propShadow layerData)))
                 (Math_abs (Shadow.offsetY (propShadow layerData)))
    else 0 in
  match dataType layerData with
  | ImageLayer =>
      if Border.enabled (propBorder layerData)
      then padding + Border.width (propBorder layerData) * 2
      else padding
  | TextLayer => padding
  end.

Definition renderLayer (layerData : LayerData) : Outcome Bitmap.t :=
  let padding := renderLayerPadding layerData in
  let cacheWidth := Math_round (contentWidth layerData + padding * 2) in
  let cacheHeight := Math_round (contentHeight layerData + padding * 2) in
  if (Qleb cacheWidth 0 || Qleb cacheHeight 0)%bool
  then Thrown "Invalid cache dimensions."
  else Returned (Bitmap.mk cacheWidth cacheHeight).

(** What [renderLayer] paints on its canvas when it does not throw. *)
Definition renderLayer_paint (layerData : LayerData) : list CachePaint :=
  let padding := renderLayerPadding layerData in
  let cacheWidth := Math_round (contentWidth layerData + padding * 2) in
  let cacheHeight := Math_round (contentHeight layerData + padding * 2) in
  if (Qleb cacheWidth 0 || Qleb cacheHeight 0)%bool then []
  else
    [PaintImage (cacheWidth / 2 + - contentWidth layerData / 2)
       (cacheHeight / 2 + - contentHeight layerData / 2)
       (contentWidth layerData) (contentHeight layerData)].

(** ** The compositor *)

Definition FADE_IN_DURATION : Q := 300.

(** One [drawImage] of a layer's cache canvas, with the transform that
    [drawLayers] has set on the context; [cmdLayer] names the layer. *)
Record DrawCmd : Type := mkDrawCmd {
  cmdLayer : string;
  translateX : Q;
  translateY : Q;
  rotateAngle : Q;
  (** [(globalAlpha, scaleFactor)] of the entrance animation, if it runs *)
  fadeIn : option (Q * Q);
  flipped : bool;
  contentScale : Q;
  image : Bitmap.t;
  dx : Q;
  dy : Q
}.

(** [!l.cache || !l.cache.isValid] *)
Definition cacheStale (l : Layer) : bool :=
  match cache l with
  | Some c => negb (Cache.isValid c)
  | None => true
  end.

(** The cache the loop body reads after its rebuild step. *)
Definition ensureCache (l : Layer) : Layer :=
  if cacheStale l then updateLayerCache l else l.

(** [l.cache && l.cache.canvas && l.cache.canvas.width > 0], with the canvas. *)
Definition drawableCanvas (l : Layer) : option Bitmap.t :=
  match cache l with
  | Some c =>
      match Cache.canvas c with
      | Some cv => if Qgtb (Bitmap.width cv) 0 then Some cv else None
      | None => None
      end
  | None => None
  end.

Definition drawCmdOf (isFinalRender : bool) (now : Q) (l : Layer) (cv : Bitmap.t)
  : DrawCmd :=
  let age := now - createdAt l in
  let fade :=
    if (negb isFinalRender && negb (restored l) && Qltb age FADE_IN_DURATION)%bool then
      let animationProgress := age / FADE_IN_DURATION in
      let scaleFactor := (95 # 100) + (5 # 100) * animationProgress in
      Some (animationProgress, scaleFactor)
    else None in
  let scale :=
    match ltype l, mipmaps l with
    | ImageLayer, baseProxy :: _ => size l / Canvas.width baseProxy
    | _, _ => 1
    end in
  mkDrawCmd (id l) (x l) (y l) (rot l * Math_PI / 180) fade (flipX l) scale cv
    (- Bitmap.width cv / 2) (- Bitmap.height cv / 2).

Section Compositor.
(** The 2D context being drawn to, and its [drawImage]. *)
Variable Surface : Type.
Variable drawImage : Surface -> DrawCmd -> Surface.

(** The body of the loop of [drawLayers] for an already rebuilt layer. *)
Definition drawLayer (isFinalRender : bool) (now : Q) (ctx : Surface) (l : Layer)
  : Surface :=
  match drawableCanvas l with
  | Some cv => drawImage ctx (drawCmdOf isFinalRender now l cv)
  | None => ctx
  end.

(** [layers[i] = v], where [updateLayerCache] mutates the layer object. *)
Fixpoint setNth (i : nat) (v : Layer) (ls : list Layer) : list Layer :=
  match i, ls with
  | _, [] => []
  | O, _ :: r => v :: r
  | S i', a :: r => a :: setNth i' v r
  end.

(** The iterations [i = k - 1, ..., 0] of [for (let i = layers.length - 1;
    i >= 0; i--)], on the pair of the layer array and the context. *)
Fixpoint drawLayersFrom (isFinalRender : bool) (now : Q) (k : nat)
    (st : list Layer * Surface) : list Layer * Surface :=
  match k with
  | O => st
  | S i =>
      let '(ls, ctx) := st in
      match nth_error ls i with
      | Some l0 =>
          let l := ensureCache l0 in
          drawLayersFrom isFinalRender now i
            (setNth i l ls, drawLayer isFinalRender now ctx l)
      | None => drawLayersFrom isFinalRender now i st
      end
  end.

Definition drawLayers (ctx : Surface) (ls : list Layer) (isFinalRender : bool)
    (now : Q) : list Layer * Surface :=
  drawLayersFrom isFinalRender now (List.length ls) (ls, ctx).

(** The statement of the z-order contract: the layers composited in array
    order with index 0 topmost, so the head is painted over the composite of
    the layers below it. *)
Fixpoint compositeTopFirst (isFinalRender : bool) (now : Q) (ctx : Surface)
    (ls : list Layer) : Surface :=
  match ls with
  | [] => ctx
  | topmost :: below =>
      drawLayer isFinalRender now
        (compositeTopFirst isFinalRender now ctx below) (ensureCache topmost)
  end.

End Compositor.

(** ** Application state, [setBackground] and [rotateProject] *)

Record ViewState : Type := mkViewState { scale : Q; pan : Point }.

(** The part of [this.state] and of [this.dom] that the modelled functions
    read or write. *)
Record App : Type := mkApp {
  canvasState : CanvasState;
  activeLayerId : option string;
  viewState : ViewState;
  targetViewState : ViewState;
  masterWidth : Q;
  masterHeight : Q;
  backgroundCanvas : Bitmap.t;
  movieCanvas : Bitmap.t;
  controlsOverlayCanvas : Bitmap.t
}.

Definition setCanvasState (cs : CanvasState) (a : App) : App :=
  mkApp cs (activeLayerId a) (viewState a) (targetViewState a) (masterWidth a)
    (masterHeight a) (backgroundCanvas a) (movieCanvas a) (controlsOverlayCanvas a).

Definition setActiveLayerId (i : option string) (a : App) : App :=
  mkApp (canvasState a) i (viewState a) (targetViewState a) (masterWidth a)
    (masterHeight a) (backgroundCanvas a) (movieCanvas a) (controlsOverlayCanvas a).

Definition optionStringEqb (a b : option string) : bool :=
  match a, b with
  | Some s, Some t => String.eqb s t
  | None, None => true
  | _, _ => false
  end.

Definition initialView : ViewState := mkViewState 1 (mkPoint 0 0).

Definition rootReducer (state : App) (action : Action) : App :=
  let newCanvasState := canvasStateReducer (canvasState state) action in
  let newState := setCanvasState newCanvasState state in
  match action with
  | SELECT_LAYER layerId => setActiveLayerId layerId newState
  | LAYER_ADDED newLayer => setActiveLayerId (Some (id newLayer)) newState
  | LAYER_DELETED layerId =>
      if optionStringEqb (activeLayerId state) (Some layerId)
      then setActiveLayerId None newState else newState
  | CLEAR_CANVAS =>
      mkApp (mkCanvasState [] None "none" None 1 1 (Some 0%Z) false None)
        None initialView initialView (masterWidth state) (masterHeight state)
        (backgroundCanvas state) (movieCanvas state) (controlsOverlayCanvas state)
  | _ => newState
  end.

(** [this.dispatch(action)]: the reducer step; broadcasting and redrawing
    are not modelled. *)
Definition dispatch (action : Action) (app : App) : App := rootReducer app action.

(** [getActiveLayer]: [layers.find(l => l.id === this.state.activeLayerId)] *)
Definition getActiveLayer (app : App) : option Layer :=
  match activeLayerId app with
  | Some layerId => findLayer layerId (layers (canvasState app))
  | None => None
  end.

(** [handleMovieInteractionMove] while [movieInteraction] is the resize
    gesture [g]: the layer is read from the state at every move
    ([const l = this.getActiveLayer(); if (!l) return;]) and the actions of
    the resize branch are dispatched one after the other. *)
Definition handleMovieInteractionMove (g : ResizeGesture) (app : App)
    (point : Point) : App :=
  match getActiveLayer app with
  | Some l => fold_left rootReducer (handleMovieInteractionMove_resize g l point) app
  | None => app
  end.

(** The pointer moves of one gesture, in the order of the events. *)
Definition pointerMoves (g : ResizeGesture) (app : App) (points : list Point) : App :=
  fold_left (handleMovieInteractionMove g) points app.

Definition MAX_CANVAS_WIDTH : Q := 1920.

(** [[90, 270].includes(projectRotation)] *)
Definition isTilted (cs : CanvasState) : bool :=
  match projectRotation cs with
  | Some r => (Z.eqb r 90 || Z.eqb r 270)%bool
  | None => false
  end.

(** [(w, h)]: the background's natural size, transposed when tilted. *)
Definition masterSize (element : Image) (tilted : bool) : Q * Q :=
  let w_orig := inject_Z (naturalWidth element) in
  let h_orig := inject_Z (naturalHeight element) in
  let w := if tilted then h_orig else w_orig in
  let h := if tilted then w_orig else h_orig in
  (w, h).

(** [(newCanvasWidth, newCanvasHeight)] for a master size [(w, h)].  For
    [h = 0] the source has an infinite ratio and the quotient 0 by it; the
    model has the ratio 0 and the quotient 0 by it. *)
Definition canvasSize (w h : Q) : Q * Q :=
  let canvasAspectRatio := fdiv w h in
  let '(newCanvasWidth, newCanvasHeight) :=
    if Qgtb w MAX_CANVAS_WIDTH
    then (MAX_CANVAS_WIDTH, fdiv MAX_CANVAS_WIDTH canvasAspectRatio)
    else (w, h) in
  (Math_round newCanvasWidth, Math_round newCanvasHeight).

(** The body of the [layers.forEach] of [setBackground]. *)
Definition relayoutLayer (newCanvasWidth newCanvasHeight newMasterDim : Q)
    (l0 : Layer) : Layer :=
  let l1 :=
    match ltype l0 with
    | ImageLayer => setNum Fld.size (propSize l0 * newMasterDim) l0
    | TextLayer => setNum Fld.fontSize (propSize l0 * newMasterDim) l0
    end in
  let l2 := setNum Fld.x (propX l1 * newCanvasWidth) l1 in
  let l3 := setNum Fld.y (propY l2 * newCanvasHeight) l2 in
  let bbox := getRotatedBoundingBox l3 in
  let deltaX :=
    if Qltb (left bbox) 0 then - left bbox
    else if Qgtb (right bbox) newCanvasWidth then newCanvasWidth - right bbox
    else 0 in
  let deltaY :=
    if Qltb (top bbox) 0 then - top bbox
    else if Qgtb (bottom bbox) newCanvasHeight then newCanvasHeight - bottom bbox
    else 0 in
  let l4 := setNum Fld.x (x l3 + deltaX) l3 in
  let l5 := setNum Fld.y (y l4 + deltaY) l4 in
  setValid false l5.

Definition setBackground (element : Image) (hash : option string)
    (isRestoring : bool) (app0 : App) : App :=
  let app1 :=
    if (negb isRestoring
        && negb (optionStringEqb hash (backgroundHash (canvasState app0))))%bool
    then dispatch RESET_PROJECT_ROTATION app0 else app0 in
  let cs1 := canvasState app1 in
  let '(brightness, saturation) :=
    if isRestoring then (bgBrightness cs1, bgSaturation cs1) else (1, 1) in
  let isFirstBackground :=
    match backgroundElement cs1 with None => true | Some _ => false end in
  let '(w, h) := masterSize element (isTilted cs1) in
  let '(newCanvasWidth, newCanvasHeight) := canvasSize w h in
  let newLayers :=
    if (negb isFirstBackground && (0 <? List.length (layers cs1))%nat)%bool then
      let newMasterDim := Math_sqrt (newCanvasWidth * newCanvasHeight) in
      map (relayoutLayer newCanvasWidth newCanvasHeight newMasterDim) (layers cs1)
    else layers cs1 in
  let cs2 :=
    mkCanvasState newLayers (Some element) "image" hash brightness saturation
      (projectRotation cs1) (backgroundFlipX cs1) (Some (dominant element)) in
  let canvas := Bitmap.mk newCanvasWidth newCanvasHeight in
  let app2 :=
    mkApp cs2 (activeLayerId app1) initialView initialView w h canvas canvas canvas in
  if isRestoring then app2 else dispatch (BACKGROUND_CHANGED hash) app2.

Definition rotateProject (app : App) : App :=
  match backgroundElement (canvasState app) with
  | None => app
  | Some element =>
      let app1 := dispatch PROJECT_ROTATED app in
      match backgroundElement (canvasState app1) with
      | Some element1 =>
          setBackground element1 (backgroundHash (canvasState app1)) true app1
      | None => app1
      end
  end.

(** The payload of the [LAYER_TRANSFORMED] action that the pointer-up handler
    dispatches at the end of a transform gesture in which the pointer was
    dragged: the proportional fields and the alignment hint. *)
Definition handleMovieInteractionEnd_payload (canvasWidth canvasHeight : Q)
    (l : Layer) : list LayerProp :=
  let masterDim := Math_sqrt (canvasWidth * canvasHeight) in
  let bbox := getRotatedBoundingBox l in
  let threshold := 20 in
  let alignX :=
    if Qltb (left bbox) threshold then "left"%string
    else if Qgtb (right bbox) (canvasWidth - threshold) then "right"%string
    else "center"%string in
  let alignY :=
    if Qltb (top bbox) threshold then "top"%string
    else if Qgtb (bottom bbox) (canvasHeight - threshold) then "bottom"%string
    else "middle"%string in
  [PNum Fld.propX (x l / canvasWidth);
   PNum Fld.propY (y l / canvasHeight);
   PNum Fld.propSize
     (match ltype l with
      | ImageLayer => size l / masterDim
      | TextLayer => fontSize l / masterDim
      end);
   PStr Fld.alignX alignX;
   PStr Fld.alignY alignY].

End Engine.

(** ** Mipmaps *)

(** [Math.min(maxDimension / sourceWidth, maxDimension / sourceHeight, 1)].
    The width and the height of an image or a canvas are unsigned, and
    [maxDimension] is the constant 2048 at every call.  A dimension of 0
    makes its quotient infinite ([None]), which the minimum passes over. *)
Definition mipScale (sourceWidth sourceHeight : N) (maxDimension : positive) : Q :=
  let quotient (dimension : N) : option Q :=
    if (dimension =? 0)%N then None
    else Some (fdiv (inject_Z (Zpos maxDimension)) (inject_Z (Z.of_N dimension))) in
  let min (a : option Q) (b : Q) : Q :=
    match a with
    | Some a' => Math_min a' b
    | None => b
    end in
  min (quotient sourceWidth) (min (quotient sourceHeight) 1).

(** The [while (mipWidth > 32 && mipHeight > 32)] loop: the sizes of the
    canvases it pushes, in order. *)
Equations? mipLevels (mipWidth mipHeight : Z) : list (Z * Z)
  by wf (Z.to_nat mipWidth) lt :=
  mipLevels mipWidth mipHeight
    with Logic.inspect ((mipWidth >? 32) && (mipHeight >? 32))%Z%bool := {
    | exist _ true _ =>
        let w := Z.max 32 (mipWidth / 2) in
        let h := Z.max 32 (mipHeight / 2) in
        (w, h) :: mipLevels w h
    | exist _ false _ => [] }.
Proof.
  apply andb_prop in e. destruct e as [Hw _].
  apply Z.gtb_lt in Hw.
  assert (mipWidth / 2 < mipWidth)%Z by (apply Z.div_lt; lia).
  lia.
Qed.

(** The sizes (width, height) of the canvases of [generateMipmaps], base
    level first; the pixels drawn into them are not modelled. *)
Definition generateMipmaps (sourceWidth sourceHeight : N) (maxDimension : positive)
  : list (Z * Z) :=
  let scale := mipScale sourceWidth sourceHeight maxDimension in
  let mipWidth := Qfloor (fmul (inject_Z (Z.of_N sourceWidth)) scale + (1 # 2)) in
  let mipHeight := Qfloor (fmul (inject_Z (Z.of_N sourceHeight)) scale + (1 # 2)) in
  (mipWidth, mipHeight) :: mipLevels mipWidth mipHeight.

(** ** Statements of the contracts checked below *)

(** [v] clamped to the interval from [lo] to [hi]. *)
Definition clamp (lo hi v : Q) : Q :=
  if Qltb v lo then lo else if Qltb hi v then hi else v.

(** The pan contract on a [W] by [H] canvas: the centring offset below
    scale 1, the per-axis clamp to [-(dimension*scale - dimension), 0] from
    scale 1 on. *)
Definition panContract (W H panX panY scale : Q) (p : Point) : Prop :=
  (scale < 1 ->
     px p == (W - W * scale) / 2 /\ py p == (H - H * scale) / 2)
  /\ (1 <= scale ->
        px p == clamp (- (W * scale - W)) 0 panX
        /\ py p == clamp (- (H * scale - H)) 0 panY).

(** The layer-local raster coordinates of a world point as the contract of
    the hit test words them: the point is rotated back by the layer's
    rotation and mirrored back when the layer is flipped. *)
Definition rasterCoordsInverseFlip `{platform : Platform} (layer : Layer) (baseProxy : Canvas.t)
    (point : Point) : Z * Z :=
  let dx := px point - x layer in
  let dy := py point - y layer in
  let angle := - rot layer * Math_PI / 180 in
  let localX := dx * Math_cos angle - dy * Math_sin angle in
  let localY := dx * Math_sin angle + dy * Math_cos angle in
  let finalLocalX := if flipX layer then - localX else localX in
  let assetWidth := Canvas.width baseProxy in
  let assetHeight := Canvas.height baseProxy in
  let layerRenderWidth := size layer in
  let layerRenderHeight := size layer * (assetHeight / assetWidth) in
  let scale := assetWidth / layerRenderWidth in
  (Qfloor ((finalLocalX + layerRenderWidth / 2) * scale),
   Qfloor ((localY + layerRenderHeight / 2) * scale)).

(** Pixel opacity as the contract of the hit test words it: the alpha of
    the base mipmap at the inverse-rotated, inverse-flipped point is above
    the threshold. *)
Definition pixelOpaqueInverseFlip `{platform : Platform} (layer : Layer) (point : Point) : bool :=
  match ltype layer, mipmaps layer with
  | ImageLayer, baseProxy :: _ =>
      let '(proxyX, proxyY) := rasterCoordsInverseFlip layer baseProxy point in
      if (Qltb (inject_Z proxyX) 0 || Qgeb (inject_Z proxyX) (Canvas.width baseProxy)
          || Qltb (inject_Z proxyY) 0
          || Qgeb (inject_Z proxyY) (Canvas.height baseProxy))%bool
      then false
      else (Canvas.alpha baseProxy proxyX proxyY >? 10)%Z
  | _, _ => true
  end.

(** The selection the contract of the hit test words: the first layer,
    top to bottom, whose bounding region contains the point and whose pixel
    there is opaque, else the topmost layer whose bounding region contains
    the point. *)
Definition selectFirstOpaque `{platform : Platform} (opaque : Layer -> Point -> bool)
    (point : Point) (ls : list Layer) : option Layer :=
  match find (fun l => isPointInMovieLayer point l && opaque l point)%bool ls with
  | Some l => Some l
  | None => find (fun l => isPointInMovieLayer point l) ls
  end.

(** [n] consecutive [PROJECT_ROTATED] actions. *)
Definition rotateTimes (n : nat) (cs : CanvasState) : CanvasState :=
  Nat.iter n (fun c => canvasStateReducer c PROJECT_ROTATED) cs.

(** Canvas [b] has the width and height of canvas [a] exchanged. *)
Definition transposed (a b : Bitmap.t) : Prop :=
  Bitmap.width b == Bitmap.height a /\ Bitmap.height b == Bitmap.width a.

(** The layer id in the payload of the four layer-edit actions
    [LAYER_TRANSFORMED], [LAYER_PROPERTY_CHANGED], [LAYER_SHADOW_CHANGED]
    and [LAYER_BORDER_CHANGED]. *)
Definition editedLayerId (action : Action) : option string :=
  match action with
  | LAYER_TRANSFORMED layerId _
  | LAYER_PROPERTY_CHANGED layerId _
  | LAYER_SHADOW_CHANGED layerId _
  | LAYER_BORDER_CHANGED layerId _ => Some layerId
  | _ => None
  end.

(** The payload of the action has no [id] entry: the action cannot give a
    layer another id.  Every payload the application builds is such a
    payload. *)
Definition noIdProp (props : list LayerProp) : bool :=
  forallb (fun p => match p with PId _ => false | _ => true end) props.

Definition payloadKeepsId (action : Action) : bool :=
  match action with
  | LAYER_PROPERTY_PREVIEW_CHANGED _ p
  | LAYER_PROPERTY_CHANGED _ p => noIdProp [p]
  | LAYER_TRANSFORMED _ props
  | LAYER_REFIT_AND_TRANSFORM _ props => noIdProp props
  | _ => true
  end.

(** Each level after [prev] has [max(32, floor(d / 2))] for each dimension
    [d] of the level before it, and is smaller in both dimensions. *)
Fixpoint halvingChain (prev : Z * Z) (rest : list (Z * Z)) : Prop :=
  match rest with
  | [] => True
  | level :: rest' =>
      fst level = Z.max 32 (fst prev / 2)
      /\ snd level = Z.max 32 (snd prev / 2)
      /\ (fst level < fst prev)%Z /\ (snd level < snd prev)%Z
      /\ halvingChain level rest'
  end.

(** A level is at least 32 pixels on its smaller dimension. *)
Definition atLeast32 (level : Z * Z) : Prop :=
  (32 <= Z.min (fst level) (snd level))%Z.

(** The scale that fits a [w] by [h] source into a square of side [m]
    without enlarging it. *)
Definition fitScale (w h m : Q) : Q := Qmin (Qmin (m / w) (m / h)) 1.

(** The mipmap contract as worded: a chain of halved levels, largest first,
    whose base does not exceed [maxDimension] and whose every level is at
    least 32 pixels on its smaller dimension. *)
Definition mipmapContract (maxDimension : Z) (levels : list (Z * Z)) : Prop :=
  match levels with
  | [] => False
  | base :: rest =>
      (fst base <= maxDimension)%Z /\ (snd base <= maxDimension)%Z
      /\ halvingChain base rest
      /\ Forall atLeast32 levels
  end.

(** The cache padding as worded: twice the shadow blur plus the larger
    absolute shadow offset when the shadow is enabled, plus twice the
    border width when the border of an image layer is enabled. *)
Definition paddingContract (t : LayerType) (s : Shadow.t) (b : Border.t) : Q :=
  (if Shadow.enabled s
   then 2 * Shadow.blur s
        + Qmax (Qabs (Shadow.offsetX s)) (Qabs (Shadow.offsetY s))
   else 0)
  + (match t with
     | ImageLayer => if Border.enabled b then Border.width b * 2 else 0
     | TextLayer => 0
     end).

(** The degenerate-cache contract as worded: the cache is marked valid and
    its canvas, if there is one, has zero size. *)
Definition degenerateCache (l : Layer) : Prop :=
  match cache l with
  | Some c =>
      Cache.isValid c = true
      /\ match Cache.canvas c with
         | Some cv => Bitmap.width cv == 0 /\ Bitmap.height cv == 0
         | None => True
         end
  | None => False
  end.

(** The display list: a surface that records the draw commands in the
    order they are issued, so that a later command paints over an earlier
    one. *)
Definition DisplayList : Type := list DrawCmd.
Definition recordDraw (ctx : DisplayList) (cmd : DrawCmd) : DisplayList := ctx ++ [cmd].


(** A layer fits the canvas when its rotated bounding box lies inside it. *)
Definition fitsCanvas `{platform : Platform} (W H : Q) (l : Layer) : Prop :=
  let bbox := getRotatedBoundingBox l in
  0 <= left bbox /\ right bbox <= W /\ 0 <= top bbox /\ bottom bbox <= H.

(** Layer [l] resized and placed by its proportional fields on a [W] by
    [H] canvas, before the out-of-bounds shift of [setBackground]. *)
Definition placedByProps `{platform : Platform} (W H : Q) (l : Layer) : Layer :=
  let D := Math_sqrt (W * H) in
  setNum Fld.y (propY l * H)
    (setNum Fld.x (propX l * W)
       (match ltype l with
        | ImageLayer => setNum Fld.size (propSize l * D) l
        | TextLayer => setNum Fld.fontSize (propSize l * D) l
        end)).

(** The measured block of text layer [l] scales by [k] when its font size
    is set to [newFontSize]: what a platform with scalable fonts gives for
    [newFontSize = k * fontSize]. *)
Definition textScales `{platform : Platform} (l : Layer) (newFontSize k : Q) : Prop :=
  let m := getTextBlockMetrics (text l) (font l) (fontSize l) in
  let m' := getTextBlockMetrics (text l) (font l) newFontSize in
  maxWidth m' == maxWidth m * k /\ totalHeight m' == totalHeight m * k.

(** What a resize gesture leaves alone in a layer: everything that its
    metrics and handles are computed from, but the position and the size. *)
Definition sameContent (l l' : Layer) : Prop :=
  id l' = id l /\ ltype l' = ltype l /\ rot l' = rot l
  /\ text l' = text l /\ font l' = font l
  /\ contentFrame l' = contentFrame l /\ mipmaps l' = mipmaps l.

(** The active layer after the actions of a resize move went through the
    reducer. *)
Definition afterResizeMove `{platform : Platform} (cs : CanvasState)
    (g : ResizeGesture) (l : Layer) (point : Point) : option Layer :=
  findLayer (id l)
    (layers (dispatchAll cs (handleMovieInteractionMove_resize g l point))).

(** ** A reference platform and sample data, to run the model *)

Definition polyCos (a : Q) : Q :=
  1 - a * a / 2 + a * a * a * a / 24.
Definition polySin (a : Q) : Q :=
  a - a * a * a / 6 + a * a * a * a * a / 120.

(** The integer square root of [q * 10^12], over [10^6]: exact on the
    squares of integers. *)
Definition approxSqrt (q : Q) : Q :=
  inject_Z (Z.sqrt (Qfloor (q * 1000000000000))) / 1000000.

(** Monospaced text: every character is [0.6 * fontSize] wide. *)
Definition monoMeasure (font : string) (fontSize : Q) (line : string) : TextMetrics :=
  mkTextMetrics (fontSize * (6 # 10) * inject_Z (Z.of_nat (String.length line)))
    (fontSize * (8 # 10)) (fontSize * (2 # 10)).

Definition refPlatform : Platform :=
  Build_Platform (355 # 113) polyCos polySin approxSqrt
    (fun a b => approxSqrt (a * a + b * b)) monoMeasure.

(** [Math.sqrt] on doubles, the double nearest the square root: the
    argument is scaled by a power of 4 into the interval from 1 to 4, the
    root of the scaled argument is taken to 53 binary places and rounded to
    52, and the result is scaled back by the power of 2.  It is 0 where the
    source gives [NaN]. *)
Definition doubleSqrt (q : Q) : Q :=
  if Qleb q 0 then 0
  else
    let k := (binade q / 2)%Z in
    let r := q / pow2 (2 * k) in
    let n := Z.sqrt (Qfloor (r * pow2 106)) in
    let m := ((n + 1) / 2)%Z in
    Qred (inject_Z m * pow2 (k - 52)).


Definition noShadow : Shadow.t := Shadow.mk false "#000000" 10 10 10.
Definition noBorder : Border.t := Border.mk false "#FFFFFF" 4.

Definition sampleNum (vx vy vrot vsize : Q) (f : Fld.num) : Q :=
  match f with
  | Fld.x => vx | Fld.y => vy | Fld.rot => vrot | Fld.size => vsize
  | Fld.fontSize => vsize
  | Fld.opacity | Fld.brightness | Fld.saturation | Fld.contrast => 1
  | _ => 0
  end.

(** An image layer over one base mipmap, its content frame the whole
    mipmap, with a fresh cache. *)
Definition sampleImage (i : string) (vx vy vsize : Q) (flip : bool)
    (base : Canvas.t) : Layer :=
  mkLayer i ImageLayer (sampleNum vx vy 0 vsize) (fun _ => EmptyString)
    (fun f => match f with Fld.flipX => flip | Fld.restored => true | _ => false end)
    noShadow noBorder (Some (Cache.mk None false)) [base]
    (Some (Frame.mk 0 0 (Canvas.width base) (Canvas.height base) false)).

Definition sampleText (i : string) (vx vy vfontSize : Q) (t : string) : Layer :=
  mkLayer i TextLayer (sampleNum vx vy 0 vfontSize)
    (fun f => match f with Fld.text => t | _ => EmptyString end)
    (fun f => match f with Fld.restored => true | _ => false end)
    noShadow noBorder (Some (Cache.mk None false)) [] None.

(** The string with the given UTF-8 bytes; a no-break space (U+00A0)
    followed by an ideographic space (U+3000). *)
Definition utf8 (bytes : list nat) : string :=
  fold_right (fun b s => String (ascii_of_nat b) s) EmptyString bytes.
Definition wideSpaces : string := utf8 [194; 160; 227; 128; 128]%nat.

(** A 100 by 100 raster, opaque everywhere. *)
Definition opaqueRaster : Canvas.t := Canvas.mk 100 100 (fun _ _ => 255%Z).
(** A 100 by 100 raster whose left half is opaque and right half clear. *)
Definition leftHalfRaster : Canvas.t :=
  Canvas.mk 100 100 (fun px _ => if (px <? 50)%Z then 255%Z else 0%Z).

(** The state of a cleared project, before any background is set. *)
Definition emptyApp : App :=
  mkApp (mkCanvasState [] None "none" None 1 1 (Some 0%Z) false None)
    None initialView initialView 0 0 (Bitmap.mk 0 0) (Bitmap.mk 0 0) (Bitmap.mk 0 0).

(** A 3000 by 1000 background, wider than the canvas width cap. *)
Definition wideBackground : Image := mkImage 3000 1000 "0, 0, 0".

(** An 800 by 600 background, within the canvas width cap. *)
Definition smallBackground : Image := mkImage 800 600 "0, 0, 0".

(** The application after a first background has been set. *)
Definition appWithBackground (element : Image) : App :=
  setBackground (platform := refPlatform) element (Some "bg"%string) false emptyApp.

(** A canvas state with two image layers, "a" above "b". *)
Definition twoLayerState : CanvasState :=
  mkCanvasState
    [sampleImage "a" 100 100 100 false opaqueRaster;
     sampleImage "b" 300 200 50 false opaqueRaster]
    (Some smallBackground) "image" (Some "bg"%string) 1 1 (Some 0%Z) false None.

(** An image layer whose base mipmap is 0 by 0. *)
Definition emptyRaster : Canvas.t := Canvas.mk 0 0 (fun _ _ => 0%Z).
Definition zeroMipmapLayer : Layer := sampleImage "z" 100 100 100 false emptyRaster.

(** A layer with a drop shadow of blur 10 and no offset. *)
Definition blurShadow : Shadow.t := Shadow.mk true "#000000" 10 0 0.
Definition shadowedData : LayerData := mkLayerData ImageLayer blurShadow noBorder 100 100.
Definition shadowedLayer : Layer :=
  setShadow blurShadow (sampleImage "s" 100 100 100 false opaqueRaster).

(** Three stacked layers, "top" above "mid" above "low". *)
Definition threeLayers : list Layer :=
  [sampleImage "top" 100 100 100 false opaqueRaster;
   sampleText "mid" 120 100 20 "hello";
   sampleImage "low" 140 100 100 false leftHalfRaster].

(** A mirrored image layer "A", opaque on the left half of its raster, over
    an opaque layer "B" at the same place; and a click 25 pixels right of
    their centre, where the mirrored "A" shows its opaque half. *)
Definition flippedOverOpaque : list Layer :=
  [sampleImage "A" 100 100 100 true leftHalfRaster;
   sampleImage "B" 100 100 100 false opaqueRaster].
Definition clickRightOfCentre : Point := mkPoint 125 100.



(** An image layer 100 wide and high at (10, 590) of an 800 by 600 canvas,
    hanging over the left and the bottom edge, with the proportional fields
    the pointer-up handler gives it there. *)
Definition edgeLayer : Layer :=
  let l := sampleImage "edge" 10 590 100 false opaqueRaster in
  spread (handleMovieInteractionEnd_payload (platform := refPlatform) 800 600 l) l.


(** An 80 by 60 photo drawn 80 wide at (100, 100), so that its corners are
    at (60, 70) and (140, 130), over a line of text. *)
Definition photo : Layer :=
  sampleImage "photo" 100 100 80 false (Canvas.mk 80 60 (fun _ _ => 255%Z)).
Definition caption : Layer := sampleText "caption" 120 100 20 "hello".
Definition photoState : CanvasState :=
  mkCanvasState [photo; caption] (Some smallBackground) "image" (Some "bg"%string)
    1 1 (Some 0%Z) false None.

(** The project of [photoState] with the layer of id [activeId] selected. *)
Definition photoApp (activeId : string) : App :=
  mkApp photoState (Some activeId) initialView initialView 800 600
    (Bitmap.mk 800 600) (Bitmap.mk 800 600) (Bitmap.mk 800 600).

(** ** The layer stack and the selection *)

(** [activeLayerId] is [null] or the id of a layer of the project. *)
Definition activeLayerExists (app : App) : bool :=
  match activeLayerId app with
  | None => true
  | Some i => existsb (fun l => String.eqb (id l) i) (layers (canvasState app))
  end.

(** The layer whose cache an action marks invalid: the property, shadow and
    border edits (previewed or final), the refit, the optimisation result
    and the explicit invalidation. *)
Definition invalidatesCacheOf (action : Action) : option string :=
  match action with
  | LAYER_PROPERTY_PREVIEW_CHANGED layerId _
  | LAYER_PROPERTY_CHANGED layerId _
  | LAYER_SHADOW_PREVIEW_CHANGED layerId _
  | LAYER_SHADOW_CHANGED layerId _
  | LAYER_BORDER_PREVIEW_CHANGED layerId _
  | LAYER_BORDER_CHANGED layerId _
  | LAYER_REFIT_AND_TRANSFORM layerId _
  | LAYER_OPTIMIZATION_COMPLETE layerId _ _ _
  | INVALIDATE_LAYER_CACHE layerId => Some layerId
  | _ => None
  end.

(** A property object without a [cache] entry. *)
Definition noCacheProp (props : list LayerProp) : bool :=
  forallb (fun p => match p with PCache _ => false | _ => true end) props.

(** Three layers "a", "b", "c", top to bottom, and an application showing
    them with "b" selected. *)
Definition stackABC : list Layer :=
  [sampleImage "a" 100 100 100 false opaqueRaster;
   sampleText "b" 120 100 20 "hello";
   sampleImage "c" 140 100 100 false leftHalfRaster].

Definition appABC : App :=
  mkApp (mkCanvasState stackABC (Some smallBackground) "image" (Some "bg"%string)
           1 1 (Some 0%Z) false None)
    (Some "b"%string) initialView initialView 800 600
    (Bitmap.mk 800 600) (Bitmap.mk 800 600) (Bitmap.mk 800 600).


(** The shift [setBackground] applies along one axis to a bounding box
    from [lo] to [hi] on a canvas from 0 to [limit]. *)
Definition shiftInto (lo hi limit : Q) : Q :=
  if Qltb lo 0 then - lo
  else if Qgtb hi limit then limit - hi
  else 0.

(** ** Content bounds of a raster ([calculateContentBounds]) *)

Definition ALPHA_THRESHOLD : Z := 1.

(** [minX], [minY], [maxX], [maxY] of the scan. *)
Record Extent : Type := mkExtent { minX : Z; minY : Z; maxX : Z; maxY : Z }.

(** The body of the inner loop at the pixel [(x, y)]. *)
Definition scanPixel (alpha : Z -> Z -> Z) (e : Extent) (y x : Z) : Extent :=
  if (alpha x y >? ALPHA_THRESHOLD)%Z then
    mkExtent (if (x <? minX e)%Z then x else minX e)
             (if (y <? minY e)%Z then y else minY e)
             (if (x >? maxX e)%Z then x else maxX e)
             (if (y >? maxY e)%Z then y else maxY e)
  else e.

(** The values [0, 1, ..., n - 1] that [for (let i = 0; i < n; i++)] gives
    to [i]. *)
Definition upto (n : Z) : list Z := map Z.of_nat (seq 0 (Z.to_nat n)).

(** The inner loop over [x] for one [y], and the outer loop over [y]. *)
Definition scanRow (alpha : Z -> Z -> Z) (width : Z) (e : Extent) (y : Z) : Extent :=
  fold_left (fun e x => scanPixel alpha e y x) (upto width) e.

Definition scanRows (alpha : Z -> Z -> Z) (width height : Z) (e : Extent) : Extent :=
  fold_left (scanRow alpha width) (upto height) e.

(** The extent when the two loops end.  The loop variables are integers,
    so [x < canvas.width] is [x < ceiling(canvas.width)]; the same bound
    stands for the initial [minX] and [minY], which are only ever compared
    with the loop variables. *)
Definition contentExtent (canvas : Canvas.t) : Extent :=
  let width := Qceiling (Canvas.width canvas) in
  let height := Qceiling (Canvas.height canvas) in
  scanRows (Canvas.alpha canvas) width height (mkExtent width height (-1) (-1)).

(** What [calculateContentBounds] returns once [getImageData] has given
    it the pixels. *)
Definition scanContentBounds (canvas : Canvas.t) : Frame.t :=
  let e := contentExtent canvas in
  if (maxX e =? -1)%Z then
    Frame.mk 0 0 (Canvas.width canvas) (Canvas.height canvas) true
  else
    Frame.mk (inject_Z (minX e)) (inject_Z (minY e))
      (inject_Z (maxX e - minX e + 1)) (inject_Z (maxY e - minY e + 1)) false.

(** [ctx.getImageData(0, 0, canvas.width, canvas.height)] throws an
    [IndexSizeError] when the width or the height is 0, and the function
    does not catch it. *)
Definition calculateContentBounds (canvas : Canvas.t) : Outcome Frame.t :=
  if (Qeq_bool (Canvas.width canvas) 0 || Qeq_bool (Canvas.height canvas) 0)%bool
  then Thrown "IndexSizeError"
  else Returned (scanContentBounds canvas).

(** A pixel of the raster that the scan counts as content. *)
Definition isContent (canvas : Canvas.t) (x y : Z) : Prop :=
  (0 <= x < Qceiling (Canvas.width canvas))%Z
  /\ (0 <= y < Qceiling (Canvas.height canvas))%Z
  /\ (Canvas.alpha canvas x y > ALPHA_THRESHOLD)%Z.

(** A 6 by 4 raster whose content is the rectangle from (2, 1) to (4, 2). *)
Definition framedRaster : Canvas.t :=
  Canvas.mk 6 4
    (fun x y => if ((2 <=? x) && (x <=? 4) && (1 <=? y) && (y <=? 2))%Z%bool
                then 255%Z else 0%Z).

(** ** The eraser's coordinate mapping and the crop after background removal *)

(** [(proxyX, proxyY)] of [applyBrushToLayer]: the coordinates, on the base
    mipmap, of the pixel of an image layer under the world point
    [canvasPoint].  [None] where the function returns at once. *)
Definition applyBrushToLayer_proxy `{platform : Platform} (layer : Layer)
    (canvasPoint : Point) : option Point :=
  match ltype layer, mipmaps layer with
  | ImageLayer, baseProxy :: _ =>
      let dx := px canvasPoint - x layer in
      let dy := py canvasPoint - y layer in
      let angle := - rot layer * Math_PI / 180 in
      let localX := dx * Math_cos angle - dy * Math_sin angle in
      let localY := dx * Math_sin angle + dy * Math_cos angle in
      let finalLocalX := if flipX layer then - localX else localX in
      let assetWidth := Canvas.width baseProxy in
      let assetHeight := Canvas.height baseProxy in
      let layerRenderWidth := size layer in
      let layerRenderHeight := size layer * (assetHeight / assetWidth) in
      let scaleFactor := assetWidth / layerRenderWidth in
      let proxyX := (finalLocalX + layerRenderWidth / 2) * scaleFactor in
      let proxyY := (localY + layerRenderHeight / 2) * scaleFactor in
      Some (mkPoint proxyX proxyY)
  | _, _ => None
  end.

(** The payload of the [LAYER_TRANSFORMED] action that
    [runU2NetOnImageLayer] dispatches, or what the function throws instead
    of dispatching.  [tempCanvas] is the masked copy of the base mipmap,
    which has the size of the base mipmap; [newMipmaps] is what
    [generateMipmaps] builds from the cropped canvas.  Copying a base
    mipmap without width or height with [drawImage] throws an
    [InvalidStateError], before the content bounds are asked for. *)
Definition runU2NetOnImageLayer_payload `{platform : Platform} (layer : Layer)
    (tempCanvas : Canvas.t) (newMipmaps : list Canvas.t)
    (canvasWidth canvasHeight : Q) : Outcome (list LayerProp) :=
  if (Qeq_bool (Canvas.width tempCanvas) 0 || Qeq_bool (Canvas.height tempCanvas) 0)%bool
  then Thrown "InvalidStateError"
  else
  match calculateContentBounds tempCanvas with
  | Thrown message => Thrown message
  | Returned newBounds =>
  let croppedWidth := if Frame.isEmpty newBounds then 1 else Frame.width newBounds in
  let croppedHeight := if Frame.isEmpty newBounds then 1 else Frame.height newBounds in
  let oldCenter := mkPoint (Canvas.width tempCanvas / 2) (Canvas.height tempCanvas / 2) in
  let newContentCenter :=
    mkPoint (Frame.x newBounds + Frame.width newBounds / 2)
            (Frame.y newBounds + Frame.height newBounds / 2) in
  let shiftInLocalSpace :=
    mkPoint (px newContentCenter - px oldCenter) (py newContentCenter - py oldCenter) in
  let scale := size layer / Canvas.width tempCanvas in
  let angle := rot layer * Math_PI / 180 in
  let rotatedShift :=
    mkPoint (px shiftInLocalSpace * Math_cos angle - py shiftInLocalSpace * Math_sin angle)
            (px shiftInLocalSpace * Math_sin angle + py shiftInLocalSpace * Math_cos angle) in
  let newX := x layer + px rotatedShift * scale in
  let newY := y layer + py rotatedShift * scale in
  let newSize := size layer * (croppedWidth / Canvas.width tempCanvas) in
  let masterDim := Math_sqrt (canvasWidth * canvasHeight) in
  Returned
  [PNum Fld.x newX;
   PNum Fld.y newY;
   PNum Fld.size newSize;
   PMipmaps newMipmaps;
   PContentFrame (Some (Frame.mk 0 0 croppedWidth croppedHeight (Frame.isEmpty newBounds)));
   PCache (Some (Cache.mk None false));
   PNum Fld.propX (newX / canvasWidth);
   PNum Fld.propY (newY / canvasHeight);
   PNum Fld.propSize (newSize / masterDim);
   PStr Fld.alignX "center";
   PStr Fld.alignY "middle"]
  end.

(** A platform that turns by the angle whose cosine is 3/5 and sine 4/5
    for every positive argument, and back for every negative one. *)
Definition pythagoreanPlatform : Platform :=
  Build_Platform (355 # 113)
    (fun a => if Qeq_bool a 0 then 1 else 3 # 5)
    (fun a => if Qeq_bool a 0 then 0 else if Qltb a 0 then - (4 # 5) else 4 # 5)
    approxSqrt (fun a b => approxSqrt (a * a + b * b)) monoMeasure.

(** The 6 by 4 framed raster as the base mipmap of a layer turned by 30
    degrees, and the base mipmap cropped to its content. *)
Definition framedLayer : Layer :=
  setNum Fld.rot 30 (sampleImage "framed" 100 100 60 false framedRaster).
Definition croppedRaster : Canvas.t :=
  Canvas.mk 3 2 (fun x y => Canvas.alpha framedRaster (x + 2) (y + 1)).

(** ** The view: animation, wheel, pan and pointer coordinates *)

Definition smoothingFactor : Q := 3 # 10.
Definition epsilon : Q := 1 # 1000.

(** One animation frame: [(viewState, isAnimatingView)] when
    [_updateViewAnimation] returns; a frame that leaves [isAnimatingView]
    set has requested the next one. *)
Definition _updateViewAnimation (isAnimatingView : bool)
    (viewState targetViewState : ViewState) : ViewState * bool :=
  if negb isAnimatingView then (viewState, false)
  else
    let scale' :=
      scale viewState + (scale targetViewState - scale viewState) * smoothingFactor in
    let panX' :=
      px (pan viewState)
      + (px (pan targetViewState) - px (pan viewState)) * smoothingFactor in
    let panY' :=
      py (pan viewState)
      + (py (pan targetViewState) - py (pan viewState)) * smoothingFactor in
    let isScaleClose := Qltb (Math_abs (scale' - scale targetViewState)) epsilon in
    let isPanXClose := Qltb (Math_abs (panX' - px (pan targetViewState))) epsilon in
    let isPanYClose := Qltb (Math_abs (panY' - py (pan targetViewState))) epsilon in
    if (isScaleClose && isPanXClose && isPanYClose)%bool
    then (mkViewState (scale targetViewState)
            (mkPoint (px (pan targetViewState)) (py (pan targetViewState))), false)
    else (mkViewState scale' (mkPoint panX' panY'), true).

(** [n] animation frames from the moment [_requestViewAnimation] starts
    the animation, the target staying where it is. *)
Fixpoint animationFrames (n : nat) (st : ViewState * bool)
    (targetViewState : ViewState) : ViewState * bool :=
  match n with
  | O => st
  | S n' =>
      animationFrames n' (_updateViewAnimation (snd st) (fst st) targetViewState)
        targetViewState
  end.

(** A number of frames after which the animation from [viewState] has
    stopped. *)
Definition framesToSettle (viewState targetViewState : ViewState) : nat :=
  let err (a b : Q) := Z.to_nat (Qceiling (7 * Qabs (a - b) / epsilon)) in
  S (err (scale viewState) (scale targetViewState)
     + err (px (pan viewState)) (px (pan targetViewState))
     + err (py (pan viewState)) (py (pan targetViewState))).

Definition OVERVIEW_SCALE : Q := 1 # 2.

Record WheelEvent : Type := mkWheelEvent {
  ctrlKey : bool; deltaX : Q; deltaY : Q; deltaMode : Z }.

(** [resetView]: the new target view. *)
Definition resetView : ViewState := mkViewState 1 (mkPoint 0 0).

(** [handleCanvasWheel]: the new target view.  [point] is
    [getMovieCanvasPoint(e)] and [panelCentre] is [getMovieCanvasPoint] of
    the centre of the canvas panel; [Math_pow] is [Math.pow].  The timer
    that calls [resetView] when the scale stops near 1 is a later event. *)
Definition handleCanvasWheel (Math_pow : Q -> Q -> Q) (movieCanvas : Bitmap.t)
    (e : WheelEvent) (point panelCentre : Point) (targetViewState : ViewState)
  : ViewState :=
  let oldScale := scale targetViewState in
  if ctrlKey e then
    let sensitivity := 1 # 100 in
    let delta := - deltaY e * (if (deltaMode e =? 1)%Z then 33 else 1) * sensitivity in
    let newScale := oldScale * Math_pow 2 delta in
    let clampedScale := Math_max OVERVIEW_SCALE (Math_min newScale 5) in
    if Qeq_bool clampedScale oldScale then targetViewState
    else
      let zoomAnchor :=
        if (Qltb (px point) 0 || Qgtb (px point) (Bitmap.width movieCanvas)
            || Qltb (py point) 0 || Qgtb (py point) (Bitmap.height movieCanvas))%bool
        then panelCentre else point in
      let panX :=
        px zoomAnchor
        - (px zoomAnchor - px (pan targetViewState)) * (clampedScale / oldScale) in
      let panY :=
        py zoomAnchor
        - (py zoomAnchor - py (pan targetViewState)) * (clampedScale / oldScale) in
      let constrainedPan := _constrainPan (Some movieCanvas) panX panY clampedScale in
      mkViewState clampedScale (mkPoint (px constrainedPan) (py constrainedPan))
  else
    if Qleb (scale targetViewState) 1 then targetViewState
    else
      let panSensitivity := 24 # 10 in
      let newPanX := px (pan targetViewState) - deltaX e * panSensitivity in
      let newPanY := py (pan targetViewState) - deltaY e * panSensitivity in
      let constrainedPan :=
        _constrainPan (Some movieCanvas) newPanX newPanY (scale targetViewState) in
      mkViewState (scale targetViewState)
        (mkPoint (px constrainedPan) (py constrainedPan)).

(** The pan branch of [handleMovieInteractionMove]: the new target view
    for a pointer movement of [(movementX, movementY)] over a canvas shown
    [rectWidth] wide. *)
Definition handleMovieInteractionMove_pan (movieCanvas : Bitmap.t) (rectWidth : Q)
    (movementX movementY : Q) (targetViewState : ViewState) : ViewState :=
  if Qeq_bool rectWidth 0 then targetViewState
  else
    let scaleFactor := Bitmap.width movieCanvas / rectWidth in
    let newPanX := px (pan targetViewState) + movementX * scaleFactor in
    let newPanY := py (pan targetViewState) + movementY * scaleFactor in
    let constrainedPan :=
      _constrainPan (Some movieCanvas) newPanX newPanY (scale targetViewState) in
    mkViewState (scale targetViewState)
      (mkPoint (px constrainedPan) (py constrainedPan)).

(** The target view is within the zoom limits and its pan is one that
    [_constrainPan] leaves alone. *)
Definition viewConstrained (movieCanvas : Bitmap.t) (v : ViewState) : Prop :=
  OVERVIEW_SCALE <= scale v /\ scale v <= 5
  /\ px (_constrainPan (Some movieCanvas) (px (pan v)) (py (pan v)) (scale v))
     == px (pan v)
  /\ py (_constrainPan (Some movieCanvas) (px (pan v)) (py (pan v)) (scale v))
     == py (pan v).

(** [getBoundingClientRect()] of a canvas. *)
Record ClientRect : Type := mkClientRect {
  rectLeft : Q; rectTop : Q; rectWidth : Q; rectHeight : Q }.

Definition getMovieCanvasPoint (referenceCanvas : Bitmap.t) (rect : ClientRect)
    (viewState : ViewState) (clientX clientY : Q) : Point :=
  if (Qeq_bool (rectWidth rect) 0 || Qeq_bool (rectHeight rect) 0)%bool
  then mkPoint 0 0
  else
    let scaleX := Bitmap.width referenceCanvas / rectWidth rect in
    let scaleY := Bitmap.height referenceCanvas / rectHeight rect in
    let canvasX := (clientX - rectLeft rect) * scaleX in
    let canvasY := (clientY - rectTop rect) * scaleY in
    let worldX := (canvasX - px (pan viewState)) / scale viewState in
    let worldY := (canvasY - py (pan viewState)) / scale viewState in
    mkPoint worldX worldY.

(** Where [drawFrame] paints a world point on the canvas: the context is
    translated by the pan and then scaled. *)
Definition drawFrame_transform (viewState : ViewState) (world : Point) : Point :=
  mkPoint (px (pan viewState) + scale viewState * px world)
          (py (pan viewState) + scale viewState * py world).

(** ** The exported image ([downloadImage]) *)

Definition MAX_EXPORT_DIMENSION : Q := 4096.

(** [(exportWidth, exportHeight)] before [Math.round].  A height of 0
    under a width above the limit makes [aspectRatio] infinite: it is then
    at least 1, and 4096 divided by it is 0. *)
Definition exportDimensions (cs : CanvasState) (bgImage : Image) : Q * Q :=
  let sourceWidth := inject_Z (naturalWidth bgImage) in
  let sourceHeight := inject_Z (naturalHeight bgImage) in
  let finalWidth := if isTilted cs then sourceHeight else sourceWidth in
  let finalHeight := if isTilted cs then sourceWidth else sourceHeight in
  if (Qgtb finalWidth MAX_EXPORT_DIMENSION || Qgtb finalHeight MAX_EXPORT_DIMENSION)%bool
  then
    if Qeq_bool finalHeight 0 then (MAX_EXPORT_DIMENSION, 0)
    else
      let aspectRatio := fdiv finalWidth finalHeight in
      if Qgeb aspectRatio 1 then
        (MAX_EXPORT_DIMENSION, fdiv MAX_EXPORT_DIMENSION aspectRatio)
      else
        (fmul MAX_EXPORT_DIMENSION aspectRatio, MAX_EXPORT_DIMENSION)
  else (finalWidth, finalHeight).

(** The size of the canvas [downloadImage] renders to. *)
Definition exportCanvas (cs : CanvasState) (bgImage : Image) : Bitmap.t :=
  let '(exportWidth, exportHeight) := exportDimensions cs bgImage in
  Bitmap.mk (Math_round exportWidth) (Math_round exportHeight).

(** The scale at which [downloadImage] draws the layers. *)
Definition exportScaleFactor (cs : CanvasState) (bgImage : Image)
    (movieCanvas : Bitmap.t) : Q :=
  fst (exportDimensions cs bgImage) / Bitmap.width movieCanvas.

(** ** The WebGL renderer's matrices (webglRenderer.js) *)

(** A 3 by 3 matrix as the array of nine numbers the renderer passes to
    [uniformMatrix3fv]: [e0] ... [e8] are its elements [0] ... [8]. *)
Record Mat3 : Type := mkMat3 {
  e0 : Q; e1 : Q; e2 : Q; e3 : Q; e4 : Q; e5 : Q; e6 : Q; e7 : Q; e8 : Q }.

Definition _createMatrix : Mat3 := mkMat3 1 0 0 0 1 0 0 0 1.
Definition _projection (width height : Q) : Mat3 :=
  mkMat3 (2 / width) 0 0 0 (- (2) / height) 0 (-1) 1 1.
Definition _translation (tx ty : Q) : Mat3 := mkMat3 1 0 0 0 1 0 tx ty 1.
Definition _rotation `{platform : Platform} (angle : Q) : Mat3 :=
  let c := Math_cos angle in
  let s := Math_sin angle in
  mkMat3 c (- s) 0 s c 0 0 0 1.
Definition _scaling (sx sy : Q) : Mat3 := mkMat3 sx 0 0 0 sy 0 0 0 1.

Definition _matrixMultiply (a b : Mat3) : Mat3 :=
  let a00 := e0 a in let a01 := e1 a in let a02 := e2 a in
  let a10 := e3 a in let a11 := e4 a in let a12 := e5 a in
  let a20 := e6 a in let a21 := e7 a in let a22 := e8 a in
  let b00 := e0 b in let b01 := e1 b in let b02 := e2 b in
  let b10 := e3 b in let b11 := e4 b in let b12 := e5 b in
  let b20 := e6 b in let b21 := e7 b in let b22 := e8 b in
  mkMat3
    (b00 * a00 + b01 * a10 + b02 * a20) (b00 * a01 + b01 * a11 + b02 * a21)
    (b00 * a02 + b01 * a12 + b02 * a22)
    (b10 * a00 + b11 * a10 + b12 * a20) (b10 * a01 + b11 * a11 + b12 * a21)
    (b10 * a02 + b11 * a12 + b12 * a22)
    (b20 * a00 + b21 * a10 + b22 * a20) (b20 * a01 + b21 * a11 + b22 * a21)
    (b20 * a02 + b21 * a12 + b22 * a22).

(** What [_drawLayer] reads of its [props]. *)
Record DrawProps : Type := mkDrawProps {
  propsViewState : ViewState;
  propsX : Q; propsY : Q; propsWidth : Q; propsHeight : Q;
  propsRot : Q; propsFlipX : bool }.

(** The matrix [_drawLayer] sends to the GPU for a canvas of the given
    size. *)
Definition _drawLayer_matrix `{platform : Platform} (canvasWidth canvasHeight : Q)
    (props : DrawProps) : Mat3 :=
  let matrix := _createMatrix in
  let matrix := _matrixMultiply matrix (_projection canvasWidth canvasHeight) in
  let matrix :=
    _matrixMultiply matrix
      (_translation (px (pan (propsViewState props))) (py (pan (propsViewState props)))) in
  let matrix :=
    _matrixMultiply matrix
      (_scaling (scale (propsViewState props)) (scale (propsViewState props))) in
  let matrix := _matrixMultiply matrix (_translation (propsX props) (propsY props)) in
  let matrix := _matrixMultiply matrix (_rotation (propsRot props * Math_PI / 180)) in
  let scaleX := if propsFlipX props then - propsWidth props else propsWidth props in
  let scaleY := propsHeight props in
  let matrix := _matrixMultiply matrix (_scaling scaleX scaleY) in
  let matrix := _matrixMultiply matrix (_translation (- (1 # 2)) (- (1 # 2))) in
  matrix.

(** The vertex shader: [(u_matrix * vec3(a_position, 1)).xy], the matrix
    being read column by column. *)
Definition vertexPosition (u_matrix : Mat3) (a_position : Point) : Point :=
  mkPoint (e0 u_matrix * px a_position + e3 u_matrix * py a_position + e6 u_matrix)
          (e1 u_matrix * px a_position + e4 u_matrix * py a_position + e7 u_matrix).

(** Two matrices with equal elements. *)
Definition Mat3_eq (a b : Mat3) : Prop :=
  e0 a == e0 b /\ e1 a == e1 b /\ e2 a == e2 b /\ e3 a == e3 b /\ e4 a == e4 b
  /\ e5 a == e5 b /\ e6 a == e6 b /\ e7 a == e7 b /\ e8 a == e8 b.

(** Clip-space coordinates of a canvas pixel: x from -1 at the left edge
    to 1 at the right, y from 1 at the top to -1 at the bottom. *)
Definition clipOfPixel (canvasWidth canvasHeight : Q) (p : Point) : Point :=
  mkPoint (px p * 2 / canvasWidth - 1) (1 - py p * 2 / canvasHeight).

(** ** Handle hit testing ([getMovieHandleAtPoint]) *)

Definition DESIRED_HIT_RADIUS_ON_SCREEN : Q := 16.
Definition ROTATION_HANDLE_SCREEN_OFFSET : Q := 26.

(** [viewScale] is [viewState.scale] and [rectWidth] the width of the
    movie canvas on the screen.  A [scale] that is not finite comes from
    dividing by the width of an empty canvas, a quotient the model gives
    as 0: both the zero and the non-finite scale answer [null].  The
    corner handles are tried in the order of the keys of the [handles]
    object. *)
Definition getMovieHandleAtPoint `{platform : Platform} (viewScale rectWidth : Q)
    (movieCanvas : Bitmap.t) (point : Point) (layer : Layer) : option HandleName :=
  let scale := viewScale * (rectWidth / Bitmap.width movieCanvas) in
  if Qeq_bool scale 0 then None
  else
    let radius := DESIRED_HIT_RADIUS_ON_SCREEN / scale in
    let '(dWidth, dHeight) := getLayerMetrics layer in
    if (Qeq_bool dWidth 0 || Qeq_bool dHeight 0)%bool then None
    else
      let '(offsetX, offsetY) := frameOffset layer in
      let angle := rot layer * Math_PI / 180 in
      let cos := Math_cos angle in
      let sin := Math_sin angle in
      let rotationHandleOffset := ROTATION_HANDLE_SCREEN_OFFSET / scale in
      let rotHandleLocalX := 0 in
      let rotHandleLocalY := - dHeight / 2 - rotationHandleOffset in
      let rotHandleWorldX :=
        x layer + ((offsetX + rotHandleLocalX) * cos - (offsetY + rotHandleLocalY) * sin) in
      let rotHandleWorldY :=
        y layer + ((offsetX + rotHandleLocalX) * sin + (offsetY + rotHandleLocalY) * cos) in
      if Qltb (Math_hypot (px point - rotHandleWorldX) (py point - rotHandleWorldY)) radius
      then Some rotateHandle
      else
        find
          (fun name =>
             match cornerOf name dWidth dHeight with
             | Some h =>
                 let handleWorldX :=
                   x layer + ((offsetX + px h) * cos - (offsetY + py h) * sin) in
                 let handleWorldY :=
                   y layer + ((offsetX + px h) * sin + (offsetY + py h) * cos) in
                 Qltb (Math_hypot (px point - handleWorldX) (py point - handleWorldY))
                      radius
             | None => false
             end)
          [tl; tr; bl; br].

(** ** The eraser stroke ([applyBrushToLayer]) *)

(** The values [i] takes in [for (let i = 0; i < dist; i += step)], from
    [i] on, where [step] is [Math.max(1, stepBase)]: [radius / 3] when
    erasing, [radius / 2] when restoring. *)
Equations? dabOffsets (dist stepBase i : Q) : list Q
  by wf (Z.to_nat (Qceiling (dist - i))) lt :=
  dabOffsets dist stepBase i with Logic.inspect (Qltb i dist) := {
    | exist _ true _ => i :: dabOffsets dist stepBase (i + Math_max 1 stepBase)
    | exist _ false _ => [] }.
Proof.
  unfold Qltb in e. apply negb_true_iff in e.
  assert (Hlt : i < dist).
  { apply Qnot_le_lt. intro Hle. apply Qle_bool_iff in Hle. congruence. }
  assert (Hs : 1 <= Math_max 1 stepBase) by apply Q.le_max_l.
  set (s := Math_max 1 stepBase) in *.
  pose proof (Qle_ceiling (dist - i)) as Ha.
  pose proof (Qceiling_lt (dist - (i + s))) as Hb.
  unfold Z.sub in Hb. rewrite inject_Z_plus, inject_Z_opp in Hb.
  change (inject_Z 1) with 1 in Hb.
  assert (H1 : (0 < Qceiling (dist - i))%Z).
  { rewrite Zlt_Qlt. change (inject_Z 0) with 0. lra. }
  assert (H2 : (Qceiling (dist - (i + s)) < Qceiling (dist - i))%Z).
  { rewrite Zlt_Qlt. lra. }
  lia.
Qed.

(** The centres of the dabs that one pointer move of an erase stroke
    paints on the base mipmap: the interpolated dabs from the last point
    towards the new one, then the dab at the new point.  [Math_atan2] is
    [Math.atan2]. *)
Definition eraseDabs `{platform : Platform} (Math_atan2 : Q -> Q -> Q)
    (last : option Point) (proxy : Point) (radius : Q) : list Point :=
  match last with
  | Some l =>
      let dist := Math_hypot (px proxy - px l) (py proxy - py l) in
      let angle := Math_atan2 (py proxy - py l) (px proxy - px l) in
      map (fun i => mkPoint (px l + Math_cos angle * i) (py l + Math_sin angle * i))
        (dabOffsets dist (radius / 3) 0)
  | None => []
  end ++ [proxy].

(** ** The asset library's quota (libraryManager.js) *)

(** What [enforceQuota] reads of a record of the [assets] store; an absent
    [full] or [thumb] blob counts for 0 bytes. *)
Record AssetRecord : Type := mkAssetRecord {
  assetId : string;
  fullSize : Z;
  thumbSize : Z;
  isFavorite : bool;
  recCreatedAt : Z
}.

(** [idbDelete(id, 'assets')]: the store without the record of that key. *)
Definition idbDelete (id : string) (store : list AssetRecord) : list AssetRecord :=
  filter (fun r => negb (String.eqb (assetId r) id)) store.

(** [assets.reduce((sum, r) => sum + (r.full?.size || 0) + (r.thumb?.size || 0), 0)] *)
Definition storeBytes (assets : list AssetRecord) : Z :=
  fold_left (fun sum r => (sum + fullSize r + thumbSize r)%Z) assets 0%Z.

(** [sort((a, b) => a.createdAt - b.createdAt)]: oldest first, records of
    the same age in the order they had (the sort is stable). *)
Fixpoint insertByAge (a : AssetRecord) (sorted : list AssetRecord) : list AssetRecord :=
  match sorted with
  | [] => [a]
  | b :: r =>
      if (recCreatedAt a <=? recCreatedAt b)%Z then a :: b :: r
      else b :: insertByAge a r
  end.

Definition sortByAge (l : list AssetRecord) : list AssetRecord :=
  fold_right insertByAge [] l.

(** The [for (const rec of nonFavorites)] loop on the pair of the store
    and [totalBytes]. *)
Fixpoint evictOldest (limitBytes : Z) (nonFavorites : list AssetRecord)
    (st : list AssetRecord * Z) : list AssetRecord * Z :=
  match nonFavorites with
  | [] => st
  | rec :: rest =>
      if (snd st <=? limitBytes)%Z then st
      else
        evictOldest limitBytes rest
          (idbDelete (assetId rec) (fst st),
           (snd st - (fullSize rec + thumbSize rec))%Z)
  end.

(** [enforceQuota(limitBytes)]: the store it leaves. *)
Definition enforceQuota (limitBytes : Z) (store : list AssetRecord)
  : list AssetRecord :=
  let assets := store in
  let totalBytes := storeBytes assets in
  if (totalBytes <=? limitBytes)%Z then store
  else
    let nonFavorites := filter (fun a => negb (isFavorite a)) assets in
    fst (evictOldest limitBytes (sortByAge nonFavorites) (store, totalBytes)).

(** Four assets of 40 bytes each: "old" and "mid" can go, "fav" is a
    favourite, "new" is the newest. *)
Definition sampleStore : list AssetRecord :=
  [mkAssetRecord "new" 30 10 false 400; mkAssetRecord "fav" 30 10 true 100;
   mkAssetRecord "mid" 30 10 false 300; mkAssetRecord "old" 30 10 false 200].

(** ** The transform caches of a gesture ([updateTransformCaches], [drawFrame]) *)

Section TransformCaches.
Context `{platform : Platform}.
(** The 2D contexts, their [drawImage] of a layer's cache, a cleared
    canvas, and [ctx.drawImage(canvas, 0, 0)] of a whole canvas. *)
Variable Surface : Type.
Variable drawImage : Surface -> DrawCmd -> Surface.
Variable blank : Surface.
Variable drawCanvas : Surface -> Surface -> Surface.



End TransformCaches.



(** * Verification *)

(** ** Comparisons and rounding *)

Lemma Qltb_true (a b : Q) : Qltb a b = true <-> a < b.
Proof.
  unfold Qltb. rewrite negb_true_iff.
  destruct (Qle_bool b a) eqn:E.
  - apply Qle_bool_iff in E. split; [discriminate | intro; lra].
  - split; [intros _ | reflexivity].
    destruct (Qlt_le_dec a b) as [Hlt | Hle]; [exact Hlt |].
    apply Qle_bool_iff in Hle. congruence.
Qed.

Lemma Qltb_false (a b : Q) : Qltb a b = false <-> b <= a.
Proof.
  unfold Qltb. rewrite negb_false_iff. apply Qle_bool_iff.
Qed.

Lemma Qgtb_true (a b : Q) : Qgtb a b = true <-> b < a.
Proof. unfold Qgtb. apply Qltb_true. Qed.

Lemma Qgtb_false (a b : Q) : Qgtb a b = false <-> a <= b.
Proof. unfold Qgtb. apply Qltb_false. Qed.

Lemma Qleb_true (a b : Q) : Qleb a b = true <-> a <= b.
Proof. unfold Qleb. apply Qle_bool_iff. Qed.

Lemma Qleb_false (a b : Q) : Qleb a b = false <-> b < a.
Proof.
  unfold Qleb. destruct (Qle_bool a b) eqn:E.
  - apply Qle_bool_iff in E. split; [discriminate | intro; lra].
  - split; [intros _ | reflexivity].
    destruct (Qlt_le_dec b a) as [Hlt | Hle]; [exact Hlt |].
    apply Qle_bool_iff in Hle. congruence.
Qed.

Lemma Qeq_bool_false (a b : Q) : Qeq_bool a b = false <-> ~ a == b.
Proof.
  split.
  - intros E H. apply Qeq_bool_iff in H. congruence.
  - intro H. destruct (Qeq_bool a b) eqn:E; [| reflexivity].
    apply Qeq_bool_iff in E. contradiction.
Qed.

Lemma Math_max_spec (a b : Q) :
  (a <= b /\ Math_max a b == b) \/ (b <= a /\ Math_max a b == a).
Proof. unfold Math_max. destruct (Q.max_spec_le a b); tauto. Qed.

Lemma Math_min_spec (a b : Q) :
  (a <= b /\ Math_min a b == a) \/ (b <= a /\ Math_min a b == b).
Proof. unfold Math_min. destruct (Q.min_spec_le a b); tauto. Qed.

Lemma Math_round_near (a : Q) : a - (1 # 2) < Math_round a /\ Math_round a <= a + (1 # 2).
Proof.
  unfold Math_round.
  pose proof (Qfloor_le (a + (1 # 2))) as Hl. pose proof (Qlt_floor (a + (1 # 2))) as Hu.
  rewrite inject_Z_plus in Hu. change (inject_Z 1) with 1 in Hu.
  split; lra.
Qed.

(** ** Rounding to a double *)


Lemma pow2_pos (e : Z) : 0 < pow2 e.
Proof. unfold pow2. apply Qpower_0_lt. reflexivity. Qed.

Lemma pow2_add (a b : Z) : pow2 (a + b) == pow2 a * pow2 b.
Proof. unfold pow2. apply Qpower_plus. discriminate. Qed.

Lemma pow2_le (a b : Z) : (a <= b)%Z -> pow2 a <= pow2 b.
Proof. intro H. unfold pow2. apply Qpower_le_compat_l; [exact H | discriminate]. Qed.

Lemma pow2_Z (n : Z) : (0 <= n)%Z -> pow2 n == inject_Z (2 ^ n).
Proof. intro H. unfold pow2. rewrite Zpower_Qpower by exact H. reflexivity. Qed.

Lemma pow2_sub (a b : Z) : pow2 (a - b) == pow2 a / pow2 b.
Proof.
  assert (H : pow2 a == pow2 (a - b) * pow2 b).
  { rewrite <- pow2_add. replace (a - b + b)%Z with a by lia. reflexivity. }
  rewrite H. field. pose proof (pow2_pos b). lra.
Qed.

Lemma roundHalfEven_near (q : Q) :
  q - (1 # 2) <= inject_Z (roundHalfEven q) /\ inject_Z (roundHalfEven q) <= q + (1 # 2).
Proof.
  unfold roundHalfEven.
  pose proof (Qfloor_le q) as Hl. pose proof (Qlt_floor q) as Hu.
  rewrite inject_Z_plus in Hu. change (inject_Z 1) with 1 in Hu.
  set (f := Qfloor q) in *.
  destruct (Qltb (q - inject_Z f) (1 # 2)) eqn:A.
  - apply Qltb_true in A. split; lra.
  - apply Qltb_false in A.
    destruct (Qltb (1 # 2) (q - inject_Z f)) eqn:B.
    + rewrite inject_Z_plus. change (inject_Z 1) with 1. split; lra.
    + apply Qltb_false in B.
      destruct (Z.even f).
      * split; lra.
      * rewrite inject_Z_plus. change (inject_Z 1) with 1. split; lra.
Qed.

Lemma roundHalfEven_floor (q : Q) : (Qfloor q <= roundHalfEven q)%Z.
Proof.
  unfold roundHalfEven.
  destruct (Qltb _ _); [lia |]. destruct (Qltb _ _); [lia |].
  destruct (Z.even _); lia.
Qed.

Lemma roundHalfEven_ge (q : Q) (z : Z) : inject_Z z <= q -> (z <= roundHalfEven q)%Z.
Proof.
  intro H. eapply Z.le_trans; [| apply roundHalfEven_floor].
  rewrite <- (Qfloor_Z z). apply Qfloor_resp_le. exact H.
Qed.

Lemma roundHalfEven_integer (q : Q) (z : Z) : q == inject_Z z -> roundHalfEven q = z.
Proof.
  intro E. unfold roundHalfEven.
  assert (F : Qfloor q = z) by (rewrite (Qfloor_comp _ _ E); apply Qfloor_Z).
  rewrite F.
  assert (A : Qltb (q - inject_Z z) (1 # 2) = true)
    by (apply Qltb_true; rewrite E; lra).
  rewrite A. reflexivity.
Qed.

Lemma Qdiv_lt_cross (a b c d : Q) : 0 < b -> 0 < d -> a * d < c * b -> a / b < c / d.
Proof.
  intros Hb Hd H. apply Qlt_shift_div_l; [exact Hd |].
  assert (E : a / b * d == a * d / b) by (field; lra). rewrite E.
  apply Qlt_shift_div_r; [exact Hb | exact H].
Qed.

Lemma Qdiv_le_cross (a b c d : Q) : 0 < b -> 0 < d -> a * d <= c * b -> a / b <= c / d.
Proof.
  intros Hb Hd H. apply Qle_shift_div_l; [exact Hd |].
  assert (E : a / b * d == a * d / b) by (field; lra). rewrite E.
  apply Qle_shift_div_r; [exact Hb | exact H].
Qed.

(** The numerator and denominator against the powers of two around
    them. *)
Lemma log2_bounds (n : Z) :
  (0 < n)%Z ->
  inject_Z (2 ^ Z.log2 n) <= inject_Z n /\ inject_Z n < inject_Z (2 ^ (Z.log2 n + 1)).
Proof.
  intro H. pose proof (Z.log2_spec n H) as [A B].
  rewrite <- Zle_Qle, <- Zlt_Qlt.
  replace (Z.log2 n + 1)%Z with (Z.succ (Z.log2 n)) by lia. split; assumption.
Qed.

Lemma binade_spec (a : Q) :
  ~ a == 0 -> pow2 (binade a) <= Qabs a /\ Qabs a < pow2 (binade a + 1).
Proof.
  intro Ha. unfold binade.
  set (n := Z.abs (Qnum a)). set (d := Zpos (Qden a)).
  assert (Hn : (0 < n)%Z).
  { unfold n. destruct a as [an ad]. simpl.
    assert (an <> 0)%Z; [| lia]. intro E. apply Ha. subst an. reflexivity. }
  assert (Hd : (0 < d)%Z) by (unfold d; lia).
  assert (Eabs : Qabs a == inject_Z n / inject_Z d).
  { unfold n, d. destruct a as [an ad]. simpl.
    unfold Qeq, Qdiv, Qmult, Qinv, inject_Z. simpl. lia. }
  pose proof (log2_bounds n Hn) as [N1 N2].
  pose proof (log2_bounds d Hd) as [D1 D2].
  pose proof (Z.log2_nonneg n) as Ln. pose proof (Z.log2_nonneg d) as Ld.
  rewrite <- pow2_Z in N1, N2, D1, D2 by lia.
  assert (Pd : 0 < inject_Z d) by (change 0 with (inject_Z 0); rewrite <- Zlt_Qlt; lia).
  set (ln := Z.log2 n) in *. set (ld := Z.log2 d) in *.
  pose proof (pow2_pos ln) as P1. pose proof (pow2_pos ld) as P2.
  pose proof (pow2_pos (ln + 1)) as P3. pose proof (pow2_pos (ld + 1)) as P4.
  assert (Pn : 0 < inject_Z n) by (change 0 with (inject_Z 0); rewrite <- Zlt_Qlt; lia).
  assert (Up : Qabs a < pow2 (ln - ld + 1)).
  { rewrite Eabs. replace (ln - ld + 1)%Z with (ln + 1 - ld)%Z by lia.
    rewrite pow2_sub. apply Qdiv_lt_cross; [exact Pd | exact P2 |].
    apply Qlt_le_trans with (pow2 (ln + 1) * pow2 ld).
    - apply Qmult_lt_compat_r; assumption.
    - apply Qmult_le_l; assumption. }
  assert (Lo : pow2 (ln - ld - 1) <= Qabs a).
  { rewrite Eabs. replace (ln - ld - 1)%Z with (ln - (ld + 1))%Z by lia.
    rewrite pow2_sub. apply Qdiv_le_cross; [exact P4 | exact Pd |].
    apply Qle_trans with (inject_Z n * inject_Z d).
    - apply Qmult_le_compat_r; [exact N1 | lra].
    - apply Qmult_le_l; [exact Pn | lra]. }
  destruct (Qle_bool (pow2 (ln - ld)) (Qabs a)) eqn:T.
  - apply Qle_bool_iff in T. split; [exact T | exact Up].
  - split; [exact Lo |].
    replace (ln - ld - 1 + 1)%Z with (ln - ld)%Z by lia.
    apply Qnot_le_lt. intro C. apply Qle_bool_iff in C. congruence.
Qed.

(** What [roundToDouble] gives for a positive number: a 53-bit integer
    [m] times the power of two that puts the number between 2^52 and
    2^53. *)
Lemma roundToDouble_positive (a : Q) :
  0 < a ->
  exists (e m : Z) (q : Q),
    roundToDouble a == inject_Z m * pow2 (e - 52)
    /\ pow2 e <= a /\ a < pow2 (e + 1)
    /\ q == a / pow2 (e - 52)
    /\ m = roundHalfEven q.
Proof.
  intro Ha. unfold roundToDouble.
  pose proof (Qred_correct a) as Er. set (a' := Qred a) in *.
  assert (Ha' : 0 < a') by (rewrite Er; exact Ha).
  assert (N0 : ~ a' == 0) by (intro E; rewrite E in Ha'; lra).
  assert (Z0 : Qeq_bool a' 0 = false) by (apply Qeq_bool_false; exact N0).
  assert (L0 : Qltb a' 0 = false) by (apply Qltb_false; lra).
  rewrite Z0, L0.
  destruct (binade_spec a' N0) as [B1 B2].
  assert (Eabs : Qabs a' == a) by (rewrite Qabs_pos by lra; exact Er).
  rewrite Eabs in B1, B2.
  exists (binade a'), (roundHalfEven (Qabs a' / pow2 (binade a' - 52))),
    (Qabs a' / pow2 (binade a' - 52)).
  split; [rewrite Qred_correct; ring |].
  split; [exact B1 |]. split; [exact B2 |].
  split; [rewrite Eabs; reflexivity | reflexivity].
Qed.

Lemma roundToDouble_zero (a : Q) : a == 0 -> roundToDouble a == 0.
Proof.
  intro E. unfold roundToDouble.
  assert (Z0 : Qeq_bool (Qred a) 0 = true).
  { apply Qeq_bool_iff. rewrite Qred_correct. exact E. }
  rewrite Z0. reflexivity.
Qed.

Lemma roundToDouble_comp (a b : Q) : a == b -> roundToDouble a = roundToDouble b.
Proof. intro E. unfold roundToDouble. rewrite (Qred_complete a b E). reflexivity. Qed.

(** The relative error of one rounding is at most 2^-53. *)
Lemma roundToDouble_error (a : Q) :
  0 <= a ->
  a * (1 - pow2 (-53)) <= roundToDouble a /\ roundToDouble a <= a * (1 + pow2 (-53)).
Proof.
  intro H0.
  destruct (Qlt_le_dec 0 a) as [Ha | Hz].
  - destruct (roundToDouble_positive a Ha) as (e & m & q & E & B1 & B2 & Eq & Em).
    pose proof (roundHalfEven_near q) as [R1 R2]. rewrite <- Em in R1, R2.
    pose proof (pow2_pos (e - 52)) as P.
    assert (Ea : a == q * pow2 (e - 52)) by (rewrite Eq; field; lra).
    assert (Eh : pow2 e * pow2 (-53) == (1 # 2) * pow2 (e - 52)).
    { rewrite <- pow2_add. replace (e + -53)%Z with (e - 52 + -1)%Z by lia.
      rewrite pow2_add. change (pow2 (-1)) with (1 # 2). ring. }
    rewrite E. set (s := pow2 (e - 52)) in *. set (u := pow2 (-53)) in *.
    assert (Hu : 0 < u) by apply pow2_pos.
    assert (Hs : (1 # 2) * s <= a * u).
    { rewrite <- Eh. apply Qmult_le_compat_r; [exact B1 | lra]. }
    assert (M1 : (q - (1 # 2)) * s <= inject_Z m * s)
      by (apply Qmult_le_compat_r; lra).
    assert (M2 : inject_Z m * s <= (q + (1 # 2)) * s)
      by (apply Qmult_le_compat_r; lra).
    assert (X1 : (q - (1 # 2)) * s == a - (1 # 2) * s) by (rewrite Ea; ring).
    assert (X2 : (q + (1 # 2)) * s == a + (1 # 2) * s) by (rewrite Ea; ring).
    rewrite X1 in M1. rewrite X2 in M2.
    split; lra.
  - assert (E : a == 0) by lra.
    rewrite (roundToDouble_zero a E), E. split; ring_simplify; apply Qle_refl.
Qed.

(** Rounding does not cross a power of two: in particular a number from 1
    on is rounded to a number from 1 on. *)
Lemma roundToDouble_ge_one (a : Q) : 1 <= a -> 1 <= roundToDouble a.
Proof.
  intro H1. assert (Ha : 0 < a) by lra.
  destruct (roundToDouble_positive a Ha) as (e & m & q & E & B1 & B2 & Eq & Em).
  assert (He : (0 <= e)%Z).
  { destruct (Z_lt_le_dec e 0) as [C |]; [| assumption].
    assert (pow2 (e + 1) <= pow2 0) by (apply pow2_le; lia).
    change (pow2 0) with 1 in *. lra. }
  pose proof (pow2_pos (e - 52)) as P.
  assert (Hq : inject_Z (2 ^ 52) <= q).
  { rewrite Eq. apply Qle_shift_div_l; [exact P |].
    rewrite <- pow2_Z by lia. rewrite <- pow2_add.
    replace (52 + (e - 52))%Z with e by lia. exact B1. }
  pose proof (roundHalfEven_ge q _ Hq) as Hm. rewrite <- Em in Hm.
  rewrite E.
  apply Qle_trans with (pow2 e).
  - change 1 with (pow2 0). apply pow2_le. exact He.
  - assert (X : pow2 e == inject_Z (2 ^ 52) * pow2 (e - 52)).
    { rewrite <- pow2_Z by lia. rewrite <- pow2_add.
      replace (52 + (e - 52))%Z with e by lia. reflexivity. }
    rewrite X. apply Qmult_le_compat_r; [| lra].
    rewrite <- Zle_Qle. exact Hm.
Qed.

(** The integers below 2^53 are doubles. *)
Lemma roundToDouble_integer (n : Z) :
  (0 <= n < 2 ^ 53)%Z -> roundToDouble (inject_Z n) == inject_Z n.
Proof.
  intros [H0 H1].
  destruct (Z.eq_dec n 0) as [-> | Hn]; [reflexivity |].
  assert (Ha : 0 < inject_Z n).
  { change 0 with (inject_Z 0). rewrite <- Zlt_Qlt. lia. }
  destruct (roundToDouble_positive _ Ha) as (e & m & q & E & B1 & B2 & Eq & Em).
  assert (He : (e <= 52)%Z).
  { destruct (Z_lt_le_dec 52 e) as [C |]; [| assumption].
    assert (pow2 53 <= pow2 e) by (apply pow2_le; lia).
    assert (inject_Z n < inject_Z (2 ^ 53)) by (rewrite <- Zlt_Qlt; exact H1).
    rewrite <- pow2_Z in * by lia. lra. }
  pose proof (pow2_pos (e - 52)) as P.
  assert (Eq' : q == inject_Z (n * 2 ^ (52 - e))).
  { rewrite Eq, inject_Z_mult, <- pow2_Z by lia.
    replace (52 - e)%Z with (- (e - 52))%Z by lia.
    unfold pow2 at 2. rewrite Qpower_opp. fold (pow2 (e - 52)). field. lra. }
  rewrite E, Em, (roundHalfEven_integer q _ Eq'), inject_Z_mult, <- pow2_Z by lia.
  assert (X : pow2 (52 - e) * pow2 (e - 52) == 1).
  { rewrite <- pow2_add. replace (52 - e + (e - 52))%Z with 0%Z by lia. reflexivity. }
  rewrite <- Qmult_assoc, X. ring.
Qed.

(** Two roundings in a row. *)

Lemma Qmult_le_nonneg_l (z x y : Q) : 0 <= z -> x <= y -> z * x <= z * y.
Proof.
  intros Hz H. rewrite (Qmult_comm z x), (Qmult_comm z y).
  apply Qmult_le_compat_r; assumption.
Qed.

Lemma pow2_m53 : pow2 (-53) == 1 # 9007199254740992.
Proof. reflexivity. Qed.

Lemma fdiv_error (a b : Q) :
  0 <= a -> 0 < b ->
  a / b * (1 - pow2 (-53)) <= fdiv a b /\ fdiv a b <= a / b * (1 + pow2 (-53)).
Proof.
  intros Ha Hb. apply roundToDouble_error.
  apply Qle_shift_div_l; [exact Hb | lra].
Qed.

Lemma fmul_error (a b : Q) :
  0 <= a -> 0 <= b ->
  a * b * (1 - pow2 (-53)) <= fmul a b /\ fmul a b <= a * b * (1 + pow2 (-53)).
Proof.
  intros Ha Hb. apply roundToDouble_error. apply Qmult_le_0_compat; assumption.
Qed.

(** A quotient by a rounded number, rounded: within three units of
    relative error 2^-53 of the exact quotient. *)
Lemma fdiv_rounded_divisor (c a a' : Q) :
  0 <= c -> 0 < a ->
  a * (1 - pow2 (-53)) <= a' -> a' <= a * (1 + pow2 (-53)) ->
  c / a * (1 - 3 * pow2 (-53)) <= fdiv c a'
  /\ fdiv c a' <= c / a * (1 + 3 * pow2 (-53)).
Proof.
  intros Hc Ha L U. rewrite pow2_m53 in *.
  assert (Ha' : 0 < a') by (eapply Qlt_le_trans; [| exact L]; nra).
  destruct (fdiv_error c a' Hc Ha') as [F1 F2]. rewrite pow2_m53 in F1, F2.
  set (t := c / a') in *. set (e := c / a).
  assert (Et : t * a' == c) by (unfold t; field; lra).
  assert (Ee : e * a == c) by (unfold e; field; lra).
  assert (Ht : 0 <= t) by (unfold t; apply Qle_shift_div_l; lra).
  assert (He : 0 <= e) by (unfold e; apply Qle_shift_div_l; lra).
  clearbody t e.
  assert (T1 : t * (1 - (1 # 9007199254740992)) <= e).
  { apply Qmult_lt_0_le_reg_r with a; [exact Ha |].
    rewrite Ee, <- Et.
    assert (X : t * (1 - (1 # 9007199254740992)) * a
                == t * (a * (1 - (1 # 9007199254740992)))) by ring.
    rewrite X. apply Qmult_le_nonneg_l; [exact Ht | exact L]. }
  assert (T2 : e <= t * (1 + (1 # 9007199254740992))).
  { apply Qmult_lt_0_le_reg_r with a; [exact Ha |].
    rewrite Ee, <- Et.
    assert (X : t * (1 + (1 # 9007199254740992)) * a
                == t * (a * (1 + (1 # 9007199254740992)))) by ring.
    rewrite X. apply Qmult_le_nonneg_l; [exact Ht | exact U]. }
  split; lra.
Qed.

(** A product with a rounded number, rounded. *)
Lemma fmul_rounded_factor (c a a' : Q) :
  0 <= c -> 0 <= a ->
  a * (1 - pow2 (-53)) <= a' -> a' <= a * (1 + pow2 (-53)) ->
  c * a * (1 - 3 * pow2 (-53)) <= fmul c a'
  /\ fmul c a' <= c * a * (1 + 3 * pow2 (-53)).
Proof.
  intros Hc Ha L U. rewrite pow2_m53 in *.
  assert (Ha' : 0 <= a') by (eapply Qle_trans; [| exact L]; nra).
  destruct (fmul_error c a' Hc Ha') as [F1 F2]. rewrite pow2_m53 in F1, F2.
  assert (P1 : c * (a * (1 - (1 # 9007199254740992))) <= c * a')
    by (apply Qmult_le_nonneg_l; assumption).
  assert (P2 : c * a' <= c * (a * (1 + (1 # 9007199254740992))))
    by (apply Qmult_le_nonneg_l; assumption).
  assert (Hca : 0 <= c * a) by (apply Qmult_le_0_compat; assumption).
  set (t := c * a') in *. set (e := c * a) in *.
  assert (X1 : c * (a * (1 - (1 # 9007199254740992)))
               == e * (1 - (1 # 9007199254740992))) by (unfold e; ring).
  assert (X2 : c * (a * (1 + (1 # 9007199254740992)))
               == e * (1 + (1 # 9007199254740992))) by (unfold e; ring).
  rewrite X1 in P1. rewrite X2 in P2. clearbody t e.
  split; lra.
Qed.

(** *** The square root of doubles *)

Lemma binade_unique (a : Q) (c : Z) :
  pow2 c <= Qabs a -> Qabs a < pow2 (c + 1) -> binade a = c.
Proof.
  intros Hlo Hhi.
  assert (Ha : ~ a == 0).
  { intro E. rewrite E in Hlo. pose proof (pow2_pos c) as P.
    change (Qabs 0) with 0 in Hlo. lra. }
  destruct (binade_spec a Ha) as [Blo Bhi].
  destruct (Z.lt_trichotomy (binade a) c) as [Hlt | [Heq | Hgt]].
  - pose proof (pow2_le (binade a + 1) c ltac:(lia)) as P. lra.
  - exact Heq.
  - pose proof (pow2_le (c + 1) (binade a) ltac:(lia)) as P. lra.
Qed.

Lemma binade_times4 (q : Q) : 0 < q -> binade (4 * q) = (binade q + 2)%Z.
Proof.
  intro Hq.
  assert (Ha : ~ q == 0) by lra.
  destruct (binade_spec q Ha) as [Blo Bhi].
  rewrite (Qabs_pos q) in Blo, Bhi by lra.
  assert (E4 : pow2 2 == 4) by reflexivity.
  apply binade_unique; rewrite (Qabs_pos (4 * q)) by lra.
  - rewrite (pow2_add (binade q) 2), E4. lra.
  - replace (binade q + 2 + 1)%Z with ((binade q + 1) + 2)%Z by lia.
    rewrite (pow2_add (binade q + 1) 2), E4. lra.
Qed.

(** Four times the argument, twice the root: the scaling by a power of 4
    leaves the same number to take the root of. *)
Lemma doubleSqrt_times4 (q : Q) : 0 < q -> doubleSqrt (4 * q) == 2 * doubleSqrt q.
Proof.
  intro Hq. unfold doubleSqrt.
  assert (E1 : Qleb (4 * q) 0 = false) by (apply Qleb_false; lra).
  assert (E2 : Qleb q 0 = false) by (apply Qleb_false; exact Hq).
  rewrite E1, E2, (binade_times4 q Hq).
  replace ((binade q + 2) / 2)%Z with (binade q / 2 + 1)%Z
    by (rewrite <- (Z.div_add (binade q) 1 2); [reflexivity | lia]).
  set (k := (binade q / 2)%Z). cbv zeta.
  assert (Er : 4 * q / pow2 (2 * (k + 1)) * pow2 106 == q / pow2 (2 * k) * pow2 106).
  { replace (2 * (k + 1))%Z with (2 * k + 2)%Z by lia.
    rewrite (pow2_add (2 * k) 2).
    assert (E4 : pow2 2 == 4) by reflexivity. rewrite E4.
    pose proof (pow2_pos (2 * k)) as P. field. lra. }
  rewrite (Qfloor_comp _ _ Er).
  set (m := ((Z.sqrt (Qfloor (q / pow2 (2 * k) * pow2 106)) + 1) / 2)%Z).
  rewrite !Qred_correct.
  replace (k + 1 - 52)%Z with ((k - 52) + 1)%Z by lia.
  rewrite (pow2_add (k - 52) 1).
  assert (E2' : pow2 1 == 2) by reflexivity. rewrite E2'. ring.
Qed.

(** ** Pan constraint *)

Lemma constrainPan_below_one (W H panX panY scale : Q) :
  ~ W == 0 -> scale < 1 ->
  let p := _constrainPan (Some (Bitmap.mk W H)) panX panY scale in
  px p == (W - W * scale) / 2 /\ py p == (H - H * scale) / 2.
Proof.
  intros HW Hs. unfold _constrainPan. simpl.
  apply Qeq_bool_false in HW. rewrite HW.
  apply Qltb_true in Hs. rewrite Hs. simpl. split; reflexivity.
Qed.

Lemma clamp_max_min (lo v : Q) :
  lo <= 0 -> Math_max lo (Math_min v 0) == clamp lo 0 v.
Proof.
  intro Hlo. unfold clamp.
  destruct (Math_min_spec v 0) as [[H1 E1] | [H1 E1]];
  destruct (Math_max_spec lo (Math_min v 0)) as [[H2 E2] | [H2 E2]];
  rewrite E2; rewrite ?E1 in *;
  destruct (Qltb v lo) eqn:A; destruct (Qltb 0 v) eqn:B;
  rewrite ?Qltb_true, ?Qltb_false in *; try rewrite E1; lra.
Qed.

Lemma constrainPan_from_one (W H panX panY scale : Q) :
  ~ W == 0 -> 1 <= scale ->
  let p := _constrainPan (Some (Bitmap.mk W H)) panX panY scale in
  px p == Math_max (- (W * scale - W)) (Math_min panX 0)
  /\ py p == Math_max (- (H * scale - H)) (Math_min panY 0).
Proof.
  intros HW Hs. unfold _constrainPan. simpl.
  apply Qeq_bool_false in HW. rewrite HW.
  apply Qltb_false in Hs. rewrite Hs. simpl. split; reflexivity.
Qed.

(** C4 (as amended).  On a canvas of non-zero width [W] and height [H] (both
    non-negative, as canvas dimensions are) the constrained pan is the
    centring offset when [scale < 1], whatever the input pan, and the input
    clamped per axis to [-(dimension*scale - dimension), 0] when
    [scale >= 1]; in the second case it lies in that interval.  Without a
    canvas, or on a canvas of width 0, the constrained pan is (0, 0). *)
Theorem constrainPan_contract (W H panX panY scale : Q) :
  0 < W -> 0 <= H ->
  let p := _constrainPan (Some (Bitmap.mk W H)) panX panY scale in
  panContract W H panX panY scale p
  /\ (1 <= scale ->
        - (W * scale - W) <= px p <= 0 /\ - (H * scale - H) <= py p <= 0)
  /\ _constrainPan None panX panY scale = mkPoint 0 0
  /\ _constrainPan (Some (Bitmap.mk 0 H)) panX panY scale = mkPoint 0 0.
Proof.
  intros HW HH p.
  cut (panContract W H panX panY scale p
       /\ (1 <= scale ->
             - (W * scale - W) <= px p <= 0 /\ - (H * scale - H) <= py p <= 0)).
  { intros [H1 H2]. split; [exact H1 |]. split; [exact H2 |].
    split; reflexivity. }
  assert (HW0 : ~ W == 0) by lra.
  assert (Hclamp : 1 <= scale ->
            px p == clamp (- (W * scale - W)) 0 panX
            /\ py p == clamp (- (H * scale - H)) 0 panY).
  { intro Hs.
    destruct (constrainPan_from_one W H panX panY scale HW0 Hs) as [Ex Ey].
    fold p in Ex, Ey. rewrite Ex, Ey.
    split; apply clamp_max_min; nra. }
  split; [split |].
  - intro Hs. exact (constrainPan_below_one W H panX panY scale HW0 Hs).
  - exact Hclamp.
  - intro Hs. destruct (Hclamp Hs) as [Ex Ey].
    assert (Hx : - (W * scale - W) <= 0) by nra.
    assert (Hy : - (H * scale - H) <= 0) by nra.
    rewrite Ex, Ey. unfold clamp.
    destruct (Qltb panX (- (W * scale - W))) eqn:A;
    destruct (Qltb 0 panX) eqn:B;
    destruct (Qltb panY (- (H * scale - H))) eqn:C;
    destruct (Qltb 0 panY) eqn:D;
    rewrite ?Qltb_true, ?Qltb_false in *; lra.
Qed.

Lemma constrainPan_contract_witness :
  (let p := _constrainPan (Some (Bitmap.mk 1000 800)) (-1500) 40 2 in
   px p == -1000 /\ py p == 0 /\ -1000 <= px p <= 0)
  /\ (let p := _constrainPan (Some (Bitmap.mk 1000 800)) (-1500) 40 (1 # 2) in
      px p == 250 /\ py p == 200).
Proof.
  split.
  - destruct (constrainPan_contract 1000 800 (-1500) 40 2) as ([_ Hc] & Hb & _);
      [reflexivity | discriminate |].
    destruct (Hc ltac:(discriminate)) as [Hx Hy].
    destruct (Hb ltac:(discriminate)) as [Hbx _].
    cbv zeta. split; [rewrite Hx; reflexivity |].
    split; [rewrite Hy; reflexivity | exact Hbx].
  - destruct (constrainPan_contract 1000 800 (-1500) 40 (1 # 2)) as ([Hc _] & _);
      [reflexivity | discriminate |].
    destruct (Hc ltac:(reflexivity)) as [Hx Hy].
    cbv zeta. split; [rewrite Hx | rewrite Hy]; reflexivity.
Defined.

(** C4, the claim as stated, fails on a canvas of zero width: the guard of
    [_constrainPan] answers (0, 0) there, while the centring offset of an
    800 pixel high canvas at scale 1/2 is 200. *)
Lemma constrainPan_zero_width_counterexample :
  ~ panContract 0 800 0 0 (1 # 2)
      (_constrainPan (Some (Bitmap.mk 0 800)) 0 0 (1 # 2)).
Proof.
  unfold panContract. intros [Hc _].
  destruct Hc as [_ Hy]; [reflexivity |].
  vm_compute in Hy. discriminate.
Qed.

(** ** Project rotation *)

Lemma Math_round_inject_Z (z : Z) : Math_round (inject_Z z) = inject_Z z.
Proof.
  unfold Math_round. f_equal.
  unfold Qfloor, Qplus, inject_Z. simpl.
  replace (z * 2 + 1)%Z with (1 + z * 2)%Z by lia.
  rewrite Z.div_add by lia. reflexivity.
Qed.

Lemma projectRotated_step (cs : CanvasState) :
  projectRotation (canvasStateReducer cs PROJECT_ROTATED)
  = Some (Z.rem (rotationOr0 cs + 90) 360).
Proof. reflexivity. Qed.

Lemma rotateTimes_S (n : nat) (cs : CanvasState) :
  rotateTimes (S n) cs = canvasStateReducer (rotateTimes n cs) PROJECT_ROTATED.
Proof. reflexivity. Qed.

Lemma quarter_turn (r : Z) :
  (0 <= r < 360)%Z ->
  Z.rem (r + 90) 360 = (if (r <? 270)%Z then r + 90 else r - 270)%Z.
Proof.
  intro Hr. rewrite Z.rem_mod_nonneg by lia.
  destruct (r <? 270)%Z eqn:E.
  - apply Z.ltb_lt in E. apply Z.mod_small. lia.
  - apply Z.ltb_ge in E.
    replace (r + 90)%Z with (r - 270 + 1 * 360)%Z by lia.
    rewrite Z.mod_add by lia. apply Z.mod_small. lia.
Qed.

Lemma quarter_turn_range (r : Z) :
  (0 <= r < 360)%Z -> (0 <= Z.rem (r + 90) 360 < 360)%Z.
Proof.
  intro Hr. rewrite quarter_turn by exact Hr.
  destruct (r <? 270)%Z eqn:E;
    [apply Z.ltb_lt in E | apply Z.ltb_ge in E]; lia.
Qed.

Lemma four_quarter_turns (r : Z) :
  (0 <= r < 360)%Z ->
  Z.rem (Z.rem (Z.rem (Z.rem (r + 90) 360 + 90) 360 + 90) 360 + 90) 360 = r.
Proof.
  intro Hr.
  pose proof (quarter_turn_range r Hr) as H1.
  pose proof (quarter_turn_range _ H1) as H2.
  pose proof (quarter_turn_range _ H2) as H3.
  rewrite (quarter_turn _ H3), (quarter_turn _ H2), (quarter_turn _ H1),
    (quarter_turn _ Hr).
  repeat match goal with
         | |- context [(?a <? ?b)%Z] =>
             let E := fresh "E" in
             destruct (a <? b)%Z eqn:E;
             [apply Z.ltb_lt in E | apply Z.ltb_ge in E]
         end; lia.
Qed.

Lemma rotationOr0_rotateTimes_S (n : nat) (cs : CanvasState) :
  rotationOr0 (rotateTimes (S n) cs)
  = Z.rem (rotationOr0 (rotateTimes n cs) + 90) 360.
Proof. reflexivity. Qed.

Lemma projectRotation_rotateTimes_S (n : nat) (cs : CanvasState) :
  projectRotation (rotateTimes (S n) cs)
  = Some (Z.rem (rotationOr0 (rotateTimes n cs) + 90) 360).
Proof. reflexivity. Qed.

Lemma rotateTimes_four (cs : CanvasState) :
  projectRotation (rotateTimes 4 cs)
  = Some (Z.rem (Z.rem (Z.rem (Z.rem (rotationOr0 cs + 90) 360 + 90) 360 + 90) 360 + 90) 360).
Proof. reflexivity. Qed.

Section RotationProofs.
Context `{platform : Platform}.

Lemma setBackground_restoring_rotation (element : Image) (hash : option string)
    (app : App) :
  projectRotation (canvasState (setBackground element hash true app))
  = projectRotation (canvasState app).
Proof.
  unfold setBackground. cbn [negb andb].
  destruct (masterSize element (isTilted (canvasState app))) as [w h].
  destruct (canvasSize w h) as [cw ch]. reflexivity.
Qed.

Lemma setBackground_restoring_canvas (element : Image) (hash : option string)
    (app : App) :
  let app' := setBackground element hash true app in
  let '(w, h) := masterSize element (isTilted (canvasState app)) in
  masterWidth app' = w /\ masterHeight app' = h
  /\ backgroundCanvas app' = Bitmap.mk (fst (canvasSize w h)) (snd (canvasSize w h)).
Proof.
  unfold setBackground. cbn [negb andb].
  destruct (masterSize element (isTilted (canvasState app))) as [w h].
  destruct (canvasSize w h) as [cw ch]. simpl. auto.
Qed.

Lemma canvasSize_uncapped (w h : Z) :
  (w <= 1920)%Z ->
  canvasSize (inject_Z w) (inject_Z h) = (inject_Z w, inject_Z h).
Proof.
  intro Hw. unfold canvasSize.
  assert (E : Qgtb (inject_Z w) MAX_CANVAS_WIDTH = false).
  { apply Qgtb_false. unfold MAX_CANVAS_WIDTH.
    change 1920 with (inject_Z 1920). rewrite <- Zle_Qle. exact Hw. }
  rewrite E. rewrite !Math_round_inject_Z. reflexivity.
Qed.

(** C8 (as amended).  Each [PROJECT_ROTATED] action sets the rotation to
    (rotation + 90) mod 360; from rotation 0 four actions give 90, 180, 270
    and 0, and from any rotation in 0..359 four actions give the initial
    value back.  [rotateProject] then sizes the canvases from the
    background's natural dimensions, transposed exactly when the resulting
    rotation is 90 or 270, and passes them through the width cap: when
    neither natural dimension exceeds 1920 the background canvas is
    natural-width by natural-height, transposed exactly when the resulting
    rotation is 90 or 270. *)
Theorem projectRotated_cycle_and_canvas (app : App) (element : Image) :
  backgroundElement (canvasState app) = Some element ->
  let cs := canvasState app in
  let app' := rotateProject app in
  let tilted := isTilted (canvasState app') in
  projectRotation (canvasStateReducer cs PROJECT_ROTATED)
    = Some (Z.rem (rotationOr0 cs + 90) 360)
  /\ (rotationOr0 cs = 0%Z ->
        map (fun n => projectRotation (rotateTimes n cs)) [1; 2; 3; 4]%nat
        = [Some 90; Some 180; Some 270; Some 0]%Z)
  /\ (forall r, projectRotation cs = Some r -> (0 <= r < 360)%Z ->
        projectRotation (rotateTimes 4 cs) = Some r)
  /\ projectRotation (canvasState app') = Some (Z.rem (rotationOr0 cs + 90) 360)
  /\ (masterWidth app', masterHeight app') = masterSize element tilted
  /\ backgroundCanvas app'
     = Bitmap.mk (fst (canvasSize (masterWidth app') (masterHeight app')))
                 (snd (canvasSize (masterWidth app') (masterHeight app')))
  /\ ((naturalWidth element <= 1920)%Z -> (naturalHeight element <= 1920)%Z ->
        backgroundCanvas app'
        = if tilted
          then Bitmap.mk (inject_Z (naturalHeight element)) (inject_Z (naturalWidth element))
          else Bitmap.mk (inject_Z (naturalWidth element)) (inject_Z (naturalHeight element))).
Proof.
  intros Hel cs app' tilted.
  assert (Happ' : app' = setBackground element
                           (backgroundHash (canvasState (dispatch PROJECT_ROTATED app)))
                           true (dispatch PROJECT_ROTATED app)).
  { unfold app', rotateProject. rewrite Hel.
    unfold dispatch, rootReducer. simpl. rewrite Hel. reflexivity. }
  assert (Hrot : projectRotation (canvasState app')
                 = Some (Z.rem (rotationOr0 cs + 90) 360)).
  { rewrite Happ', setBackground_restoring_rotation. reflexivity. }
  assert (Htilt : tilted = isTilted (canvasState (dispatch PROJECT_ROTATED app))).
  { unfold tilted, isTilted. rewrite Hrot. reflexivity. }
  pose proof (setBackground_restoring_canvas element
                (backgroundHash (canvasState (dispatch PROJECT_ROTATED app)))
                (dispatch PROJECT_ROTATED app)) as Hc.
  cbv zeta in Hc. rewrite <- Happ', <- Htilt in Hc.
  destruct (masterSize element tilted) as [w h] eqn:Hms.
  destruct Hc as [Hw [Hh Hbg]].
  split; [reflexivity |].
  split.
  { intro H0. cbn [map].
    rewrite !projectRotation_rotateTimes_S, !rotationOr0_rotateTimes_S.
    change (rotateTimes 0 cs) with cs. rewrite H0. reflexivity. }
  split.
  { intros r Hr Hrange. rewrite rotateTimes_four.
    unfold rotationOr0. fold cs. rewrite Hr. f_equal.
    apply four_quarter_turns. exact Hrange. }
  split; [exact Hrot |].
  split; [rewrite Hw, Hh; reflexivity |].
  split; [rewrite Hw, Hh; exact Hbg |].
  intros Hnw Hnh. rewrite Hbg.
  unfold masterSize in Hms. destruct tilted; inversion Hms; subst w h.
  - rewrite (canvasSize_uncapped _ _ Hnh). reflexivity.
  - rewrite (canvasSize_uncapped _ _ Hnw). reflexivity.
Qed.

End RotationProofs.

Lemma projectRotated_cycle_and_canvas_witness :
  backgroundElement (canvasState (appWithBackground smallBackground))
  = Some smallBackground
  /\ map (fun n => projectRotation
                     (rotateTimes n (canvasState (appWithBackground smallBackground))))
       [1; 2; 3; 4]%nat
     = [Some 90; Some 180; Some 270; Some 0]%Z
  /\ projectRotation
       (rotateTimes 4 (rotateTimes 1 (canvasState (appWithBackground smallBackground))))
     = Some 90%Z
  /\ backgroundCanvas (rotateProject (platform := refPlatform)
                         (appWithBackground smallBackground))
     = Bitmap.mk 600 800.
Proof.
  pose proof (projectRotated_cycle_and_canvas (platform := refPlatform)
                (appWithBackground smallBackground) smallBackground eq_refl) as H.
  pose proof (projectRotated_cycle_and_canvas (platform := refPlatform)
                (setCanvasState
                   (rotateTimes 1 (canvasState (appWithBackground smallBackground)))
                   (appWithBackground smallBackground))
                smallBackground eq_refl) as H'.
  cbv zeta in H, H'.
  destruct H as (_ & Hcycle & _ & _ & _ & _ & Hcanvas).
  destruct H' as (_ & _ & Hback & _).
  split; [reflexivity |].
  split; [apply Hcycle; reflexivity |].
  split; [apply (Hback 90%Z); [reflexivity | lia] |].
  rewrite Hcanvas by (vm_compute; discriminate).
  reflexivity.
Defined.

(** C8, the claim as stated, fails for a background wider than the canvas
    width cap: a 3000 by 1000 background gives a 1920 by 640 canvas, and
    after one rotation (to 90 degrees) the canvas is 1000 by 3000, which is
    not the 640 by 1920 transposition. *)
Lemma projectRotated_canvas_counterexample :
  let before := appWithBackground wideBackground in
  let after := rotateProject (platform := refPlatform) before in
  projectRotation (canvasState after) = Some 90%Z
  /\ backgroundCanvas before = Bitmap.mk 1920 640
  /\ backgroundCanvas after = Bitmap.mk 1000 3000
  /\ ~ transposed (backgroundCanvas before) (backgroundCanvas after).
Proof.
  cbv zeta. split; [reflexivity |]. split; [reflexivity |]. split; [reflexivity |].
  unfold transposed. intros [Hw _]. vm_compute in Hw. discriminate.
Qed.

(** ** The reducers leave the other layers and the other fields alone *)

Lemma id_setNum f v l : id (setNum f v l) = id l.
Proof. reflexivity. Qed.

Lemma id_assign (p : LayerProp) (l : Layer) :
  noIdProp [p] = true -> id (assign p l) = id l.
Proof. intro H. destruct p; try reflexivity. discriminate H. Qed.

Lemma id_spread (props : list LayerProp) (l : Layer) :
  noIdProp props = true -> id (spread props l) = id l.
Proof.
  unfold spread. revert l.
  induction props as [| p props IH]; intros l H; simpl; [reflexivity |].
  simpl in H. apply andb_prop in H. destruct H as [Hp Hr].
  rewrite IH by exact Hr. apply id_assign. simpl. rewrite Hp. reflexivity.
Qed.

Lemma idDiffers_true (l : Layer) (layerId : string) :
  idDiffers l layerId = true <-> id l <> layerId.
Proof.
  unfold idDiffers. rewrite negb_true_iff. apply String.eqb_neq.
Qed.

Section EditOneLayer.
Variable g : Layer -> Layer.
Variable layerId : string.

Let edit (l : Layer) : Layer := if idDiffers l layerId then l else g l.

Lemma edit_keeps_others (ls : list Layer) (i : nat) (l : Layer) :
  nth_error ls i = Some l -> id l <> layerId ->
  nth_error (map edit ls) i = Some l.
Proof.
  intros Hn Hid. rewrite nth_error_map, Hn. simpl. f_equal.
  unfold edit. apply idDiffers_true in Hid. rewrite Hid. reflexivity.
Qed.

Hypothesis g_keeps_id : forall l, id (g l) = id l.

Lemma edit_keeps_ids (ls : list Layer) : map id (map edit ls) = map id ls.
Proof.
  induction ls as [| l ls IH]; simpl; [reflexivity |].
  rewrite IH. f_equal. unfold edit.
  destruct (idDiffers l layerId); [reflexivity | apply g_keeps_id].
Qed.

Lemma edit_finds (ls : list Layer) (l : Layer) :
  findLayer layerId ls = Some l -> findLayer layerId (map edit ls) = Some (g l).
Proof.
  unfold findLayer.
  induction ls as [| a ls IH]; simpl; [discriminate |].
  assert (Hid : id (edit a) = id a).
  { unfold edit. destruct (idDiffers a layerId); [reflexivity | apply g_keeps_id]. }
  rewrite Hid.
  destruct (String.eqb (id a) layerId) eqn:E.
  - intro H. inversion H. subst a. unfold edit, idDiffers. rewrite E. reflexivity.
  - exact IH.
Qed.

End EditOneLayer.

(** The layers of the four layer-edit actions: a [map] that edits the
    layers whose id is the payload's. *)
Lemma layersReducer_edit (ls : list Layer) (action : Action) (layerId : string) :
  editedLayerId action = Some layerId ->
  exists g, (payloadKeepsId action = true -> forall l, id (g l) = id l)
    /\ layersReducer ls action
       = map (fun l => if idDiffers l layerId then l else g l) ls.
Proof.
  intro H. destruct action; try discriminate; simpl in H; inversion H; subst.
  - exists (fun l => setCache (invalidated (cache l)) (assign p l)).
    split; [intros K l; simpl; apply id_assign; exact K | reflexivity].
  - exists (fun l => setCache (invalidated (cache l))
                       (setShadow (assignShadow p (shadow l)) l)).
    split; [reflexivity | reflexivity].
  - exists (fun l => setCache (invalidated (cache l))
                       (setBorder (assignBorder p (border l)) l)).
    split; [reflexivity | reflexivity].
  - exists (spread transformProps).
    split; [intros K l; apply id_spread; exact K | reflexivity].
Qed.

(** C10.  For a [LAYER_TRANSFORMED], [LAYER_PROPERTY_CHANGED],
    [LAYER_SHADOW_CHANGED] or [LAYER_BORDER_CHANGED] action the reducer
    returns a layers array of the same length, in which every layer whose
    id differs from the payload's [layerId] is the layer that was there, at
    the index where it was, and every field of the canvas state other than
    [layers] is unchanged.  The ids are the same, in the same order, when
    the payload has no [id] entry. *)
Theorem layer_edit_frame (cs : CanvasState) (action : Action) (layerId : string) :
  editedLayerId action = Some layerId ->
  let cs' := canvasStateReducer cs action in
  layers cs' = layersReducer (layers cs) action
  /\ List.length (layers cs') = List.length (layers cs)
  /\ (payloadKeepsId action = true -> map id (layers cs') = map id (layers cs))
  /\ (forall i l, nth_error (layers cs) i = Some l -> id l <> layerId ->
        nth_error (layers cs') i = Some l)
  /\ backgroundElement cs' = backgroundElement cs
  /\ backgroundType cs' = backgroundType cs
  /\ backgroundHash cs' = backgroundHash cs
  /\ bgBrightness cs' = bgBrightness cs
  /\ bgSaturation cs' = bgSaturation cs
  /\ projectRotation cs' = projectRotation cs
  /\ backgroundFlipX cs' = backgroundFlipX cs
  /\ dominantColor cs' = dominantColor cs.
Proof.
  intros H cs'.
  assert (Hcs : cs' = setLayers (layersReducer (layers cs) action) cs).
  { unfold cs'. destruct action; try discriminate; reflexivity. }
  destruct (layersReducer_edit (layers cs) action layerId H) as [g [Hg Hl]].
  rewrite Hcs. simpl. rewrite Hl.
  split; [reflexivity |].
  split; [apply length_map |].
  split; [intro K; apply edit_keeps_ids; apply Hg; exact K |].
  split; [intros i l; apply edit_keeps_others |].
  repeat split; reflexivity.
Qed.

Lemma layer_edit_frame_witness :
  let cs' := canvasStateReducer twoLayerState
               (LAYER_TRANSFORMED "a" [PNum Fld.x 5; PNum Fld.y 7]) in
  map id (layers cs') = ["a"; "b"]%string
  /\ nth_error (layers cs') 1 = nth_error (layers twoLayerState) 1
  /\ projectRotation cs' = Some 0%Z.
Proof.
  pose proof (layer_edit_frame twoLayerState
                (LAYER_TRANSFORMED "a" [PNum Fld.x 5; PNum Fld.y 7]) "a" eq_refl) as H.
  cbv zeta in H.
  destruct H as (_ & _ & Hids & Hothers & _ & _ & _ & _ & _ & Hrot & _).
  split; [exact (Hids eq_refl) |].
  split; [apply Hothers; [reflexivity | discriminate] | exact Hrot].
Defined.

(** ** Mipmaps *)

Lemma half_below (d : Z) : (32 < d)%Z -> (Z.max 32 (d / 2) < d)%Z.
Proof.
  intro H. assert (d / 2 < d)%Z by (apply Z.div_lt; lia). lia.
Qed.

Lemma mipLevels_chain (w h : Z) :
  halvingChain (w, h) (mipLevels w h) /\ Forall atLeast32 (mipLevels w h).
Proof.
  funelim (mipLevels w h).
  - pose proof (andb_prop _ _ e) as [Hw Hh].
    apply Z.gtb_lt in Hw. apply Z.gtb_lt in Hh.
    destruct H as [Hchain Hall].
    split.
    + simpl. repeat split; try reflexivity;
        try (apply half_below; assumption). exact Hchain.
    + constructor; [| exact Hall]. unfold atLeast32. simpl. lia.
  - split; [exact I | constructor].
Qed.

(** The loop stops at a level that is at most 32 pixels wide or high. *)
Lemma mipLevels_last (w h : Z) (d : Z * Z) :
  let final := last ((w, h) :: mipLevels w h) d in
  (fst final <= 32)%Z \/ (snd final <= 32)%Z.
Proof.
  funelim (mipLevels w h).
  - cbv zeta in H. specialize (H d). exact H.
  - simpl. pose proof (proj1 (andb_false_iff _ _) e) as [E | E];
      rewrite Z.gtb_ltb in E; apply Z.ltb_ge in E; auto.
Qed.

Lemma round_le (q : Q) (z : Z) : q <= inject_Z z -> (Qfloor (q + (1 # 2)) <= z)%Z.
Proof.
  intro H.
  assert (Hlt : inject_Z (Qfloor (q + (1 # 2))) < inject_Z (z + 1)).
  { eapply Qle_lt_trans; [apply Qfloor_le |].
    rewrite inject_Z_plus. change (inject_Z 1) with 1. lra. }
  rewrite <- Zlt_Qlt in Hlt. lia.
Qed.

Lemma round_pos (q : Q) : 0 < q -> (0 <= Qfloor (q + (1 # 2)))%Z.
Proof.
  intro H. change 0%Z with (Qfloor 0). apply Qfloor_resp_le. lra.
Qed.

(** The scale [generateMipmaps] computes against the scale that fits the
    source into the cap. *)
Lemma mipScale_fit (sourceWidth sourceHeight : N) (maxDimension : positive) :
  (0 < sourceWidth)%N -> (0 < sourceHeight)%N ->
  let W := inject_Z (Z.of_N sourceWidth) in
  let H := inject_Z (Z.of_N sourceHeight) in
  let M := inject_Z (Zpos maxDimension) in
  let s := mipScale sourceWidth sourceHeight maxDimension in
  let s0 := fitScale W H M in
  0 < s0 /\ s0 <= 1 /\ W * s0 <= M /\ H * s0 <= M
  /\ s0 * (1 - pow2 (-53)) <= s /\ s <= s0 * (1 + pow2 (-53))
  /\ (W <= M -> H <= M -> s == 1)
  /\ (M < W -> H <= W -> W * s0 == M)
  /\ (M < H -> W <= H -> H * s0 == M).
Proof.
  intros Hw Hh W H M s s0.
  assert (PW : 0 < W) by (unfold W; change 0 with (inject_Z 0); rewrite <- Zlt_Qlt; lia).
  assert (PH : 0 < H) by (unfold H; change 0 with (inject_Z 0); rewrite <- Zlt_Qlt; lia).
  assert (PM : 0 < M) by (unfold M; change 0 with (inject_Z 0); rewrite <- Zlt_Qlt; lia).
  assert (Es : s = Math_min (fdiv M W) (Math_min (fdiv M H) 1)).
  { unfold s, mipScale.
    replace (sourceWidth =? 0)%N with false by (symmetry; apply N.eqb_neq; lia).
    replace (sourceHeight =? 0)%N with false by (symmetry; apply N.eqb_neq; lia).
    reflexivity. }
  destruct (fdiv_error M W (Qlt_le_weak _ _ PM) PW) as [Lw Uw].
  destruct (fdiv_error M H (Qlt_le_weak _ _ PM) PH) as [Lh Uh].
  assert (Gw : W <= M -> 1 <= fdiv M W).
  { intro C. unfold fdiv. apply roundToDouble_ge_one. apply Qle_shift_div_l; lra. }
  assert (Gh : H <= M -> 1 <= fdiv M H).
  { intro C. unfold fdiv. apply roundToDouble_ge_one. apply Qle_shift_div_l; lra. }
  assert (Rw : 0 < M / W) by (apply Qlt_shift_div_l; lra).
  assert (Rh : 0 < M / H) by (apply Qlt_shift_div_l; lra).
  assert (Ew : W * (M / W) == M) by (field; lra).
  assert (Eh : H * (M / H) == M) by (field; lra).
  rewrite pow2_m53 in *.
  set (rw := fdiv M W) in *. set (rh := fdiv M H) in *.
  set (qw := M / W) in *. set (qh := M / H) in *.
  (* the exact scale, times each side *)
  assert (S0 : 0 < s0 /\ s0 <= 1 /\ s0 <= qw /\ s0 <= qh
               /\ (s0 == 1 \/ s0 == qw \/ s0 == qh)).
  { unfold s0, fitScale. fold qw qh.
    destruct (Q.min_spec qw qh) as [[A1 B1] | [A1 B1]];
    destruct (Q.min_spec (Qmin qw qh) 1) as [[A2 B2] | [A2 B2]];
    rewrite B2; rewrite ?B1 in *; repeat split; try lra; auto. }
  destruct S0 as (P0 & P1 & Pw & Ph & Pc). clearbody s0.
  assert (S1 : s <= 1 /\ s <= rw /\ s <= rh /\ (s == 1 \/ s == rw \/ s == rh)).
  { rewrite Es. unfold Math_min.
    destruct (Q.min_spec rh 1) as [[A3 B3] | [A3 B3]];
    destruct (Q.min_spec rw (Qmin rh 1)) as [[A4 B4] | [A4 B4]];
    rewrite B4; rewrite ?B3 in *; repeat split; try lra; auto. }
  destruct S1 as (T1 & Tw & Th & Tc). clearbody s.
  split; [exact P0 |]. split; [exact P1 |].
  split.
  { apply Qle_trans with (W * qw); [apply Qmult_le_nonneg_l; lra | rewrite Ew; lra]. }
  split.
  { apply Qle_trans with (H * qh); [apply Qmult_le_nonneg_l; lra | rewrite Eh; lra]. }
  split.
  { destruct Tc as [E | [E | E]]; rewrite E; lra. }
  split.
  { destruct Pc as [E | [E | E]]; rewrite E; lra. }
  split.
  { intros C1 C2. pose proof (Gw C1). pose proof (Gh C2).
    destruct Tc as [E | [E | E]]; lra. }
  assert (Cw : M < W -> qw < 1).
  { intro C. unfold qw. apply Qlt_shift_div_r; lra. }
  assert (Ch : M < H -> qh < 1).
  { intro C. unfold qh. apply Qlt_shift_div_r; lra. }
  assert (Cwh : H <= W -> qw <= qh).
  { intro C. unfold qw, qh. apply Qdiv_le_cross; try assumption.
    apply Qmult_le_nonneg_l; lra. }
  assert (Chw : W <= H -> qh <= qw).
  { intro C. unfold qw, qh. apply Qdiv_le_cross; try assumption.
    apply Qmult_le_nonneg_l; lra. }
  split.
  { intros C1 C2. pose proof (Cw C1). pose proof (Cwh C2).
    assert (E : s0 == qw) by (destruct Pc as [E | [E | E]]; lra).
    rewrite E. exact Ew. }
  { intros C1 C2. pose proof (Ch C1). pose proof (Chw C2).
    assert (E : s0 == qh) by (destruct Pc as [E | [E | E]]; lra).
    rewrite E. exact Eh. }
Qed.

(** An integer within less than one of another integer, on both sides, is
    that integer. *)
Lemma integer_pinned (z m : Z) (lo hi : Q) :
  lo < inject_Z z -> inject_Z z <= hi ->
  inject_Z m - 1 <= lo -> hi < inject_Z m + 1 -> z = m.
Proof.
  intros L U Hl Hh.
  assert (A : inject_Z (m - 1) < inject_Z z).
  { unfold Z.sub. rewrite inject_Z_plus, inject_Z_opp. change (inject_Z 1) with 1. lra. }
  assert (B : inject_Z z < inject_Z (m + 1)).
  { rewrite inject_Z_plus. change (inject_Z 1) with 1. lra. }
  rewrite <- Zlt_Qlt in A, B. lia.
Qed.

(** C9 (as amended).  For a source image of positive dimensions,
    [generateMipmaps] returns a non-empty sequence whose base level is the
    source scaled down, never up, to fit the cap [maxDimension] (2048 at
    every call site): a source within the cap is kept at its size; otherwise
    the longer side becomes exactly [maxDimension] and each side is the
    source's side times the scale that fits the source into the cap, to the
    nearest pixel of the product as the source computes it (the scale and
    the product are each rounded to a double, which is within 3 x 2^-53 of
    the product).  Each further level has [max(32, floor(d / 2))] for each
    dimension [d] of the level before it and is smaller in both dimensions
    (largest first); every level after the base is at least 32 pixels in
    both dimensions, and so is the base when the scaled source is; the last
    level is at most 32 pixels wide or high. *)
Theorem generateMipmaps_contract (sourceWidth sourceHeight : N)
    (maxDimension : positive) :
  (0 < sourceWidth)%N -> (0 < sourceHeight)%N -> (Zpos maxDimension < 2 ^ 50)%Z ->
  let w := Z.of_N sourceWidth in
  let h := Z.of_N sourceHeight in
  let m := Zpos maxDimension in
  let levels := generateMipmaps sourceWidth sourceHeight maxDimension in
  let base := List.hd (0, 0)%Z levels in
  let rest := List.tl levels in
  let scale := fitScale (inject_Z w) (inject_Z h) (inject_Z m) in
  levels = base :: rest
  /\ (0 <= fst base <= Z.min w m)%Z
  /\ (0 <= snd base <= Z.min h m)%Z
  /\ ((w <= m)%Z -> (h <= m)%Z -> base = (w, h))
  /\ ((m < w)%Z -> (h <= w)%Z -> fst base = m)
  /\ ((m < h)%Z -> (w <= h)%Z -> snd base = m)
  /\ (inject_Z w * scale * (1 - 3 * pow2 (-53)) - (1 # 2) < inject_Z (fst base)
      /\ inject_Z (fst base) <= inject_Z w * scale * (1 + 3 * pow2 (-53)) + (1 # 2))
  /\ (inject_Z h * scale * (1 - 3 * pow2 (-53)) - (1 # 2) < inject_Z (snd base)
      /\ inject_Z (snd base) <= inject_Z h * scale * (1 + 3 * pow2 (-53)) + (1 # 2))
  /\ halvingChain base rest
  /\ Forall atLeast32 rest
  /\ (atLeast32 base -> mipmapContract m levels)
  /\ ((fst (last levels base) <= 32)%Z \/ (snd (last levels base) <= 32)%Z).
Proof.
  intros Hsw Hsh Hm w h m levels base rest scale.
  destruct (mipScale_fit sourceWidth sourceHeight maxDimension Hsw Hsh)
    as (P0 & P1 & Cw & Ch & L & U & Fit & Lw & Lh).
  fold w h m in P0, P1, Cw, Ch, L, U, Fit, Lw, Lh. fold scale in P0, P1, Cw, Ch, L, U, Lw, Lh.
  set (s := mipScale sourceWidth sourceHeight maxDimension) in *.
  assert (PW : 0 < inject_Z w)
    by (unfold w; change 0 with (inject_Z 0); rewrite <- Zlt_Qlt; lia).
  assert (PH : 0 < inject_Z h)
    by (unfold h; change 0 with (inject_Z 0); rewrite <- Zlt_Qlt; lia).
  assert (PM : 0 < inject_Z m)
    by (unfold m; change 0 with (inject_Z 0); rewrite <- Zlt_Qlt; lia).
  assert (BM : inject_Z m < 1125899906842624).
  { change 1125899906842624 with (inject_Z (2 ^ 50)). rewrite <- Zlt_Qlt. exact Hm. }
  assert (Ebase : base = (Qfloor (fmul (inject_Z w) s + (1 # 2)),
                          Qfloor (fmul (inject_Z h) s + (1 # 2)))) by reflexivity.
  destruct (fmul_rounded_factor (inject_Z w) scale s) as [Mw1 Mw2];
    [lra | lra | exact L | exact U |].
  destruct (fmul_rounded_factor (inject_Z h) scale s) as [Mh1 Mh2];
    [lra | lra | exact L | exact U |].
  destruct (Math_round_near (fmul (inject_Z w) s)) as [Nw1 Nw2].
  destruct (Math_round_near (fmul (inject_Z h) s)) as [Nh1 Nh2].
  unfold Math_round in Nw1, Nw2, Nh1, Nh2.
  assert (Ef : fst base = Qfloor (fmul (inject_Z w) s + (1 # 2))) by reflexivity.
  assert (Es : snd base = Qfloor (fmul (inject_Z h) s + (1 # 2))) by reflexivity.
  rewrite <- Ef in Nw1, Nw2. rewrite <- Es in Nh1, Nh2.
  assert (Sw0 : 0 <= inject_Z w * scale) by (apply Qmult_le_0_compat; lra).
  assert (Sh0 : 0 <= inject_Z h * scale) by (apply Qmult_le_0_compat; lra).
  assert (Sww : inject_Z w * scale <= inject_Z w).
  { rewrite <- (Qmult_1_r (inject_Z w)) at 2. apply Qmult_le_nonneg_l; lra. }
  assert (Shh : inject_Z h * scale <= inject_Z h).
  { rewrite <- (Qmult_1_r (inject_Z h)) at 2. apply Qmult_le_nonneg_l; lra. }
  rewrite pow2_m53 in *.
  set (pw := inject_Z w * scale) in *. set (ph := inject_Z h * scale) in *.
  (* the bounds of the two sides *)
  assert (Bw : pw * (1 - 3 * (1 # 9007199254740992)) - (1 # 2) < inject_Z (fst base)
               /\ inject_Z (fst base) <= pw * (1 + 3 * (1 # 9007199254740992)) + (1 # 2))
    by (split; lra).
  assert (Bh : ph * (1 - 3 * (1 # 9007199254740992)) - (1 # 2) < inject_Z (snd base)
               /\ inject_Z (snd base) <= ph * (1 + 3 * (1 # 9007199254740992)) + (1 # 2))
    by (split; lra).
  assert (Hbw : (0 <= fst base <= Z.min w m)%Z).
  { split.
    - assert (A : inject_Z (-1) < inject_Z (fst base)).
      { change (inject_Z (-1)) with (-1 # 1). lra. }
      rewrite <- Zlt_Qlt in A. lia.
    - assert (A : inject_Z (fst base) < inject_Z (Z.min w m + 1)).
      { rewrite inject_Z_plus. change (inject_Z 1) with 1.
        assert (X : pw <= inject_Z (Z.min w m)).
        { destruct (Z.min_spec w m) as [[_ ->] | [_ ->]]; lra. }
        assert (Y : inject_Z (Z.min w m) <= inject_Z m)
          by (rewrite <- Zle_Qle; lia).
        lra. }
      rewrite <- Zlt_Qlt in A. lia. }
  assert (Hbh : (0 <= snd base <= Z.min h m)%Z).
  { split.
    - assert (A : inject_Z (-1) < inject_Z (snd base)).
      { change (inject_Z (-1)) with (-1 # 1). lra. }
      rewrite <- Zlt_Qlt in A. lia.
    - assert (A : inject_Z (snd base) < inject_Z (Z.min h m + 1)).
      { rewrite inject_Z_plus. change (inject_Z 1) with 1.
        assert (X : ph <= inject_Z (Z.min h m)).
        { destruct (Z.min_spec h m) as [[_ ->] | [_ ->]]; lra. }
        assert (Y : inject_Z (Z.min h m) <= inject_Z m)
          by (rewrite <- Zle_Qle; lia).
        lra. }
      rewrite <- Zlt_Qlt in A. lia. }
  assert (Hlevels : levels = base :: mipLevels (fst base) (snd base)) by reflexivity.
  assert (Hrest : rest = mipLevels (fst base) (snd base)) by reflexivity.
  destruct (mipLevels_chain (fst base) (snd base)) as [Hchain Hall].
  rewrite <- surjective_pairing in Hchain. rewrite <- Hrest in Hchain, Hall.
  split; [reflexivity |].
  split; [exact Hbw |]. split; [exact Hbh |].
  split.
  { intros Fw Fh.
    assert (E1 : s == 1) by (apply Fit; rewrite <- Zle_Qle; assumption).
    assert (Rw : fmul (inject_Z w) s == inject_Z w).
    { unfold fmul. rewrite (roundToDouble_comp _ (inject_Z w)) by (rewrite E1; ring).
      apply roundToDouble_integer. unfold w in *. lia. }
    assert (Rh : fmul (inject_Z h) s == inject_Z h).
    { unfold fmul. rewrite (roundToDouble_comp _ (inject_Z h)) by (rewrite E1; ring).
      apply roundToDouble_integer. unfold h in *. lia. }
    assert (Fl : forall z, Qfloor (inject_Z z + (1 # 2)) = z).
    { intro z. apply inject_Z_injective.
      pose proof (Math_round_inject_Z z) as R. unfold Math_round in R.
      rewrite R. reflexivity. }
    rewrite Ebase. f_equal.
    - rewrite (Qfloor_comp _ (inject_Z w + (1 # 2))) by (rewrite Rw; reflexivity).
      apply Fl.
    - rewrite (Qfloor_comp _ (inject_Z h + (1 # 2))) by (rewrite Rh; reflexivity).
      apply Fl. }
  split.
  { intros Fw Fh.
    assert (E : pw == inject_Z m) by (apply Lw; [rewrite <- Zlt_Qlt | rewrite <- Zle_Qle]; assumption).
    destruct Bw as [B1 B2].
    apply (integer_pinned _ m _ _ B1 B2); lra. }
  split.
  { intros Fh Fw.
    assert (E : ph == inject_Z m) by (apply Lh; [rewrite <- Zlt_Qlt | rewrite <- Zle_Qle]; assumption).
    destruct Bh as [B1 B2].
    apply (integer_pinned _ m _ _ B1 B2); lra. }
  split; [exact Bw |]. split; [exact Bh |].
  split; [exact Hchain |]. split; [exact Hall |].
  split.
  - intro Hbase. change levels with (base :: rest). unfold mipmapContract.
    split; [lia |]. split; [lia |]. split; [exact Hchain |].
    constructor; assumption.
  - rewrite Hlevels. rewrite (surjective_pairing base) at 1.
    apply (mipLevels_last (fst base) (snd base) base).
Qed.

Lemma generateMipmaps_contract_witness :
  generateMipmaps 4096 1024 2048 = [(2048, 512); (1024, 256); (512, 128);
                                    (256, 64); (128, 32)]%Z
  /\ mipmapContract 2048 (generateMipmaps 4096 1024 2048)
  /\ List.hd (0, 0)%Z (generateMipmaps 1000 800 2048) = (1000, 800)%Z
  /\ fst (List.hd (0, 0)%Z (generateMipmaps 5000 3000 2048)) = 2048%Z.
Proof.
  pose proof (generateMipmaps_contract 4096 1024 2048 eq_refl eq_refl eq_refl) as H.
  pose proof (generateMipmaps_contract 1000 800 2048 eq_refl eq_refl eq_refl) as H1.
  pose proof (generateMipmaps_contract 5000 3000 2048 eq_refl eq_refl eq_refl) as H2.
  cbv zeta in H, H1, H2.
  destruct H as (_ & _ & _ & _ & _ & _ & _ & _ & _ & _ & Hc & _).
  destruct H1 as (_ & _ & _ & Hfit & _).
  destruct H2 as (_ & _ & _ & _ & Hlong & _).
  split; [vm_compute; reflexivity |].
  split; [apply Hc; vm_compute; discriminate |].
  split; [apply Hfit; vm_compute; discriminate | apply Hlong; vm_compute; try reflexivity; discriminate].
Defined.

(** C9, the claim as stated, fails for a source smaller than 32 pixels:
    a 10 by 10 source is not scaled up, and its only level is 10 by 10. *)
Lemma generateMipmaps_small_source_counterexample :
  generateMipmaps 10 10 2048 = [(10, 10)%Z]
  /\ ~ mipmapContract 2048 (generateMipmaps 10 10 2048).
Proof.
  assert (E : generateMipmaps 10 10 2048 = [(10, 10)%Z]) by (vm_compute; reflexivity).
  rewrite E. split; [reflexivity |].
  intros (_ & _ & _ & Hall). inversion Hall as [| l r H32 _]; subst.
  vm_compute in H32. apply H32. reflexivity.
Qed.

(** ** The effect cache *)

Section CacheProofs.
Context `{platform : Platform}.

Lemma cachePadding_contract (layer : Layer) :
  cachePadding layer == paddingContract (ltype layer) (shadow layer) (border layer).
Proof.
  unfold cachePadding, paddingContract, Math_max, Math_abs.
  destruct (Shadow.enabled (shadow layer)); destruct (ltype layer);
    try destruct (Border.enabled (border layer)); ring.
Qed.

Lemma renderLayerPadding_contract (d : LayerData) :
  renderLayerPadding d
  == paddingContract (dataType d) (propShadow d) (propBorder d)
     + (if Shadow.enabled (propShadow d) then Shadow.blur (propShadow d) / 2 else 0).
Proof.
  unfold renderLayerPadding, paddingContract, Math_max, Math_abs.
  destruct (Shadow.enabled (propShadow d)); destruct (dataType d);
    try destruct (Border.enabled (propBorder d)); field.
Qed.

Lemma buildCache_positive (layer : Layer) (cw ch : Q) :
  0 < cw -> 0 < ch ->
  cache (buildCache layer cw ch)
  = Some (Cache.mk (Some (Bitmap.mk (setCanvasWidth (cw + cachePadding layer * 2))
                                    (setCanvasHeight (ch + cachePadding layer * 2))))
            true).
Proof.
  intros Hw Hh. unfold buildCache.
  assert (E1 : Qleb cw 0 = false) by (apply Qleb_false; exact Hw).
  assert (E2 : Qleb ch 0 = false) by (apply Qleb_false; exact Hh).
  rewrite E1, E2. reflexivity.
Qed.

Lemma buildCache_degenerate (layer : Layer) (cw ch : Q) (c : Cache.t) :
  cache layer = Some c -> cw <= 0 \/ ch <= 0 ->
  cache (buildCache layer cw ch)
  = Some (Cache.mk (match Cache.canvas c with
                    | Some _ => Some (Bitmap.mk 0 0)
                    | None => None
                    end) true).
Proof.
  intros Hc Hd. unfold buildCache.
  assert (E : (Qleb cw 0 || Qleb ch 0)%bool = true).
  { apply orb_true_iff. destruct Hd; [left | right]; apply Qleb_true; assumption. }
  rewrite E, Hc. reflexivity.
Qed.

Lemma degenerate_draws_nothing (l : Layer) : degenerateCache l -> drawableCanvas l = None.
Proof.
  unfold degenerateCache, drawableCanvas.
  destruct (cache l) as [c |]; [| reflexivity].
  intros [_ H]. destruct (Cache.canvas c) as [cv |]; [| reflexivity].
  destruct H as [Hw _].
  assert (E : Qgtb (Bitmap.width cv) 0 = false) by (apply Qgtb_false; lra).
  rewrite E. reflexivity.
Qed.


Lemma updateLayerCache_image (layer : Layer) (base : Canvas.t) (rest : list Canvas.t) :
  ltype layer = ImageLayer -> mipmaps layer = base :: rest ->
  ~ Canvas.width base == 0 ->
  updateLayerCache layer
  = buildCache (match cache layer with
                | None => setCache (Some (Cache.mk None false)) layer
                | Some _ => layer
                end) (Canvas.width base) (Canvas.height base).
Proof.
  intros Hty Hm Hw. unfold updateLayerCache.
  apply Qeq_bool_false in Hw.
  destruct (cache layer); cbn [ltype mipmaps setCache]; rewrite Hty, Hm, Hw; reflexivity.
Qed.

Lemma updateLayerCache_text (layer : Layer) :
  ltype layer = TextLayer ->
  let metrics := getTextBlockMetrics (text layer) (font layer) (fontSize layer) in
  updateLayerCache layer
  = buildCache
      (setNum Fld.height (totalHeight metrics)
         (setNum Fld.width (maxWidth metrics)
            (match cache layer with
             | None => setCache (Some (Cache.mk None false)) layer
             | Some _ => layer
             end)))
      (maxWidth metrics) (totalHeight metrics).
Proof.
  intros Hty metrics. unfold updateLayerCache.
  destruct (cache layer); cbn [ltype setCache]; rewrite Hty; reflexivity.
Qed.

(** A canvas dimension set to a number from 0 up to 2^31 is the integer
    part of the number. *)
Lemma canvasDimension_floor (default : Z) (v : Q) :
  0 <= v -> v < 2147483648 ->
  canvasDimension default v = inject_Z (Qfloor v).
Proof.
  intros H0 H1. unfold canvasDimension, toUnsignedLong.
  assert (Hn : (0 <= Qnum v)%Z).
  { unfold Qle in H0. simpl in H0. lia. }
  assert (Hq : (Z.quot (Qnum v) (Zpos (Qden v)) = Qfloor v)%Z).
  { destruct v as [n d]. simpl in *. apply Z.quot_div_nonneg; lia. }
  rewrite Hq.
  assert (Hf0 : (0 <= Qfloor v)%Z).
  { change 0%Z with (Qfloor 0). apply Qfloor_resp_le. exact H0. }
  assert (Hf1 : (Qfloor v < 2147483648)%Z).
  { rewrite Zlt_Qlt. eapply Qle_lt_trans; [apply Qfloor_le | exact H1]. }
  rewrite Z.mod_small by (change (2 ^ 32)%Z with 4294967296%Z; lia).
  replace (Qfloor v <=? 2147483647)%Z with true by (symmetry; apply Z.leb_le; lia).
  reflexivity.
Qed.

Lemma canvasDimension_bounds (default : Z) (v : Q) :
  0 <= v -> v < 2147483648 ->
  v - 1 < canvasDimension default v /\ canvasDimension default v <= v.
Proof.
  intros H0 H1. rewrite (canvasDimension_floor default v H0 H1).
  pose proof (Qfloor_le v) as Hl. pose proof (Qlt_floor v) as Hu.
  rewrite inject_Z_plus in Hu. change (inject_Z 1) with 1 in Hu.
  split; lra.
Qed.

Lemma canvasDimension_integer (default : Z) (v : Q) (n : Z) :
  v == inject_Z n -> (0 <= n < 2147483648)%Z -> canvasDimension default v == v.
Proof.
  intros E Hn.
  assert (H0 : 0 <= v).
  { rewrite E. change 0 with (inject_Z 0). rewrite <- Zle_Qle. lia. }
  assert (H1 : v < 2147483648).
  { rewrite E. change 2147483648 with (inject_Z 2147483648). rewrite <- Zlt_Qlt. lia. }
  rewrite (canvasDimension_floor default v H0 H1).
  rewrite (Qfloor_comp _ _ E), Qfloor_Z. symmetry. exact E.
Qed.

Lemma nth_error_forEachIndexed {A B : Type} (f : A -> nat -> B) (l : list A)
    (index k : nat) :
  nth_error (forEachIndexed f index l) k
  = option_map (fun a => f a (index + k)%nat) (nth_error l k).
Proof.
  revert index k. induction l as [| a r IH]; intros index k.
  - destruct k; reflexivity.
  - destruct k as [| k]; simpl.
    + rewrite Nat.add_0_r. reflexivity.
    + rewrite IH. rewrite Nat.add_succ_r. reflexivity.
Qed.

Lemma length_forEachIndexed {A B : Type} (f : A -> nat -> B) (l : list A) (index : nat) :
  List.length (forEachIndexed f index l) = List.length l.
Proof.
  revert index. induction l as [| a r IH]; intro index; simpl; [| rewrite IH]; reflexivity.
Qed.

(** C6 (as amended).  In [updateLayerCache] the padding is 2 x shadow.blur +
    max(|shadow.offsetX|, |shadow.offsetY|) when the shadow is enabled, plus
    border.width x 2 when an image layer's border is enabled.  For content
    of positive size the two dimensions of the cache canvas are
    contentWidth + 2*padding and contentHeight + 2*padding as a canvas
    keeps them: their integer parts when they lie between 0 and 2^31, so
    the numbers themselves when these are whole.  The content of an image
    layer is painted with its top-left corner at (padding, padding); the
    lines of a text layer are centred on the vertical line at padding +
    contentWidth / 2 and the block starts at the height padding, line [k]
    having its baseline at padding + ascent + k x lineHeight.  The margin
    left on the right and at the bottom is therefore the padding less the
    fraction the canvas dropped: the content is centred when the two
    dimensions are whole.  The worker's [renderLayer] uses 2.5 x shadow.blur
    instead, rounds the two cache dimensions, centres the content on the
    rounded canvas, and throws when a rounded dimension is not positive. *)
Theorem effect_cache_padding (layer : Layer) (d : LayerData) :
  let p := cachePadding layer in
  p == paddingContract (ltype layer) (shadow layer) (border layer)
  /\ (forall base rest,
        ltype layer = ImageLayer -> mipmaps layer = base :: rest ->
        0 < Canvas.width base -> 0 < Canvas.height base ->
        let cw := Canvas.width base in
        let ch := Canvas.height base in
        let W := setCanvasWidth (cw + p * 2) in
        let H := setCanvasHeight (ch + p * 2) in
        cache (updateLayerCache layer) = Some (Cache.mk (Some (Bitmap.mk W H)) true)
        /\ exists dx dy,
             updateLayerCache_paint layer = [PaintImage dx dy cw ch]
             /\ dx == p /\ dy == p
             /\ (0 <= p -> cw + p * 2 < 2147483648 -> ch + p * 2 < 2147483648 ->
                 W == inject_Z (Qfloor (cw + p * 2))
                 /\ H == inject_Z (Qfloor (ch + p * 2))
                 /\ p - 1 < W - (dx + cw) /\ W - (dx + cw) <= p
                 /\ p - 1 < H - (dy + ch) /\ H - (dy + ch) <= p)
             /\ (forall n m : Z,
                   cw + p * 2 == inject_Z n -> ch + p * 2 == inject_Z m ->
                   (0 <= n < 2147483648)%Z -> (0 <= m < 2147483648)%Z ->
                   W == cw + p * 2 /\ H == ch + p * 2
                   /\ W - (dx + cw) == p /\ H - (dy + ch) == p))
  /\ (ltype layer = TextLayer ->
      let metrics := getTextBlockMetrics (text layer) (font layer) (fontSize layer) in
      0 < maxWidth metrics -> 0 < totalHeight metrics ->
      let W := setCanvasWidth (maxWidth metrics + p * 2) in
      let H := setCanvasHeight (totalHeight metrics + p * 2) in
      cache (updateLayerCache layer) = Some (Cache.mk (Some (Bitmap.mk W H)) true)
      /\ List.length (updateLayerCache_paint layer) = List.length (lines metrics)
      /\ (forall k line,
            nth_error (lines metrics) k = Some line ->
            exists centreX baselineY,
              nth_error (updateLayerCache_paint layer) k
              = Some (PaintText line centreX baselineY)
              /\ centreX == p + maxWidth metrics / 2
              /\ baselineY == p + ascent metrics
                              + inject_Z (Z.of_nat k) * lineHeight metrics)
      /\ (0 <= p -> maxWidth metrics + p * 2 < 2147483648 ->
          totalHeight metrics + p * 2 < 2147483648 ->
          W == inject_Z (Qfloor (maxWidth metrics + p * 2))
          /\ H == inject_Z (Qfloor (totalHeight metrics + p * 2))
          /\ p - 1 < W - (p + maxWidth metrics) /\ W - (p + maxWidth metrics) <= p
          /\ p - 1 < H - (p + totalHeight metrics)
          /\ H - (p + totalHeight metrics) <= p))
  /\ renderLayerPadding d
     == paddingContract (dataType d) (propShadow d) (propBorder d)
        + (if Shadow.enabled (propShadow d) then Shadow.blur (propShadow d) / 2 else 0)
  /\ (let q := renderLayerPadding d in
      let w := Math_round (contentWidth d + q * 2) in
      let h := Math_round (contentHeight d + q * 2) in
      (w <= 0 \/ h <= 0 ->
       renderLayer d = Thrown "Invalid cache dimensions." /\ renderLayer_paint d = [])
      /\ (0 < w -> 0 < h ->
          renderLayer d = Returned (Bitmap.mk w h)
          /\ exists dx dy,
               renderLayer_paint d = [PaintImage dx dy (contentWidth d) (contentHeight d)]
               /\ w - (dx + contentWidth d) == dx
               /\ h - (dy + contentHeight d) == dy
               /\ q - (1 # 4) < dx /\ dx <= q + (1 # 4)
               /\ q - (1 # 4) < dy /\ dy <= q + (1 # 4))).
Proof.
  intro p. split; [apply cachePadding_contract |].
  split.
  { intros base rest Hty Hm Hw Hh cw ch W H.
    assert (Hw0 : ~ Canvas.width base == 0) by (intro E; rewrite E in Hw; lra).
    rewrite (updateLayerCache_image layer base rest Hty Hm Hw0).
    rewrite (buildCache_positive _ _ _ Hw Hh).
    split; [destruct (cache layer); reflexivity |].
    assert (Ep : updateLayerCache_paint layer
                 = [PaintImage ((cw + p * 2) / 2 + - cw / 2) ((ch + p * 2) / 2 + - ch / 2)
                      cw ch]).
    { unfold updateLayerCache_paint, paintCache. rewrite Hty, Hm.
      apply Qeq_bool_false in Hw0. rewrite Hw0.
      replace (Qleb (Canvas.width base) 0) with false
        by (symmetry; apply Qleb_false; exact Hw).
      replace (Qleb (Canvas.height base) 0) with false
        by (symmetry; apply Qleb_false; exact Hh).
      reflexivity. }
    eexists. eexists. split; [exact Ep |].
    assert (Ex : (cw + p * 2) / 2 + - cw / 2 == p) by field.
    assert (Ey : (ch + p * 2) / 2 + - ch / 2 == p) by field.
    split; [exact Ex |]. split; [exact Ey |].
    split.
    - intros Hp Hbw Hbh.
      assert (H0w : 0 <= cw + p * 2) by (unfold cw; lra).
      assert (H0h : 0 <= ch + p * 2) by (unfold ch; lra).
      pose proof (canvasDimension_bounds 300 _ H0w Hbw) as [Bw1 Bw2].
      pose proof (canvasDimension_bounds 150 _ H0h Hbh) as [Bh1 Bh2].
      fold (setCanvasWidth (cw + p * 2)) in Bw1, Bw2.
      fold (setCanvasHeight (ch + p * 2)) in Bh1, Bh2. fold W in Bw1, Bw2.
      fold H in Bh1, Bh2.
      split; [unfold W, setCanvasWidth;
              rewrite (canvasDimension_floor 300 _ H0w Hbw); reflexivity |].
      split; [unfold H, setCanvasHeight;
              rewrite (canvasDimension_floor 150 _ H0h Hbh); reflexivity |].
      rewrite Ex, Ey. repeat split; lra.
    - intros n m En Em Hn Hm'.
      pose proof (canvasDimension_integer 300 _ n En Hn) as Iw.
      pose proof (canvasDimension_integer 150 _ m Em Hm') as Ih.
      fold (setCanvasWidth (cw + p * 2)) in Iw.
      fold (setCanvasHeight (ch + p * 2)) in Ih. fold W in Iw. fold H in Ih.
      split; [exact Iw |]. split; [exact Ih |].
      rewrite Ex, Ey, Iw, Ih. split; ring. }
  split.
  { intros Hty metrics Hw Hh W H.
    rewrite (updateLayerCache_text layer Hty). cbv zeta. fold metrics.
    rewrite (buildCache_positive _ _ _ Hw Hh).
    split; [destruct (cache layer); reflexivity |].
    assert (Ep : updateLayerCache_paint layer
                 = forEachIndexed
                     (fun line index =>
                        PaintText line ((maxWidth metrics + p * 2) / 2 + 0)
                          ((totalHeight metrics + p * 2) / 2
                           + (- totalHeight metrics / 2 + ascent metrics
                              + inject_Z (Z.of_nat index) * lineHeight metrics)))
                     O (lines metrics)).
    { unfold updateLayerCache_paint, paintCache. rewrite Hty. fold metrics.
      replace (Qleb (maxWidth metrics) 0) with false
        by (symmetry; apply Qleb_false; exact Hw).
      replace (Qleb (totalHeight metrics) 0) with false
        by (symmetry; apply Qleb_false; exact Hh).
      reflexivity. }
    split; [rewrite Ep; apply length_forEachIndexed |].
    split.
    - intros k line Hk. rewrite Ep, nth_error_forEachIndexed, Hk. cbn [option_map].
      eexists. eexists. split; [reflexivity |]. cbn [Nat.add]. split; field.
    - intros Hp Hbw Hbh.
      assert (H0w : 0 <= maxWidth metrics + p * 2) by lra.
      assert (H0h : 0 <= totalHeight metrics + p * 2) by lra.
      pose proof (canvasDimension_bounds 300 _ H0w Hbw) as [Bw1 Bw2].
      pose proof (canvasDimension_bounds 150 _ H0h Hbh) as [Bh1 Bh2].
      fold (setCanvasWidth (maxWidth metrics + p * 2)) in Bw1, Bw2.
      fold (setCanvasHeight (totalHeight metrics + p * 2)) in Bh1, Bh2.
      fold W in Bw1, Bw2. fold H in Bh1, Bh2.
      split; [unfold W, setCanvasWidth;
              rewrite (canvasDimension_floor 300 _ H0w Hbw); reflexivity |].
      split; [unfold H, setCanvasHeight;
              rewrite (canvasDimension_floor 150 _ H0h Hbh); reflexivity |].
      repeat split; lra. }
  split; [apply renderLayerPadding_contract |].
  intros q w h. split.
  - intro Hd.
    assert (E : (Qleb w 0 || Qleb h 0)%bool = true).
    { apply orb_true_iff. destruct Hd; [left | right]; apply Qleb_true; assumption. }
    unfold renderLayer, renderLayer_paint. fold q. fold w h. rewrite E.
    split; reflexivity.
  - intros Hw Hh.
    assert (E : (Qleb w 0 || Qleb h 0)%bool = false).
    { apply orb_false_iff. split; apply Qleb_false; assumption. }
    unfold renderLayer, renderLayer_paint. fold q. fold w h. rewrite E.
    split; [reflexivity |].
    eexists. eexists. split; [reflexivity |].
    pose proof (Math_round_near (contentWidth d + q * 2)) as [Rw1 Rw2].
    pose proof (Math_round_near (contentHeight d + q * 2)) as [Rh1 Rh2].
    fold w in Rw1, Rw2. fold h in Rh1, Rh2.
    assert (Ex : w / 2 + - contentWidth d / 2 == (w - contentWidth d) / 2) by field.
    assert (Ey : h / 2 + - contentHeight d / 2 == (h - contentHeight d) / 2) by field.
    rewrite Ex, Ey. clearbody w h. clearbody q.
    set (cw := contentWidth d) in *. set (ch := contentHeight d) in *.
    clearbody cw ch.
    assert (Hx : (w - cw) / 2 == (1 # 2) * w - (1 # 2) * cw) by field.
    assert (Hy : (h - ch) / 2 == (1 # 2) * h - (1 # 2) * ch) by field.
    rewrite Hx, Hy.
    split; [ring |]. split; [ring |].
    repeat split; lra.
Qed.

End CacheProofs.

Lemma effect_cache_padding_witness :
  cache (updateLayerCache (platform := refPlatform) shadowedLayer)
  = Some (Cache.mk (Some (Bitmap.mk 140 140)) true)
  /\ (exists dx dy,
        updateLayerCache_paint (platform := refPlatform) shadowedLayer
        = [PaintImage dx dy 100 100] /\ dx == 20 /\ dy == 20)
  /\ cache (updateLayerCache (platform := refPlatform) (sampleText "t" 0 0 21 "a"))
     = Some (Cache.mk (Some (Bitmap.mk 12 21)) true)
  /\ (exists centreX baselineY,
        nth_error (updateLayerCache_paint (platform := refPlatform)
                     (sampleText "t" 0 0 21 "a")) 0
        = Some (PaintText "a" centreX baselineY)
        /\ centreX == 63 # 10 /\ baselineY == 84 # 5).
Proof.
  pose proof (effect_cache_padding (platform := refPlatform) shadowedLayer shadowedData)
    as H1.
  pose proof (effect_cache_padding (platform := refPlatform)
                (sampleText "t" 0 0 21 "a") shadowedData) as H2.
  cbv zeta in H1, H2.
  destruct H1 as (_ & Himg & _). destruct H2 as (_ & _ & Htxt & _).
  destruct (Himg opaqueRaster [] eq_refl eq_refl eq_refl eq_refl)
    as (Hc & dx & dy & Hp & Hx & Hy & _).
  destruct (Htxt eq_refl eq_refl eq_refl) as (Hc' & _ & Hl & _).
  destruct (Hl 0%nat "a"%string eq_refl) as (cx & cy & Hn & Hcx & Hcy).
  split; [exact Hc |].
  split; [exists dx, dy; split; [exact Hp |]; split;
          [rewrite Hx | rewrite Hy]; vm_compute; reflexivity |].
  split; [exact Hc' |].
  exists cx, cy. split; [exact Hn |].
  split; [rewrite Hcx | rewrite Hcy]; vm_compute; reflexivity.
Defined.

(** C6, the claim as stated, fails twice.  The cache canvas keeps whole
    dimensions: a line of text measured 12.6 wide and 21 high, without
    shadow, gets a 12 by 21 canvas, not 12.6 by 21.  And the worker's
    [renderLayer] takes another padding: with a shadow of blur 10 and no
    offset its padding is 25, not 20, and the cache of 100 by 100 content
    is 150 by 150, not 140 by 140. *)
Lemma effect_cache_counterexample :
  (let l := sampleText "t" 0 0 21 "a" in
   let metrics := getTextBlockMetrics (platform := refPlatform) (text l) (font l)
                    (fontSize l) in
   maxWidth metrics == 63 # 5 /\ totalHeight metrics == 21
   /\ cachePadding l == 0
   /\ match cache (updateLayerCache (platform := refPlatform) l) with
      | Some (Cache.mk (Some cv) _) =>
          Bitmap.width cv == 12
          /\ ~ Bitmap.width cv == maxWidth metrics + cachePadding l * 2
      | _ => False
      end)
  /\ ~ renderLayerPadding shadowedData
       == paddingContract (dataType shadowedData) (propShadow shadowedData)
            (propBorder shadowedData)
  /\ renderLayer shadowedData = Returned (Bitmap.mk 150 150).
Proof.
  split.
  - cbv zeta. split; [vm_compute; reflexivity |]. split; [vm_compute; reflexivity |].
    split; [vm_compute; reflexivity |].
    vm_compute. split; [reflexivity | discriminate].
  - split; [| reflexivity].
    intro H. vm_compute in H. discriminate.
Qed.

Section DegenerateCacheProofs.
Context `{platform : Platform}.

Lemma buildCache_degenerate_contract (layer : Layer) (cw ch : Q) (c : Cache.t) :
  cache layer = Some c -> cw <= 0 \/ ch <= 0 ->
  degenerateCache (buildCache layer cw ch).
Proof.
  intros Hc Hd. unfold degenerateCache.
  rewrite (buildCache_degenerate layer cw ch c Hc Hd). simpl.
  split; [reflexivity |].
  destruct (Cache.canvas c); [split; reflexivity | exact I].
Qed.

(** C7 (as amended).  For a text layer whose measured block has no width
    or no height, and for an image layer whose base mipmap has a non-zero
    width and a height (or width) that is zero or negative,
    [updateLayerCache] marks the cache valid, shrinks an existing cache
    canvas to 0 by 0, and [drawLayers] then draws nothing for the layer.
    For an image layer without mipmaps or with a zero-width base mipmap it
    marks the cache invalid instead and leaves the canvas as it was.  The
    worker's [renderLayer] throws "Invalid cache dimensions." when a rounded
    cache dimension is zero or negative. *)
Theorem degenerate_cache (layer : Layer) (d : LayerData) :
  (ltype layer = TextLayer ->
   let metrics := getTextBlockMetrics (text layer) (font layer) (fontSize layer) in
   maxWidth metrics <= 0 \/ totalHeight metrics <= 0 ->
   degenerateCache (updateLayerCache layer)
   /\ drawableCanvas (updateLayerCache layer) = None)
  /\ (forall base rest,
        ltype layer = ImageLayer -> mipmaps layer = base :: rest ->
        ~ Canvas.width base == 0 ->
        Canvas.width base <= 0 \/ Canvas.height base <= 0 ->
        degenerateCache (updateLayerCache layer)
        /\ drawableCanvas (updateLayerCache layer) = None)
  /\ (ltype layer = ImageLayer ->
      mipmaps layer = []
      \/ (exists base rest, mipmaps layer = base :: rest /\ Canvas.width base == 0) ->
      cache (updateLayerCache layer) = invalidated (cache layer))
  /\ (Math_round (contentWidth d + renderLayerPadding d * 2) <= 0
      \/ Math_round (contentHeight d + renderLayerPadding d * 2) <= 0 ->
      renderLayer d = Thrown "Invalid cache dimensions.").
Proof.
  split.
  { intros Hty metrics Hd.
    assert (Hdeg : degenerateCache (updateLayerCache layer)).
    { rewrite (updateLayerCache_text layer Hty). cbv zeta. fold metrics.
      destruct (cache layer) as [c |] eqn:Hc.
      - apply (buildCache_degenerate_contract _ _ _ c); [exact Hc | exact Hd].
      - apply (buildCache_degenerate_contract _ _ _ (Cache.mk None false));
          [reflexivity | exact Hd]. }
    split; [exact Hdeg | apply degenerate_draws_nothing; exact Hdeg]. }
  split.
  { intros base rest Hty Hm Hw Hd.
    assert (Hdeg : degenerateCache (updateLayerCache layer)).
    { rewrite (updateLayerCache_image layer base rest Hty Hm Hw).
      destruct (cache layer) as [c |] eqn:Hc.
      - apply (buildCache_degenerate_contract _ _ _ c); [exact Hc | exact Hd].
      - apply (buildCache_degenerate_contract _ _ _ (Cache.mk None false));
          [reflexivity | exact Hd]. }
    split; [exact Hdeg | apply degenerate_draws_nothing; exact Hdeg]. }
  split.
  { intros Hty Hm. unfold updateLayerCache.
    destruct Hm as [Hm | (base & rest & Hm & Hw)].
    - destruct (cache layer) as [c |] eqn:Hc; cbn [ltype mipmaps setCache];
        rewrite Hty, Hm; unfold setValid; cbn [cache setCache]; rewrite ?Hc;
        reflexivity.
    - apply Qeq_bool_iff in Hw.
      destruct (cache layer) as [c |] eqn:Hc; cbn [ltype mipmaps setCache];
        rewrite Hty, Hm, Hw; unfold setValid; cbn [cache setCache]; rewrite ?Hc;
        reflexivity. }
  intro Hd. unfold renderLayer.
  assert (E : (Qleb (Math_round (contentWidth d + renderLayerPadding d * 2)) 0
               || Qleb (Math_round (contentHeight d + renderLayerPadding d * 2)) 0)%bool
              = true).
  { apply orb_true_iff. destruct Hd; [left | right]; apply Qleb_true; assumption. }
  rewrite E. reflexivity.
Qed.

End DegenerateCacheProofs.

Lemma degenerate_cache_witness :
  degenerateCache (updateLayerCache (platform := refPlatform) (sampleText "t" 0 0 10 ""))
  /\ degenerateCache
       (updateLayerCache (platform := refPlatform)
          (sampleImage "f" 0 0 10 false (Canvas.mk 10 0 (fun _ _ => 0%Z))))
  /\ cache (updateLayerCache (platform := refPlatform) zeroMipmapLayer)
     = Some (Cache.mk None false)
  /\ renderLayer (mkLayerData TextLayer noShadow noBorder 0 0)
     = Thrown "Invalid cache dimensions.".
Proof.
  pose proof (degenerate_cache (platform := refPlatform) (sampleText "t" 0 0 10 "")
                (mkLayerData TextLayer noShadow noBorder 0 0)) as H1.
  pose proof (degenerate_cache (platform := refPlatform)
                (sampleImage "f" 0 0 10 false (Canvas.mk 10 0 (fun _ _ => 0%Z)))
                (mkLayerData TextLayer noShadow noBorder 0 0)) as H2.
  pose proof (degenerate_cache (platform := refPlatform) zeroMipmapLayer
                (mkLayerData TextLayer noShadow noBorder 0 0)) as H3.
  destruct H1 as (Htxt & _ & _ & Hworker).
  destruct H2 as (_ & Himg & _). destruct H3 as (_ & _ & Hinv & _).
  split; [apply Htxt; [reflexivity | left; discriminate] |].
  split; [apply (Himg (Canvas.mk 10 0 (fun _ _ => 0%Z)) []);
          [reflexivity | reflexivity | discriminate | right; discriminate] |].
  split; [apply Hinv; [reflexivity |
          right; exists emptyRaster, []; split; reflexivity] |].
  apply Hworker. left. discriminate.
Defined.

(** C7, the claim as stated, fails for an image layer whose base mipmap is
    0 by 0: [updateLayerCache] marks its cache invalid, not valid; and the
    worker's [renderLayer] throws on content of zero size. *)
Lemma degenerate_cache_counterexample :
  ~ degenerateCache (updateLayerCache (platform := refPlatform) zeroMipmapLayer)
  /\ renderLayer (mkLayerData ImageLayer noShadow noBorder 0 0)
     = Thrown "Invalid cache dimensions.".
Proof.
  split; [| reflexivity].
  unfold degenerateCache. simpl. intros [H _]. discriminate.
Qed.

(** ** The compositor draws bottom-up *)

Section CompositorProofs.
Context `{platform : Platform}.
Variable Surface : Type.
Variable drawImage : Surface -> DrawCmd -> Surface.
Variable isFinalRender : bool.
Variable now : Q.

Abbreviation draw := (drawLayer Surface drawImage isFinalRender now).
Abbreviation composite := (compositeTopFirst Surface drawImage isFinalRender now).

Lemma composite_snoc (ctx : Surface) (ls : list Layer) (l : Layer) :
  composite ctx (ls ++ [l]) = composite (draw ctx (ensureCache l)) ls.
Proof.
  induction ls as [| a ls IH]; simpl; [reflexivity |].
  rewrite IH. reflexivity.
Qed.

Lemma length_setNth (i : nat) (v : Layer) (ls : list Layer) :
  List.length (setNth i v ls) = List.length ls.
Proof.
  revert ls. induction i as [| i IH]; intros [| a ls]; simpl; try reflexivity.
  rewrite IH. reflexivity.
Qed.

Lemma firstn_setNth (i : nat) (v : Layer) (ls : list Layer) :
  firstn i (setNth i v ls) = firstn i ls.
Proof.
  revert ls. induction i as [| i IH]; intros [| a ls]; simpl; try reflexivity.
  rewrite IH. reflexivity.
Qed.

Lemma skipn_setNth (i : nat) (v l : Layer) (ls : list Layer) :
  nth_error ls i = Some l ->
  skipn i (setNth i v ls) = v :: skipn (S i) ls.
Proof.
  revert ls. induction i as [| i IH]; intros [| a ls]; simpl; try discriminate.
  - reflexivity.
  - intro H. apply IH. exact H.
Qed.

Lemma firstn_S_nth (i : nat) (l : Layer) (ls : list Layer) :
  nth_error ls i = Some l -> firstn (S i) ls = firstn i ls ++ [l].
Proof.
  revert ls. induction i as [| i IH]; intros [| a ls]; simpl; try discriminate.
  - intro H. inversion H. reflexivity.
  - intro H. f_equal. apply IH. exact H.
Qed.

(** After the iterations [k - 1, ..., 0] the first [k] layers are rebuilt
    and painted, the one at index 0 last. *)
Lemma drawLayersFrom_spec (k : nat) :
  forall (ls : list Layer) (ctx : Surface),
    (k <= List.length ls)%nat ->
    drawLayersFrom Surface drawImage isFinalRender now k (ls, ctx)
    = (map ensureCache (firstn k ls) ++ skipn k ls, composite ctx (firstn k ls)).
Proof.
  induction k as [| i IH]; intros ls ctx Hk.
  - reflexivity.
  - destruct (nth_error ls i) as [l |] eqn:Hn.
    + cbn [drawLayersFrom]. rewrite Hn.
      rewrite IH by (rewrite length_setNth; lia).
      rewrite firstn_setNth, (skipn_setNth i _ l ls Hn).
      rewrite (firstn_S_nth i l ls Hn).
      rewrite map_app, <- app_assoc, composite_snoc. reflexivity.
    + apply nth_error_None in Hn. lia.
Qed.

End CompositorProofs.

Section ZOrder.
Context `{platform : Platform}.




End ZOrder.

(** Three stacked layers are drawn "low", "mid", "top". *)
Example drawLayers_three_layers :
  map cmdLayer
    (snd (drawLayers (platform := refPlatform) DisplayList recordDraw []
            threeLayers true 0))
  = ["low"; "mid"; "top"]%string.
Proof. vm_compute. reflexivity. Qed.

(** ** Hit testing *)

Section HitTestProofs.
Context `{platform : Platform}.

Lemma hitTestScan_spec (point : Point) (ls : list Layer) (top : option Layer) :
  hitTestScan point ls top
  = match find (fun l => isPointInMovieLayer point l && isPixelOpaqueAtPoint l point)%bool ls with
    | Some l =>
        (Some l,
         match top with
         | Some _ => top
         | None => find (fun l => isPointInMovieLayer point l) ls
         end)
    | None =>
        (None,
         match top with
         | Some _ => top
         | None => find (fun l => isPointInMovieLayer point l) ls
         end)
    end.
Proof.
  revert top. induction ls as [| a ls IH]; intro top; simpl.
  - destruct top; reflexivity.
  - destruct (isPointInMovieLayer point a) eqn:Hin; simpl.
    + destruct (isPixelOpaqueAtPoint a point) eqn:Hop.
      * destruct top; reflexivity.
      * rewrite IH.
        destruct (find _ ls); destruct top; reflexivity.
    + apply IH.
Qed.

(** The selection logic of the pointer-down handler: the first layer, top
    to bottom, that contains the point and that [isPixelOpaqueAtPoint]
    finds opaque there, else the topmost layer that contains the point. *)
Lemma hitTest_logic (point : Point) (ls : list Layer) :
  hitTest point ls = selectFirstOpaque isPixelOpaqueAtPoint point ls.
Proof.
  unfold hitTest, selectFirstOpaque. rewrite hitTestScan_spec.
  destruct (find _ ls); reflexivity.
Qed.

(** [isPixelOpaqueAtPoint] and the worded opacity agree on layers that are
    not mirrored. *)
Lemma opaque_agree_unflipped (l : Layer) (point : Point) :
  flipX l = false -> isPixelOpaqueAtPoint l point = pixelOpaqueInverseFlip l point.
Proof.
  intro Hf. unfold isPixelOpaqueAtPoint, pixelOpaqueInverseFlip, rasterCoordsInverseFlip.
  rewrite Hf. destruct (ltype l); [| reflexivity].
  destruct (mipmaps l); reflexivity.
Qed.

End HitTestProofs.

(** C3 (the code at the failing input).  "A" is mirrored and lies over "B".
    At the click the mirrored "A" shows an opaque pixel, so the worded hit
    test selects "A"; [isPixelOpaqueAtPoint] rotates the point back but
    does not mirror it back, reads the clear half of the raster of "A", and
    the pointer-down handler selects "B". *)
Theorem hitTest_ignores_flip :
  pixelOpaqueInverseFlip (platform := refPlatform)
    (sampleImage "A" 100 100 100 true leftHalfRaster) clickRightOfCentre = true
  /\ isPixelOpaqueAtPoint (platform := refPlatform)
       (sampleImage "A" 100 100 100 true leftHalfRaster) clickRightOfCentre = false
  /\ option_map id
       (selectFirstOpaque (platform := refPlatform) (pixelOpaqueInverseFlip (platform := refPlatform))
          clickRightOfCentre flippedOverOpaque) = Some "A"%string
  /\ option_map id (hitTest (platform := refPlatform) clickRightOfCentre flippedOverOpaque)
     = Some "B"%string.
Proof. vm_compute. repeat split; reflexivity. Qed.

(** ** Re-anchoring the layers when the background changes *)

Section ReanchorProofs.
Context `{platform : Platform}.


Lemma ltype_setValid (b : bool) (l : Layer) : ltype (setValid b l) = ltype l.
Proof. unfold setValid. destruct (cache l); reflexivity. Qed.





End ReanchorProofs.



(** ** Corner resize keeps the opposite corner *)

Section ResizeProofs.
Context `{platform : Platform}.

Lemma Qeq_bool_scaled (a a' f : Q) :
  0 < f -> a' == a * f -> Qeq_bool a' 0 = Qeq_bool a 0.
Proof.
  intros Hf E.
  destruct (Qeq_bool a 0) eqn:A.
  - apply Qeq_bool_iff in A. apply Qeq_bool_iff. rewrite E, A. ring.
  - apply Qeq_bool_false in A. apply Qeq_bool_false. intro E0.
    apply A. rewrite E in E0.
    destruct (Qmult_integral _ _ E0) as [Ha | Hf0]; [exact Ha | lra].
Qed.

Lemma cornerOf_scaled (hn : HandleName) (dW dH dW' dH' f : Q) :
  dW' == dW * f -> dH' == dH * f ->
  match cornerOf hn dW dH, cornerOf hn dW' dH' with
  | Some c, Some c' => px c' == px c * f /\ py c' == py c * f
  | None, None => True
  | _, _ => False
  end.
Proof.
  intros EW EH. destruct hn; simpl; try exact I;
    rewrite EW, EH; split; field.
Qed.

(** A layer moved and scaled by [f] about the position [a] of one of its
    handles has that handle at [a] again. *)
Lemma handle_stays (l l' : Layer) (f : Q) (hn : HandleName) :
  0 < f ->
  rot l' = rot l ->
  fst (getLayerMetrics l') == fst (getLayerMetrics l) * f ->
  snd (getLayerMetrics l') == snd (getLayerMetrics l) * f ->
  fst (frameOffset l') == fst (frameOffset l) * f ->
  snd (frameOffset l') == snd (frameOffset l) * f ->
  x l' == px (getHandleWorldPosition l hn)
          + (x l - px (getHandleWorldPosition l hn)) * f ->
  y l' == py (getHandleWorldPosition l hn)
          + (y l - py (getHandleWorldPosition l hn)) * f ->
  px (getHandleWorldPosition l' hn) == px (getHandleWorldPosition l hn)
  /\ py (getHandleWorldPosition l' hn) == py (getHandleWorldPosition l hn).
Proof.
  intros Hf Hrot.
  unfold getHandleWorldPosition. rewrite Hrot.
  destruct (getLayerMetrics l) as [dW dH].
  destruct (getLayerMetrics l') as [dW' dH'].
  destruct (frameOffset l) as [oX oY].
  destruct (frameOffset l') as [oX' oY'].
  cbn [fst snd]. intros EW EH EoX EoY.
  rewrite (Qeq_bool_scaled dW dW' f Hf EW), (Qeq_bool_scaled dH dH' f Hf EH).
  destruct (Qeq_bool dW 0 || Qeq_bool dH 0)%bool.
  - cbn [px py]. intros Ex Ey. rewrite Ex, Ey. split; ring.
  - pose proof (cornerOf_scaled hn dW dH dW' dH' f EW EH) as Hc.
    destruct (cornerOf hn dW dH) as [c |]; destruct (cornerOf hn dW' dH') as [c' |];
      try contradiction.
    + destruct Hc as [Ecx Ecy]. cbn [px py]. intros Ex Ey.
      rewrite Ex, Ey, EoX, EoY, Ecx, Ecy. split; ring.
    + cbn [px py]. intros Ex Ey. rewrite Ex, Ey. split; ring.
Qed.


(** The layer that the two actions of a resize move leave under the id of
    the active layer. *)
Lemma afterResizeMove_found (cs : CanvasState) (g : ResizeGesture) (l : Layer)
    (point : Point) :
  findLayer (id l) (layers cs) = Some l ->
  1 < Math_hypot (px (startHandlePoint g) - px (anchorPoint g))
                 (py (startHandlePoint g) - py (anchorPoint g)) ->
  let f := resizeScaleFactor g point in
  let newX := px (anchorPoint g) + (x (initialState g) - px (anchorPoint g)) * f in
  let newY := py (anchorPoint g) + (y (initialState g) - py (anchorPoint g)) * f in
  let moved := setNum Fld.y newY (setNum Fld.x newX l) in
  afterResizeMove cs g l point
  = Some (setCache (invalidated (cache moved))
            (match ltype l with
             | TextLayer =>
                 setNum Fld.fontSize (Math_max 10 (fontSize (initialState g) * f)) moved
             | ImageLayer =>
                 setNum Fld.size (Math_max 20 (size (initialState g) * f)) moved
             end)).
Proof.
  intros Hfind Hdist f newX newY moved.
  unfold afterResizeMove, handleMovieInteractionMove_resize.
  apply Qgtb_true in Hdist. cbn [px py]. rewrite Hdist.
  fold f. fold newX newY.
  destruct (ltype l) eqn:Hty; unfold dispatchAll; cbn [fold_left];
    cbn [canvasStateReducer layersReducer layers setLayers].
  - apply (edit_finds
             (fun l0 => setCache (invalidated (cache l0))
                          (assign (PNum Fld.size (Math_max 20 (size (initialState g) * f))) l0))
             (id l) (fun l0 => eq_refl)).
    apply (edit_finds (spread [PNum Fld.x newX; PNum Fld.y newY]) (id l)
             (fun l0 => id_spread [PNum Fld.x newX; PNum Fld.y newY] l0 eq_refl)).
    exact Hfind.
  - apply (edit_finds
             (fun l0 => setCache (invalidated (cache l0))
                          (assign (PNum Fld.fontSize (Math_max 10 (fontSize (initialState g) * f))) l0))
             (id l) (fun l0 => eq_refl)).
    apply (edit_finds (spread [PNum Fld.x newX; PNum Fld.y newY]) (id l)
             (fun l0 => id_spread [PNum Fld.x newX; PNum Fld.y newY] l0 eq_refl)).
    exact Hfind.
Qed.


Lemma image_resized_scales (l lk : Layer) (c : option Cache.t) (nx ny v f : Q) :
  sameContent l lk -> ltype l = ImageLayer -> v == size l * f ->
  let l' := setCache c (setNum Fld.size v (setNum Fld.y ny (setNum Fld.x nx lk))) in
  fst (getLayerMetrics l') == fst (getLayerMetrics l) * f
  /\ snd (getLayerMetrics l') == snd (getLayerMetrics l) * f
  /\ fst (frameOffset l') == fst (frameOffset l) * f
  /\ snd (frameOffset l') == snd (frameOffset l) * f.
Proof.
  intros (_ & Ety & _ & _ & _ & Efr & Emip) Hty Hv l'.
  unfold l', getLayerMetrics, frameOffset.
  cbn [ltype contentFrame mipmaps setCache setNum]. rewrite Ety, Efr, Emip, Hty.
  destruct (contentFrame l) as [fr |]; destruct (mipmaps l) as [| base rest];
    cbn [fst snd]; try (repeat split; ring).
  unfold size. cbn [num setCache setNum num_beq]. fold (size l).
  rewrite Hv. unfold Qdiv. repeat split; ring.
Qed.

Lemma text_resized_scales (l lk : Layer) (c : option Cache.t) (nx ny v f : Q) :
  sameContent l lk -> ltype l = TextLayer -> textScales l v f ->
  let l' := setCache c (setNum Fld.fontSize v (setNum Fld.y ny (setNum Fld.x nx lk))) in
  fst (getLayerMetrics l') == fst (getLayerMetrics l) * f
  /\ snd (getLayerMetrics l') == snd (getLayerMetrics l) * f
  /\ fst (frameOffset l') == fst (frameOffset l) * f
  /\ snd (frameOffset l') == snd (frameOffset l) * f.
Proof.
  intros (_ & Ety & _ & Etext & Efont & _ & _) Hty [Hw Hh] l'.
  unfold l', getLayerMetrics, frameOffset.
  cbn [ltype contentFrame mipmaps setCache setNum]. rewrite Ety, Hty.
  change (text (setCache c (setNum Fld.fontSize v (setNum Fld.y ny (setNum Fld.x nx lk)))))
    with (text lk).
  change (font (setCache c (setNum Fld.fontSize v (setNum Fld.y ny (setNum Fld.x nx lk)))))
    with (font lk).
  rewrite Etext, Efont.
  cbn [fst snd]. split; [exact Hw |]. split; [exact Hh |]. split; ring.
Qed.

Lemma resizeScaleFactor_pos (g : ResizeGesture) (point : Point) :
  0 < resizeScaleFactor g point.
Proof.
  unfold resizeScaleFactor, Math_max.
  eapply Qlt_le_trans; [| apply Q.le_max_l]. reflexivity.
Qed.

Lemma Math_max_inactive (lo v : Q) : lo <= v -> Math_max lo v == v.
Proof. intro H. unfold Math_max. apply Q.max_r. exact H. Qed.

(** *** The pointer moves of a gesture *)

Lemma getActiveLayer_found (app : App) (l : Layer) :
  getActiveLayer app = Some l ->
  activeLayerId app = Some (id l)
  /\ findLayer (id l) (layers (canvasState app)) = Some l.
Proof.
  unfold getActiveLayer.
  destruct (activeLayerId app) as [i |]; [| discriminate].
  intro Hfind. pose proof Hfind as Hid. unfold findLayer in Hid.
  apply find_some in Hid. destruct Hid as [_ Hid].
  apply String.eqb_eq in Hid. subst i. split; [reflexivity | exact Hfind].
Qed.

(** The two actions of a resize move go through the root reducer as through
    the canvas state reducer, and leave the selection alone. *)
Lemma resize_actions_dispatched (g : ResizeGesture) (l : Layer) (point : Point)
    (app : App) :
  let app' := fold_left rootReducer (handleMovieInteractionMove_resize g l point) app in
  activeLayerId app' = activeLayerId app
  /\ canvasState app'
     = dispatchAll (canvasState app) (handleMovieInteractionMove_resize g l point).
Proof.
  unfold handleMovieInteractionMove_resize.
  destruct (Qgtb _ 1); [| split; reflexivity].
  destruct (ltype l); split; reflexivity.
Qed.

(** One pointer move: the layer it leaves selected. *)
Lemma handleMovieInteractionMove_active (g : ResizeGesture) (app : App)
    (lk : Layer) (point : Point) :
  getActiveLayer app = Some lk ->
  1 < Math_hypot (px (startHandlePoint g) - px (anchorPoint g))
                 (py (startHandlePoint g) - py (anchorPoint g)) ->
  let f := resizeScaleFactor g point in
  let newX := px (anchorPoint g) + (x (initialState g) - px (anchorPoint g)) * f in
  let newY := py (anchorPoint g) + (y (initialState g) - py (anchorPoint g)) * f in
  let moved := setNum Fld.y newY (setNum Fld.x newX lk) in
  getActiveLayer (handleMovieInteractionMove g app point)
  = Some (setCache (invalidated (cache moved))
            (match ltype lk with
             | TextLayer =>
                 setNum Fld.fontSize (Math_max 10 (fontSize (initialState g) * f)) moved
             | ImageLayer =>
                 setNum Fld.size (Math_max 20 (size (initialState g) * f)) moved
             end)).
Proof.
  intros Hact Hdist f newX newY moved.
  destruct (getActiveLayer_found app lk Hact) as [Hid Hfind].
  unfold handleMovieInteractionMove. rewrite Hact.
  destruct (resize_actions_dispatched g lk point app) as [Ea Ec].
  unfold getActiveLayer. rewrite Ea, Ec, Hid.
  exact (afterResizeMove_found (canvasState app) g lk point Hfind Hdist).
Qed.

(** Whatever the earlier pointer positions were, the selected layer is
    still the layer the gesture started on, moved and resized. *)
Lemma pointerMoves_active (g : ResizeGesture) (l : Layer) (points : list Point) :
  forall (app : App) (lk : Layer),
    getActiveLayer app = Some lk -> sameContent l lk ->
    exists lk', getActiveLayer (pointerMoves g app points) = Some lk'
                /\ sameContent l lk'.
Proof.
  induction points as [| p points IH]; intros app lk Hact Hsame.
  - exists lk. split; [exact Hact | exact Hsame].
  - unfold pointerMoves. cbn [fold_left]. fold (pointerMoves g (handleMovieInteractionMove g app p) points).
    destruct (Qgtb (Math_hypot (px (startHandlePoint g) - px (anchorPoint g))
                               (py (startHandlePoint g) - py (anchorPoint g))) 1) eqn:Hd.
    + apply Qgtb_true in Hd.
      pose proof (handleMovieInteractionMove_active g app lk p Hact Hd) as Hstep.
      cbv zeta in Hstep.
      refine (IH _ _ Hstep _).
      assert (Hs : forall F v c nx ny,
                 F = Fld.size \/ F = Fld.fontSize ->
                 sameContent l
                   (setCache c (setNum F v (setNum Fld.y ny (setNum Fld.x nx lk))))).
      { intros F v c nx ny HF.
        destruct Hsame as (E1 & E2 & E3 & E4 & E5 & E6 & E7).
        destruct HF as [-> | ->]; repeat split;
          first [exact E1 | exact E2 | exact E3 | exact E4 | exact E5 | exact E6
                | exact E7]. }
      destruct (ltype lk); apply Hs; [left | right]; reflexivity.
    + assert (Hsame' : handleMovieInteractionMove g app p = app).
      { unfold handleMovieInteractionMove. rewrite Hact.
        unfold handleMovieInteractionMove_resize. cbn [px py]. rewrite Hd.
        reflexivity. }
      rewrite Hsame'. exact (IH app lk Hact Hsame).
Qed.

Lemma sameContent_refl (l : Layer) : sameContent l l.
Proof. repeat split. Qed.

(** C2 (as amended).  In a corner-resize gesture that starts with the
    dragged handle more than one unit from the opposite corner, take any
    pointer position [point] of the gesture, after any earlier positions.
    The move to [point] places the centre at anchorPoint plus the initial
    anchor-to-centre vector times the factor [f], which is the projection of
    the pointer vector onto the initial anchor-to-handle vector divided by
    its length, unless that is below 0.01.  If at [point] the scaled size
    stays at or above the minimum (20 for the width of an image, 10 for the
    font size of a text layer), whether or not it did at the earlier
    positions, the size is the initial size scaled by [f] too, and the
    opposite corner is exactly where it was when the gesture started: for
    every image layer, and for a text layer whose measured block scales with
    its font size. *)
Theorem resize_keeps_opposite_corner (app : App) (l : Layer)
    (h : HandleName) (start : Point) (earlier : list Point) (point : Point) :
  let g := handleMovieInteractionStart_resize l h start in
  let f := resizeScaleFactor g point in
  let vx := px (startHandlePoint g) - px (anchorPoint g) in
  let vy := py (startHandlePoint g) - py (anchorPoint g) in
  let projected :=
    ((px point - px (anchorPoint g)) * vx + (py point - py (anchorPoint g)) * vy)
    / Math_hypot vx vy / Math_hypot vx vy in
  getActiveLayer app = Some l ->
  1 < Math_hypot vx vy ->
  (forall base rest, mipmaps l = base :: rest -> ~ Canvas.width base == 0) ->
  (ltype l = ImageLayer -> 20 <= size l * f) ->
  (ltype l = TextLayer ->
   10 <= fontSize l * f /\ textScales l (Math_max 10 (fontSize l * f)) f) ->
  exists l',
    getActiveLayer (pointerMoves g app (earlier ++ [point])) = Some l'
    /\ x l' == px (anchorPoint g) + (x l - px (anchorPoint g)) * f
    /\ y l' == py (anchorPoint g) + (y l - py (anchorPoint g)) * f
    /\ (ltype l = ImageLayer -> size l' == size l * f)
    /\ (ltype l = TextLayer -> fontSize l' == fontSize l * f)
    /\ px (getHandleWorldPosition l' (oppositeHandles h)) == px (anchorPoint g)
    /\ py (getHandleWorldPosition l' (oppositeHandles h)) == py (anchorPoint g)
    /\ ((1 # 100) <= projected -> f == projected).
Proof.
  intros g f vx vy projected Hact Hdist _ Himg Htxt.
  destruct (pointerMoves_active g l earlier app l Hact (sameContent_refl l))
    as (lk & Hk & Hsame).
  pose proof (handleMovieInteractionMove_active g (pointerMoves g app earlier) lk point
                Hk Hdist) as Hfound.
  cbv zeta in Hfound. fold f in Hfound.
  change (initialState g) with l in Hfound.
  assert (Hmoves : pointerMoves g app (earlier ++ [point])
                   = handleMovieInteractionMove g (pointerMoves g app earlier) point).
  { unfold pointerMoves. rewrite fold_left_app. reflexivity. }
  rewrite <- Hmoves in Hfound. clear Hmoves Hk.
  pose proof (resizeScaleFactor_pos g point) as Hf. fold f in Hf.
  set (newX := px (anchorPoint g) + (x l - px (anchorPoint g)) * f) in *.
  set (newY := py (anchorPoint g) + (y l - py (anchorPoint g)) * f) in *.
  assert (Hproj : (1 # 100) <= projected -> f == projected).
  { intro Hp. unfold f, resizeScaleFactor. cbn [px py].
    apply Math_max_inactive. exact Hp. }
  assert (Hrot : rot lk = rot l) by (destruct Hsame as (_ & _ & E & _); exact E).
  assert (Ety : ltype lk = ltype l) by (destruct Hsame as (_ & E & _); exact E).
  rewrite Ety in Hfound.
  destruct (ltype l) eqn:Hty.
  - specialize (Himg eq_refl).
    pose proof (Math_max_inactive 20 (size l * f) Himg) as Hv.
    eexists. split; [exact Hfound |].
    split; [reflexivity |]. split; [reflexivity |].
    split; [intros _; exact Hv |]. split; [discriminate |].
    destruct (image_resized_scales l lk
                (invalidated (cache (setNum Fld.y newY (setNum Fld.x newX lk))))
                newX newY (Math_max 20 (size l * f)) f Hsame Hty Hv)
      as (EW & EH & EoX & EoY).
    match type of Hfound with _ = Some ?L => set (l' := L) in * end.
    destruct (handle_stays l l' f (oppositeHandles h) Hf Hrot EW EH EoX EoY)
      as [Hax Hay]; [reflexivity | reflexivity |].
    split; [exact Hax |]. split; [exact Hay | exact Hproj].
  - specialize (Htxt eq_refl). destruct Htxt as [Hmin Hscale].
    pose proof (Math_max_inactive 10 (fontSize l * f) Hmin) as Hv.
    eexists. split; [exact Hfound |].
    split; [reflexivity |]. split; [reflexivity |].
    split; [discriminate |]. split; [intros _; exact Hv |].
    destruct (text_resized_scales l lk
                (invalidated (cache (setNum Fld.y newY (setNum Fld.x newX lk))))
                newX newY (Math_max 10 (fontSize l * f)) f Hsame Hty Hscale)
      as (EW & EH & EoX & EoY).
    match type of Hfound with _ = Some ?L => set (l' := L) in * end.
    destruct (handle_stays l l' f (oppositeHandles h) Hf Hrot EW EH EoX EoY)
      as [Hax Hay]; [reflexivity | reflexivity |].
    split; [exact Hax |]. split; [exact Hay | exact Hproj].
Qed.

End ResizeProofs.

(** The photo dragged by its bottom-right handle through (64, 73), where
    the size clamp is active, and (200, 10), then to (180, 160): the width
    is 120 and the top-left corner is at (60, 70), as before the gesture.
    The caption dragged through (130, 95) to (180, 120) keeps its top-left
    corner at (90, 90). *)
Lemma resize_keeps_opposite_corner_witness :
  (exists l',
     getActiveLayer
       (pointerMoves (platform := refPlatform)
          (handleMovieInteractionStart_resize (platform := refPlatform) photo br
             (mkPoint 140 130))
          (photoApp "photo") [mkPoint 64 73; mkPoint 200 10; mkPoint 180 160])
     = Some l'
     /\ size l' == 120
     /\ px (getHandleWorldPosition (platform := refPlatform) l' tl) == 60
     /\ py (getHandleWorldPosition (platform := refPlatform) l' tl) == 70
     /\ resizeScaleFactor (platform := refPlatform)
          (handleMovieInteractionStart_resize (platform := refPlatform) photo br
             (mkPoint 140 130)) (mkPoint 180 160) == 3 # 2)
  /\ (exists l',
        getActiveLayer
          (pointerMoves (platform := refPlatform)
             (handleMovieInteractionStart_resize (platform := refPlatform) caption br
                (mkPoint 150 110))
             (photoApp "caption") [mkPoint 130 95; mkPoint 180 120])
        = Some l'
        /\ px (getHandleWorldPosition (platform := refPlatform) l' tl) == 90
        /\ py (getHandleWorldPosition (platform := refPlatform) l' tl) == 90).
Proof.
  split.
  - destruct (resize_keeps_opposite_corner (platform := refPlatform) (photoApp "photo")
                photo br (mkPoint 140 130) [mkPoint 64 73; mkPoint 200 10]
                (mkPoint 180 160))
      as (l' & Hfound & _ & _ & Hsize & _ & Hax & Hay & Hproj).
    + reflexivity.
    + vm_compute. reflexivity.
    + intros base rest E. inversion E. subst. discriminate.
    + intros _. vm_compute. discriminate.
    + intro E. discriminate E.
    + exists l'. split; [exact Hfound |].
      split; [rewrite (Hsize eq_refl); vm_compute; reflexivity |].
      split; [rewrite Hax; vm_compute; reflexivity |].
      split; [rewrite Hay; vm_compute; reflexivity |].
      rewrite Hproj by (vm_compute; discriminate). vm_compute. reflexivity.
  - destruct (resize_keeps_opposite_corner (platform := refPlatform) (photoApp "caption")
                caption br (mkPoint 150 110) [mkPoint 130 95] (mkPoint 180 120))
      as (l' & Hfound & _ & _ & _ & _ & Hax & Hay & _).
    + reflexivity.
    + vm_compute. reflexivity.
    + discriminate.
    + intro E. discriminate E.
    + intros _. split; [vm_compute; discriminate |].
      vm_compute. split; reflexivity.
    + exists l'. split; [exact Hfound |].
      split; [rewrite Hax | rewrite Hay]; vm_compute; reflexivity.
Defined.

(** C2, the claim as stated, fails when the size clamp is active: the 80
    wide photo dragged by its bottom-right handle to (64, 73), a factor of
    1/20, moves its centre by that factor but keeps a width of 20, and its
    top-left corner leaves (60, 70) for (52, 64). *)
Lemma resize_clamped_counterexample :
  let g := handleMovieInteractionStart_resize (platform := refPlatform) photo br
             (mkPoint 140 130) in
  px (anchorPoint g) == 60 /\ py (anchorPoint g) == 70
  /\ match getActiveLayer
             (pointerMoves (platform := refPlatform) g (photoApp "photo")
                [mkPoint 64 73]) with
     | Some l' =>
         size l' == 20
         /\ px (getHandleWorldPosition (platform := refPlatform) l' tl) == 52
         /\ py (getHandleWorldPosition (platform := refPlatform) l' tl) == 64
         /\ ~ px (getHandleWorldPosition (platform := refPlatform) l' tl)
              == px (anchorPoint g)
     | None => False
     end.
Proof.
  vm_compute. repeat split; try reflexivity. discriminate.
Qed.

(** ** The layer stack: reordering, adding and deleting *)

Lemma findIndex_Some {A : Type} (f : A -> bool) (l : list A) (i : nat) :
  findIndex f l = Some i ->
  exists a, nth_error l i = Some a /\ f a = true
            /\ forall k b, (k < i)%nat -> nth_error l k = Some b -> f b = false.
Proof.
  revert i. induction l as [| a r IH]; intros i H; simpl in H.
  - discriminate.
  - destruct (f a) eqn:Fa.
    + inversion H; subst. exists a. split; [reflexivity |]. split; [exact Fa |].
      intros k b Hk. lia.
    + destruct (findIndex f r) as [i' |] eqn:E; [| discriminate].
      simpl in H. inversion H; subst.
      destruct (IH i' eq_refl) as (a' & Hn & Fa' & Hlt).
      exists a'. split; [exact Hn |]. split; [exact Fa' |].
      intros k b Hk Hb. destruct k as [| k].
      * simpl in Hb. inversion Hb; subst. exact Fa.
      * simpl in Hb. apply (Hlt k b); [lia | exact Hb].
Qed.

Lemma findIndex_None {A : Type} (f : A -> bool) (l : list A) :
  findIndex f l = None <-> forall a, In a l -> f a = false.
Proof.
  induction l as [| a r IH]; simpl.
  - split; [intros _ b [] | reflexivity].
  - destruct (f a) eqn:Fa.
    + split; [discriminate |]. intro H. rewrite (H a) in Fa by (left; reflexivity).
      discriminate.
    + destruct (findIndex f r) as [i |] eqn:E; simpl.
      * split; [discriminate |]. intro H.
        assert (Hn : Some i = None); [| discriminate Hn].
        apply IH. intros b Hb. apply H. right. exact Hb.
      * split; [| reflexivity]. intros _ b [<- | Hb]; [exact Fa |].
        apply IH; [reflexivity | exact Hb].
Qed.

Lemma findIndex_insertAt {A : Type} (f : A -> bool) (l : list A) (a : A) (j : nat) :
  (forall b, In b l -> f b = false) -> f a = true -> (j <= List.length l)%nat ->
  findIndex f (insertAt j a l) = Some j.
Proof.
  revert j. induction l as [| b r IH]; intros j Hl Fa Hj.
  - destruct j; simpl in *; [rewrite Fa; reflexivity | lia].
  - destruct j as [| j]; simpl.
    + rewrite Fa. reflexivity.
    + rewrite (Hl b) by (left; reflexivity).
      rewrite IH; [reflexivity | | exact Fa | simpl in Hj; lia].
      intros c Hc. apply Hl. right. exact Hc.
Qed.

Lemma removeAt_perm {A : Type} (l : list A) (i : nat) (a : A) :
  nth_error l i = Some a -> Permutation l (a :: removeAt i l).
Proof.
  revert i. induction l as [| b r IH]; intros i H.
  - destruct i; discriminate.
  - destruct i as [| i]; simpl in *.
    + inversion H; subst. apply Permutation_refl.
    + apply Permutation_trans with (b :: a :: removeAt i r).
      * apply perm_skip. apply IH. exact H.
      * apply perm_swap.
Qed.

Lemma insertAt_perm {A : Type} (l : list A) (j : nat) (a : A) :
  Permutation (insertAt j a l) (a :: l).
Proof.
  revert j. induction l as [| b r IH]; intros j.
  - destruct j; apply Permutation_refl.
  - destruct j as [| j]; simpl.
    + apply Permutation_refl.
    + apply Permutation_trans with (b :: a :: r).
      * apply perm_skip. apply IH.
      * apply perm_swap.
Qed.

Lemma length_removeAt {A : Type} (l : list A) (i : nat) :
  (i < List.length l)%nat -> S (List.length (removeAt i l)) = List.length l.
Proof.
  revert i. induction l as [| b r IH]; intros i H; simpl in *.
  - lia.
  - destruct i as [| i]; simpl; [reflexivity |]. rewrite IH by lia. reflexivity.
Qed.

Lemma nth_error_insertAt {A : Type} (l : list A) (j : nat) (a : A) :
  (j <= List.length l)%nat -> nth_error (insertAt j a l) j = Some a.
Proof.
  revert j. induction l as [| b r IH]; intros j H.
  - destruct j; simpl in *; [reflexivity | lia].
  - destruct j as [| j]; simpl in *; [reflexivity |]. apply IH. lia.
Qed.

Lemma removeAt_insertAt {A : Type} (l : list A) (j : nat) (a : A) :
  (j <= List.length l)%nat -> removeAt j (insertAt j a l) = l.
Proof.
  revert j. induction l as [| b r IH]; intros j H.
  - destruct j; simpl in *; [reflexivity | lia].
  - destruct j as [| j]; simpl in *; [reflexivity |]. rewrite IH by lia. reflexivity.
Qed.

Lemma insertAt_removeAt {A : Type} (l : list A) (i : nat) (a : A) :
  nth_error l i = Some a -> insertAt i a (removeAt i l) = l.
Proof.
  revert i. induction l as [| b r IH]; intros i H.
  - destruct i; discriminate.
  - destruct i as [| i]; simpl in *.
    + inversion H; subst. destruct r; reflexivity.
    + rewrite IH by exact H. reflexivity.
Qed.

(** The shape of a reorder that takes place: the layer found at index [i]
    is spliced out and spliced back in at index [i + delta]. *)
Lemma reorder_moves (ls : list Layer) (layerId : string) (delta : Z) (i : nat) :
  findIndex (fun l => String.eqb (id l) layerId) ls = Some i ->
  (0 <= Z.of_nat i + delta < Z.of_nat (List.length ls))%Z ->
  exists item,
    nth_error ls i = Some item /\ id item = layerId
    /\ layersReducer ls (LAYER_REORDERED layerId delta)
       = insertAt (Z.to_nat (Z.of_nat i + delta)) item (removeAt i ls).
Proof.
  intros Hf Hr. destruct (findIndex_Some _ _ _ Hf) as (item & Hn & Hid & _).
  exists item. split; [exact Hn |]. split; [apply String.eqb_eq; exact Hid |].
  simpl. rewrite Hf.
  replace ((Z.of_nat i + delta <? 0)%Z) with false by (symmetry; apply Z.ltb_ge; lia).
  replace ((Z.of_nat i + delta >=? Z.of_nat (List.length ls))%Z) with false
    by (symmetry; rewrite Z.geb_leb; apply Z.leb_gt; lia).
  simpl. rewrite Hn. reflexivity.
Qed.

(** A reorder only rearranges the stack. *)
Lemma reorder_perm (ls : list Layer) (layerId : string) (delta : Z) :
  Permutation (layersReducer ls (LAYER_REORDERED layerId delta)) ls.
Proof.
  simpl.
  destruct (findIndex (fun l => String.eqb (id l) layerId) ls) as [i |] eqn:Hf;
    [| apply Permutation_refl].
  destruct ((Z.of_nat i + delta <? 0)%Z
            || (Z.of_nat i + delta >=? Z.of_nat (List.length ls))%Z)%bool;
    [apply Permutation_refl |].
  destruct (nth_error ls i) as [item |] eqn:Hn; [| apply Permutation_refl].
  apply Permutation_trans with (item :: removeAt i ls).
  - apply insertAt_perm.
  - apply Permutation_sym. apply removeAt_perm. exact Hn.
Qed.

(** X1.  Whatever the id and the offset, [LAYER_REORDERED] only rearranges
    the stack: the new array is a permutation of the old one, so no layer is
    lost or duplicated and the length is kept. *)
Theorem reorder_is_permutation (ls : list Layer) (layerId : string) (delta : Z) :
  Permutation (layersReducer ls (LAYER_REORDERED layerId delta)) ls
  /\ List.length (layersReducer ls (LAYER_REORDERED layerId delta)) = List.length ls.
Proof.
  split; [apply reorder_perm | apply Permutation_length; apply reorder_perm].
Qed.

(** X2.  When the layer is found at index [i] and [i + delta] is an index
    of the array, the layer lands at index [i + delta] and the other layers
    keep their relative order: taking the moved layer out of the new array
    gives the old array without it. *)
Theorem reorder_moves_layer (ls : list Layer) (layerId : string) (delta : Z) (i : nat) :
  findIndex (fun l => String.eqb (id l) layerId) ls = Some i ->
  (0 <= Z.of_nat i + delta < Z.of_nat (List.length ls))%Z ->
  let ls' := layersReducer ls (LAYER_REORDERED layerId delta) in
  let j := Z.to_nat (Z.of_nat i + delta) in
  nth_error ls' j = nth_error ls i
  /\ option_map id (nth_error ls' j) = Some layerId
  /\ removeAt j ls' = removeAt i ls.
Proof.
  intros Hf Hr ls' j.
  destruct (reorder_moves ls layerId delta i Hf Hr) as (item & Hn & Hid & E).
  unfold ls'. rewrite E. fold j.
  assert (Hi : (i < List.length ls)%nat) by (apply nth_error_Some; congruence).
  assert (Hj : (j <= List.length (removeAt i ls))%nat).
  { pose proof (length_removeAt ls i Hi). unfold j. lia. }
  rewrite nth_error_insertAt by exact Hj.
  split; [symmetry; exact Hn |]. split; [simpl; rewrite Hid; reflexivity |].
  apply removeAt_insertAt. exact Hj.
Qed.

Lemma reorder_moves_layer_witness :
  map id (layersReducer stackABC (LAYER_REORDERED "a" 2)) = ["b"; "c"; "a"]%string
  /\ option_map id (nth_error (layersReducer stackABC (LAYER_REORDERED "a" 2)) 2)
     = Some "a"%string
  /\ map id (removeAt 2 (layersReducer stackABC (LAYER_REORDERED "a" 2)))
     = ["b"; "c"]%string.
Proof.
  destruct (reorder_moves_layer stackABC "a" 2 0) as (_ & H2 & H3).
  - reflexivity.
  - simpl. lia.
  - split; [reflexivity |]. split; [exact H2 |].
    change (Z.to_nat (Z.of_nat 0 + 2)) with 2%nat in H3. rewrite H3. reflexivity.
Defined.

(** A reorder that cannot take place changes nothing: an id that no
    layer has, or a target index before the first or after the last layer
    (the topmost layer moved forward, the bottom one moved backward). *)
Lemma reorder_edge_is_noop (ls : list Layer) (layerId : string) (delta : Z) :
  ((forall l, In l ls -> id l <> layerId) ->
   layersReducer ls (LAYER_REORDERED layerId delta) = ls)
  /\ (forall i, findIndex (fun l => String.eqb (id l) layerId) ls = Some i ->
        (Z.of_nat i + delta < 0 \/ Z.of_nat (List.length ls) <= Z.of_nat i + delta)%Z ->
        layersReducer ls (LAYER_REORDERED layerId delta) = ls).
Proof.
  split.
  - intro H. simpl.
    assert (E : findIndex (fun l => String.eqb (id l) layerId) ls = None).
    { apply findIndex_None. intros a Ha. apply String.eqb_neq. apply H. exact Ha. }
    rewrite E. reflexivity.
  - intros i Hf Hr. simpl. rewrite Hf.
    destruct Hr as [Hr | Hr].
    + replace ((Z.of_nat i + delta <? 0)%Z) with true
        by (symmetry; apply Z.ltb_lt; exact Hr).
      reflexivity.
    + replace ((Z.of_nat i + delta >=? Z.of_nat (List.length ls))%Z) with true
        by (symmetry; rewrite Z.geb_leb; apply Z.leb_le; exact Hr).
      rewrite orb_true_r. reflexivity.
Qed.

Lemma reorder_edge_is_noop_witness :
  layersReducer stackABC (LAYER_REORDERED "zz" 1) = stackABC
  /\ layersReducer stackABC (LAYER_REORDERED "a" (-1)) = stackABC
  /\ layersReducer stackABC (LAYER_REORDERED "c" 1) = stackABC.
Proof.
  split; [| split].
  - apply (proj1 (reorder_edge_is_noop stackABC "zz" 1)).
    intros l [<- | [<- | [<- | []]]]; discriminate.
  - apply (proj2 (reorder_edge_is_noop stackABC "a" (-1)) 0%nat).
    + reflexivity.
    + left. simpl. lia.
  - apply (proj2 (reorder_edge_is_noop stackABC "c" 1) 2%nat).
    + reflexivity.
    + right. simpl. lia.
Defined.

(** X3.  With distinct layer ids, a reorder that takes place is undone by
    the reorder of the same layer with the opposite offset. *)
Theorem reorder_undo (ls : list Layer) (layerId : string) (delta : Z) (i : nat) :
  NoDup (map id ls) ->
  findIndex (fun l => String.eqb (id l) layerId) ls = Some i ->
  (0 <= Z.of_nat i + delta < Z.of_nat (List.length ls))%Z ->
  layersReducer (layersReducer ls (LAYER_REORDERED layerId delta))
    (LAYER_REORDERED layerId (- delta)) = ls.
Proof.
  intros Hnd Hf Hr.
  destruct (reorder_moves ls layerId delta i Hf Hr) as (item & Hn & Hid & E).
  rewrite E. set (j := Z.to_nat (Z.of_nat i + delta)).
  assert (Hi : (i < List.length ls)%nat) by (apply nth_error_Some; congruence).
  pose proof (length_removeAt ls i Hi) as Hlen.
  assert (Hj : (j <= List.length (removeAt i ls))%nat) by (unfold j; lia).
  assert (Hothers : forall b, In b (removeAt i ls) ->
                      String.eqb (id b) layerId = false).
  { intros b Hb. apply String.eqb_neq. intro Eb.
    pose proof (removeAt_perm ls i item Hn) as P.
    apply (Permutation_map id) in P. apply (Permutation_NoDup P) in Hnd.
    simpl in Hnd. inversion Hnd as [| ? ? Hnotin _].
    apply Hnotin. rewrite Hid, <- Eb. apply in_map. exact Hb. }
  assert (Hf' : findIndex (fun l => String.eqb (id l) layerId)
                  (insertAt j item (removeAt i ls)) = Some j).
  { apply findIndex_insertAt; [exact Hothers | | exact Hj].
    apply String.eqb_eq. exact Hid. }
  assert (Hlen' : List.length (insertAt j item (removeAt i ls)) = List.length ls).
  { rewrite (Permutation_length (insertAt_perm (removeAt i ls) j item)).
    simpl. exact Hlen. }
  destruct (reorder_moves (insertAt j item (removeAt i ls)) layerId (- delta) j Hf')
    as (item' & Hn' & _ & E').
  { rewrite Hlen'. unfold j. lia. }
  rewrite E'. rewrite nth_error_insertAt in Hn' by exact Hj.
  inversion Hn'; subst item'.
  rewrite removeAt_insertAt by exact Hj.
  replace (Z.to_nat (Z.of_nat j + - delta)) with i by (unfold j; lia).
  apply insertAt_removeAt. exact Hn.
Qed.

Lemma reorder_undo_witness :
  layersReducer (layersReducer stackABC (LAYER_REORDERED "a" 2))
    (LAYER_REORDERED "a" (- (2))) = stackABC.
Proof.
  apply (reorder_undo stackABC "a" 2 0).
  - simpl. repeat constructor; simpl; intuition discriminate.
  - reflexivity.
  - simpl. lia.
Defined.

(** ** Adding, deleting and the selection *)

Lemma filter_keeps_all {T : Type} (keep : T -> bool) (xs : list T) :
  Forall (fun t => keep t = true) xs -> filter keep xs = xs.
Proof.
  intro H. induction H as [| t xs Ht _ IH]; simpl; [reflexivity |].
  rewrite Ht, IH. reflexivity.
Qed.

(** X4.  Adding a layer whose id is new puts it on top of the stack and
    selects it; deleting it again restores the stack and leaves nothing
    selected. *)
Theorem add_then_delete (app : App) (newLayer : Layer) :
  (forall l, In l (layers (canvasState app)) -> id l <> id newLayer) ->
  let added := dispatch (LAYER_ADDED newLayer) app in
  let deleted := dispatch (LAYER_DELETED (id newLayer)) added in
  layers (canvasState added) = newLayer :: layers (canvasState app)
  /\ activeLayerId added = Some (id newLayer)
  /\ layers (canvasState deleted) = layers (canvasState app)
  /\ activeLayerId deleted = None.
Proof.
  intros Hnew added deleted.
  split; [reflexivity |]. split; [reflexivity |].
  split.
  - unfold deleted, added, dispatch, rootReducer. simpl.
    rewrite String.eqb_refl. simpl.
    assert (E : filter (fun l => idDiffers l (id newLayer)) (layers (canvasState app))
                = layers (canvasState app)).
    { apply filter_keeps_all. apply Forall_forall.
      intros a Ha. apply idDiffers_true. apply Hnew. exact Ha. }
    unfold idDiffers at 1. rewrite String.eqb_refl. simpl.
    destruct (activeLayerId app); simpl; exact E.
  - unfold deleted, added, dispatch, rootReducer. simpl.
    rewrite String.eqb_refl. reflexivity.
Qed.

Lemma add_then_delete_witness :
  let added := dispatch (LAYER_ADDED (sampleText "d" 10 10 20 "new")) appABC in
  let deleted := dispatch (LAYER_DELETED "d") added in
  map id (layers (canvasState added)) = ["d"; "a"; "b"; "c"]%string
  /\ activeLayerId added = Some "d"%string
  /\ layers (canvasState deleted) = stackABC
  /\ activeLayerId deleted = None.
Proof.
  destruct (add_then_delete appABC (sampleText "d" 10 10 20 "new"))
    as (H1 & H2 & H3 & H4).
  - intros l [<- | [<- | [<- | []]]]; discriminate.
  - split; [reflexivity |]. split; [exact H2 |]. split; [exact H3 | exact H4].
Defined.







(** A payload with an [id] entry renames the layer it edits, and the
    selection then names no layer: the reducer copies every key of the
    payload.  The statements on the ids ask for a payload without such an
    entry for this reason. *)
Lemma rename_leaves_selection_dangling :
  let app' := rootReducer appABC (LAYER_TRANSFORMED "b" [PId "z"]) in
  activeLayerExists appABC = true
  /\ map id (layers (canvasState app')) = ["a"; "z"; "c"]%string
  /\ activeLayerId app' = Some "b"%string
  /\ activeLayerExists app' = false.
Proof. vm_compute. repeat split; reflexivity. Qed.

(** ** Cache invalidation by the reducer *)

Section InvalidationProofs.
Context `{platform : Platform}.

Lemma Forall2_map_r {A B : Type} (R : A -> B -> Prop) (f : A -> B) (l : list A) :
  (forall a, R a (f a)) -> Forall2 R l (map f l).
Proof.
  intro H. induction l as [| a r IH]; simpl; constructor; [apply H | exact IH].
Qed.

Lemma invalidated_stale (l : Layer) (c : option Cache.t) :
  cache l = invalidated c ->
  cacheStale l = true /\ ensureCache l = updateLayerCache l.
Proof.
  intro H. assert (S : cacheStale l = true).
  { unfold cacheStale. rewrite H. destruct c; reflexivity. }
  split; [exact S |]. unfold ensureCache. rewrite S. reflexivity.
Qed.

(** X6.  Every edit of a layer's properties, shadow or border (previewed
    or final), a refit, an optimisation result and an explicit invalidation
    mark the cache of the layers with the payload's id invalid while keeping
    the cache canvas, so that the next [drawLayers] rebuilds exactly those
    caches; every other layer is the object that was there.  The edited
    layers keep their id when the payload has no [id] entry. *)
Theorem edit_invalidates_cache (ls : list Layer) (action : Action) (layerId : string) :
  invalidatesCacheOf action = Some layerId ->
  Forall2
    (fun l l' =>
       (payloadKeepsId action = true -> id l' = id l)
       /\ if idDiffers l layerId then l' = l
          else cache l' = invalidated (cache l)
               /\ cacheStale l' = true
               /\ ensureCache l' = updateLayerCache l')
    ls (layersReducer ls action).
Proof.
  intro H.
  destruct action; try discriminate; simpl in H; inversion H; subst; simpl;
    apply Forall2_map_r; intro l;
    (destruct (idDiffers l layerId);
     [split; reflexivity
     | split;
       [intro K; simpl;
        first [apply id_assign; exact K | apply id_spread; exact K | reflexivity]
       | split; [reflexivity | apply (invalidated_stale _ (cache l)); reflexivity]]]).
Qed.

Lemma cache_spread (props : list LayerProp) (l : Layer) :
  noCacheProp props = true -> cache (spread props l) = cache l.
Proof.
  unfold spread. revert l.
  induction props as [| p r IH]; intros l H; simpl in *; [reflexivity |].
  apply andb_prop in H. destruct H as [Hp Hr].
  rewrite IH by exact Hr. destruct p; try reflexivity. discriminate.
Qed.

(** X7.  A [LAYER_TRANSFORMED] whose payload has no [cache] entry never
    touches a cache: moving, rotating or resizing through it leaves every
    layer's effect cache, valid or not, as it was.  The payload of the
    pointer-up handler is such a payload. *)
Theorem transform_keeps_cache (ls : list Layer) (layerId : string)
    (props : list LayerProp) :
  noCacheProp props = true ->
  map cache (layersReducer ls (LAYER_TRANSFORMED layerId props)) = map cache ls
  /\ map cacheStale (layersReducer ls (LAYER_TRANSFORMED layerId props))
     = map cacheStale ls.
Proof.
  intro H.
  assert (E : map cache (layersReducer ls (LAYER_TRANSFORMED layerId props))
              = map cache ls).
  { simpl. rewrite map_map. apply map_ext. intro l.
    destruct (idDiffers l layerId); [reflexivity | apply cache_spread; exact H]. }
  split; [exact E |].
  revert E. generalize (layersReducer ls (LAYER_TRANSFORMED layerId props)).
  intros ls' E. revert ls' E.
  induction ls as [| a r IH]; intros [| a' r'] E; simpl in *;
    try discriminate; [reflexivity |].
  inversion E as [[Ea Er]]. rewrite (IH r' Er). f_equal.
  unfold cacheStale. rewrite Ea. reflexivity.
Qed.

End InvalidationProofs.

Lemma edit_invalidates_cache_witness :
  Forall2
    (fun l l' =>
       (true = true -> id l' = id l)
       /\ if idDiffers l "b" then l' = l
          else cache l' = invalidated (cache l)
               /\ cacheStale l' = true
               /\ ensureCache (platform := refPlatform) l'
                  = updateLayerCache (platform := refPlatform) l')
    stackABC
    (layersReducer stackABC (LAYER_SHADOW_PREVIEW_CHANGED "b" (SBlur 4))).
Proof.
  apply (edit_invalidates_cache (platform := refPlatform) stackABC
           (LAYER_SHADOW_PREVIEW_CHANGED "b" (SBlur 4)) "b").
  reflexivity.
Defined.

Lemma transform_keeps_cache_witness :
  map cache (layersReducer stackABC
               (LAYER_TRANSFORMED "a"
                  (handleMovieInteractionEnd_payload (platform := refPlatform) 800 600
                     (sampleImage "a" 100 100 100 false opaqueRaster))))
  = map cache stackABC.
Proof.
  apply (transform_keeps_cache stackABC "a"
           (handleMovieInteractionEnd_payload (platform := refPlatform) 800 600
              (sampleImage "a" 100 100 100 false opaqueRaster))).
  reflexivity.
Defined.

(** ** Geometry: pan constraint, canvas size and bounding boxes *)

(** Names every [Qmax] and [Qmin] of the goal and of the hypotheses, keeps
    what [Q.max_spec] and [Q.min_spec] say of it, and splits the cases. *)
Ltac q_name_minmax :=
  repeat match goal with
  | |- context [Qmax ?a ?b] =>
      let m := fresh "m" in
      pose proof (Q.max_spec a b); set (m := Qmax a b) in *; clearbody m
  | H : context [Qmax ?a ?b] |- _ =>
      let m := fresh "m" in
      pose proof (Q.max_spec a b); set (m := Qmax a b) in *; clearbody m
  | |- context [Qmin ?a ?b] =>
      let m := fresh "m" in
      pose proof (Q.min_spec a b); set (m := Qmin a b) in *; clearbody m
  | H : context [Qmin ?a ?b] |- _ =>
      let m := fresh "m" in
      pose proof (Q.min_spec a b); set (m := Qmin a b) in *; clearbody m
  end.

Ltac q_minmax :=
  unfold max4, min4, Math_max, Math_min in *; q_name_minmax;
  repeat match goal with
  | H : _ \/ _ |- _ => destruct H as [[? ?] | [? ?]]
  end.

Lemma clamp_twice (lo v : Q) :
  Math_max lo (Math_min (Math_max lo (Math_min v 0)) 0) == Math_max lo (Math_min v 0).
Proof. q_minmax; lra. Qed.

(** X8.  Constraining the pan is idempotent: a pan that [_constrainPan]
    returned is returned unchanged when constrained again at the same
    scale, so the pan handlers can apply it at every step. *)
Theorem constrainPan_idempotent (movieCanvas : option Bitmap.t) (panX panY scale : Q) :
  let p := _constrainPan movieCanvas panX panY scale in
  let p' := _constrainPan movieCanvas (px p) (py p) scale in
  px p' == px p /\ py p' == py p.
Proof.
  unfold _constrainPan. destruct movieCanvas as [c |]; [| split; reflexivity].
  destruct (Qeq_bool (Bitmap.width c) 0); [split; reflexivity |].
  destruct (Qltb scale 1); [split; reflexivity |].
  cbn [px py]. split; apply clamp_twice.
Qed.

Lemma fdiv_by_zero (a b : Q) : b == 0 -> fdiv a b == 0.
Proof.
  intro E. unfold fdiv. apply roundToDouble_zero.
  rewrite E. unfold Qdiv. change (/ 0) with 0. ring.
Qed.

(** The quotient of [c] by the rounded ratio of [w] to [h], rounded, as
    [setBackground] and [downloadImage] compute the second dimension. *)
Lemma fdiv_by_ratio (c w h : Q) :
  0 <= c -> 0 < w -> 0 <= h ->
  c * h / w * (1 - 3 * pow2 (-53)) <= fdiv c (fdiv w h)
  /\ fdiv c (fdiv w h) <= c * h / w * (1 + 3 * pow2 (-53)).
Proof.
  intros Hc Hw Hh.
  destruct (Qlt_le_dec 0 h) as [Hpos | Hz].
  - assert (Ha : 0 < w / h) by (apply Qlt_shift_div_l; lra).
    destruct (fdiv_error w h (Qlt_le_weak _ _ Hw) Hpos) as [L U].
    destruct (fdiv_rounded_divisor c (w / h) (fdiv w h) Hc Ha L U) as [R1 R2].
    assert (E : c / (w / h) == c * h / w) by (field; split; lra).
    rewrite E in R1, R2. split; assumption.
  - assert (E0 : h == 0) by lra.
    assert (E1 : fdiv c (fdiv w h) == 0).
    { apply fdiv_by_zero. apply fdiv_by_zero. exact E0. }
    assert (E2 : c * h / w == 0) by (rewrite E0; field; lra).
    rewrite E1, E2. split; ring_simplify; apply Qle_refl.
Qed.

(** X9.  The canvas [setBackground] sizes is never wider than 1920: a
    master size of at most that width is taken as it is (rounded), and a
    wider one is given the width 1920 and the height that keeps the aspect
    ratio, to the nearest pixel of the quotient as the source computes it:
    the ratio of width to height rounded to a double, and 1920 divided by it
    rounded again, which is within 3 x 2^-53 of the quotient. *)
Theorem canvasSize_capped (w h : Q) :
  fst (canvasSize w h) <= MAX_CANVAS_WIDTH
  /\ (w <= MAX_CANVAS_WIDTH ->
      canvasSize w h = (Math_round w, Math_round h))
  /\ (MAX_CANVAS_WIDTH < w -> 0 <= h ->
      let quotient := MAX_CANVAS_WIDTH * h / w in
      fst (canvasSize w h) == MAX_CANVAS_WIDTH
      /\ quotient * (1 - 3 * pow2 (-53)) - (1 # 2) < snd (canvasSize w h)
      /\ snd (canvasSize w h) <= quotient * (1 + 3 * pow2 (-53)) + (1 # 2)).
Proof.
  unfold canvasSize, MAX_CANVAS_WIDTH.
  destruct (Qgtb w 1920) eqn:E.
  - apply Qgtb_true in E.
    split; [cbn [fst]; vm_compute; discriminate |].
    split; [intro H; lra |]. intros _ Hh. cbn [fst snd].
    split; [vm_compute; reflexivity |].
    assert (Hw : 0 < w) by lra.
    destruct (fdiv_by_ratio 1920 w h) as [R1 R2]; [lra | exact Hw | exact Hh |].
    pose proof (Math_round_near (fdiv 1920 (fdiv w h))) as [N1 N2].
    split; lra.
  - apply Qgtb_false in E. cbn [fst snd].
    split.
    + unfold Math_round. change 1920 with (inject_Z 1920).
      rewrite <- Zle_Qle. apply round_le. exact E.
    + split; [reflexivity | intro H; lra].
Qed.

Lemma canvasSize_capped_witness :
  canvasSize 800 600 = (Math_round 800, Math_round 600)
  /\ fst (canvasSize 3000 1000) == 1920
  /\ snd (canvasSize 3000 1000) == 640
  /\ canvasSize 2048 792 = (1920, 742).
Proof.
  destruct (canvasSize_capped 800 600) as (_ & H1 & _).
  destruct (canvasSize_capped 3000 1000) as (_ & _ & H2).
  split; [apply H1; vm_compute; discriminate |].
  destruct H2 as (H3 & _ & _); [vm_compute; reflexivity | unfold Qle; simpl; lia |].
  split; [exact H3 |]. split; vm_compute; reflexivity.
Defined.

Section BoundingBoxProofs.
Context `{platform : Platform}.

(** X10.  The rotated bounding box of a layer contains the layer's centre
    and has a width and a height that are not negative, whatever the
    rotation and whatever the platform's sine and cosine. *)
Theorem bbox_contains_centre (l : Layer) :
  let b := getRotatedBoundingBox l in
  left b <= x l /\ x l <= right b /\ top b <= y l /\ y l <= bottom b
  /\ 0 <= bwidth b /\ 0 <= bheight b
  /\ bwidth b == right b - left b /\ bheight b == bottom b - top b.
Proof.
  unfold getRotatedBoundingBox.
  destruct (getLayerMetrics l) as [dWidth dHeight].
  destruct (Qeq_bool dWidth 0 || Qeq_bool dHeight 0)%bool.
  - cbn [left right top bottom bwidth bheight].
    repeat (split; [lra |]). lra.
  - cbn [left right top bottom bwidth bheight px py].
    set (c := Math_cos (rot l * Math_PI / 180)).
    set (s := Math_sin (rot l * Math_PI / 180)).
    set (hw := dWidth / 2). set (hh := dHeight / 2).
    assert (Hx : forall a b c' d, Math_min (Math_min (Math_min a b) c') d <= a
              /\ Math_min (Math_min (Math_min a b) c') d <= c'
              /\ a <= Math_max (Math_max (Math_max a b) c') d
              /\ c' <= Math_max (Math_max (Math_max a b) c') d).
    { intros. q_minmax; repeat split; lra. }
    unfold min4, max4.
    destruct (Hx (x l + (- hw * c - - hh * s)) (x l + (hw * c - - hh * s))
                 (x l + (hw * c - hh * s)) (x l + (- hw * c - hh * s)))
      as (X1 & X2 & X3 & X4).
    destruct (Hx (y l + (- hw * s + - hh * c)) (y l + (hw * s + - hh * c))
                 (y l + (hw * s + hh * c)) (y l + (- hw * s + hh * c)))
      as (Y1 & Y2 & Y3 & Y4).
    repeat (split; [lra |]). lra.
Qed.

End BoundingBoxProofs.

Section LayoutProofs.
Context `{platform : Platform}.

Lemma min4_bounds (a b c d : Q) :
  min4 a b c d <= a /\ min4 a b c d <= b /\ min4 a b c d <= c /\ min4 a b c d <= d.
Proof. q_minmax; repeat split; lra. Qed.

Lemma max4_bounds (a b c d : Q) :
  a <= max4 a b c d /\ b <= max4 a b c d /\ c <= max4 a b c d /\ d <= max4 a b c d.
Proof. q_minmax; repeat split; lra. Qed.

Lemma min4_translate (a b c d a' b' c' d' k : Q) :
  a' == a + k -> b' == b + k -> c' == c + k -> d' == d + k ->
  min4 a' b' c' d' == min4 a b c d + k.
Proof. intros. q_minmax; lra. Qed.

Lemma max4_translate (a b c d a' b' c' d' k : Q) :
  a' == a + k -> b' == b + k -> c' == c + k -> d' == d + k ->
  max4 a' b' c' d' == max4 a b c d + k.
Proof. intros. q_minmax; lra. Qed.

(** X11.  The corner handles of a layer whose content frame is centred on
    it (a text layer, or an image layer whose frame is the whole raster)
    lie inside the layer's rotated bounding box. *)
Theorem handles_in_bbox (l : Layer) (h : HandleName) :
  fst (frameOffset l) == 0 -> snd (frameOffset l) == 0 ->
  let b := getRotatedBoundingBox l in
  let p := getHandleWorldPosition l h in
  left b <= px p /\ px p <= right b /\ top b <= py p /\ py p <= bottom b.
Proof.
  intros Hox Hoy.
  unfold getRotatedBoundingBox, getHandleWorldPosition.
  destruct (getLayerMetrics l) as [dWidth dHeight].
  destruct (Qeq_bool dWidth 0 || Qeq_bool dHeight 0)%bool.
  - cbn [left right top bottom px py]. repeat split; lra.
  - destruct (frameOffset l) as [offsetX offsetY]. cbn [fst snd] in Hox, Hoy.
    cbn [left right top bottom px py].
    set (c := Math_cos (rot l * Math_PI / 180)).
    set (s := Math_sin (rot l * Math_PI / 180)).
    set (hw := dWidth / 2). set (hh := dHeight / 2).
    pose proof (min4_bounds (x l + (- hw * c - - hh * s)) (x l + (hw * c - - hh * s))
                 (x l + (hw * c - hh * s)) (x l + (- hw * c - hh * s)))
      as (X1 & X2 & X3 & X4).
    pose proof (max4_bounds (x l + (- hw * c - - hh * s)) (x l + (hw * c - - hh * s))
                 (x l + (hw * c - hh * s)) (x l + (- hw * c - hh * s)))
      as (X5 & X6 & X7 & X8).
    pose proof (min4_bounds (y l + (- hw * s + - hh * c)) (y l + (hw * s + - hh * c))
                 (y l + (hw * s + hh * c)) (y l + (- hw * s + hh * c)))
      as (Y1 & Y2 & Y3 & Y4).
    pose proof (max4_bounds (y l + (- hw * s + - hh * c)) (y l + (hw * s + - hh * c))
                 (y l + (hw * s + hh * c)) (y l + (- hw * s + hh * c)))
      as (Y5 & Y6 & Y7 & Y8).
    assert (N1 : - dWidth / 2 == - hw) by (unfold hw; field).
    assert (N2 : - dHeight / 2 == - hh) by (unfold hh; field).
    destruct h; cbn [cornerOf px py]; rewrite ?N1, ?N2; fold hw hh;
      rewrite ?Hox, ?Hoy; repeat split; lra.
Qed.

(** Moving a layer moves its bounding box with it. *)
Lemma bbox_translate (l l' : Layer) (kx ky : Q) :
  getLayerMetrics l' = getLayerMetrics l -> rot l' = rot l ->
  x l' == x l + kx -> y l' == y l + ky ->
  let b := getRotatedBoundingBox l in
  let b' := getRotatedBoundingBox l' in
  left b' == left b + kx /\ right b' == right b + kx
  /\ top b' == top b + ky /\ bottom b' == bottom b + ky.
Proof.
  intros Hm Hr Hx Hy. unfold getRotatedBoundingBox. rewrite Hm, Hr.
  destruct (getLayerMetrics l) as [dWidth dHeight].
  destruct (Qeq_bool dWidth 0 || Qeq_bool dHeight 0)%bool.
  - cbn [left right top bottom]. repeat split; assumption.
  - cbn [left right top bottom px py].
    repeat split;
      first [apply min4_translate | apply max4_translate];
      first [rewrite Hx | rewrite Hy]; ring.
Qed.

(** The width and the height of the box are the distances of its sides. *)
Lemma bbox_size (l : Layer) :
  let b := getRotatedBoundingBox l in
  bwidth b == right b - left b /\ bheight b == bottom b - top b.
Proof.
  unfold getRotatedBoundingBox.
  destruct (getLayerMetrics l) as [dWidth dHeight].
  destruct (Qeq_bool dWidth 0 || Qeq_bool dHeight 0)%bool;
    cbn [left right top bottom bwidth bheight]; split; ring.
Qed.

Lemma bbox_setValid (b : bool) (l : Layer) :
  getRotatedBoundingBox (setValid b l) = getRotatedBoundingBox l.
Proof. unfold setValid. destruct (cache l); reflexivity. Qed.

(** [relayoutLayer] places the layer by its proportional fields and then
    shifts it along each axis. *)
Lemma relayoutLayer_shape (W H : Q) (l : Layer) :
  relayoutLayer W H (Math_sqrt (W * H)) l
  = let p := placedByProps W H l in
    let bbox := getRotatedBoundingBox p in
    setValid false
      (setNum Fld.y (y p + shiftInto (top bbox) (bottom bbox) H)
         (setNum Fld.x (x p + shiftInto (left bbox) (right bbox) W) p)).
Proof.
  unfold relayoutLayer, placedByProps, shiftInto. destruct (ltype l); reflexivity.
Qed.

(** X12.  After a background change no layer is left hanging over an edge
    it could avoid: a layer whose bounding box, at the place its
    proportional fields give it, is no wider and no higher than the new
    canvas is shifted by [setBackground] so that the box lies inside the
    canvas. *)
Theorem relayout_stays_on_canvas (W H : Q) (l : Layer) :
  let placed := getRotatedBoundingBox (placedByProps W H l) in
  bwidth placed <= W -> bheight placed <= H ->
  fitsCanvas W H (relayoutLayer W H (Math_sqrt (W * H)) l).
Proof.
  intros placed HW HH. unfold fitsCanvas.
  rewrite relayoutLayer_shape. cbv zeta. rewrite bbox_setValid.
  fold placed.
  pose proof (bbox_size (placedByProps W H l)) as (Ew & Eh).
  fold placed in Ew, Eh.
  set (deltaX := shiftInto (left placed) (right placed) W).
  set (deltaY := shiftInto (top placed) (bottom placed) H).
  destruct (bbox_translate (placedByProps W H l)
              (setNum Fld.y (y (placedByProps W H l) + deltaY)
                 (setNum Fld.x (x (placedByProps W H l) + deltaX)
                    (placedByProps W H l))) deltaX deltaY)
    as (B1 & B2 & B3 & B4); try reflexivity.
  fold placed in B1, B2, B3, B4.
  rewrite B1, B2, B3, B4.
  unfold deltaX, deltaY, shiftInto.
  destruct (Qltb (left placed) 0) eqn:L;
    [apply Qltb_true in L | apply Qltb_false in L];
    (destruct (Qgtb (right placed) W) eqn:R;
     [apply Qgtb_true in R | apply Qgtb_false in R]);
    (destruct (Qltb (top placed) 0) eqn:T;
     [apply Qltb_true in T | apply Qltb_false in T]);
    (destruct (Qgtb (bottom placed) H) eqn:Bo;
     [apply Qgtb_true in Bo | apply Qgtb_false in Bo]);
    repeat split; lra.
Qed.

(** X13.  The proportional fields written at the end of a gesture are
    enough to put the layer back: placing the layer by them on the same
    canvas gives the position and the size it had. *)
Theorem proportions_round_trip (W H : Q) (l : Layer) :
  ~ W == 0 -> ~ H == 0 -> ~ Math_sqrt (W * H) == 0 ->
  let l' := placedByProps W H (spread (handleMovieInteractionEnd_payload W H l) l) in
  x l' == x l /\ y l' == y l /\ size l' == size l /\ fontSize l' == fontSize l.
Proof.
  intros HW HH HD l'.
  set (l0 := spread (handleMovieInteractionEnd_payload W H l) l) in *.
  set (D := Math_sqrt (W * H)) in *.
  assert (T0 : ltype l0 = ltype l) by reflexivity.
  assert (PX : propX l0 = x l / W) by reflexivity.
  assert (PY : propY l0 = y l / H) by reflexivity.
  assert (PS : propSize l0 = match ltype l with
                             | ImageLayer => size l / D
                             | TextLayer => fontSize l / D
                             end) by reflexivity.
  assert (S0 : size l0 = size l) by reflexivity.
  assert (F0 : fontSize l0 = fontSize l) by reflexivity.
  assert (X' : x l' = propX l0 * W)
    by (unfold l', placedByProps; destruct (ltype l0); reflexivity).
  assert (Y' : y l' = propY l0 * H)
    by (unfold l', placedByProps; destruct (ltype l0); reflexivity).
  assert (S' : size l' = match ltype l0 with
                         | ImageLayer => propSize l0 * D
                         | TextLayer => size l0
                         end)
    by (unfold l', placedByProps; destruct (ltype l0); reflexivity).
  assert (F' : fontSize l' = match ltype l0 with
                             | ImageLayer => fontSize l0
                             | TextLayer => propSize l0 * D
                             end)
    by (unfold l', placedByProps; destruct (ltype l0); reflexivity).
  rewrite X', Y', S', F', T0, PX, PY, PS, S0, F0.
  split; [field; exact HW |]. split; [field; exact HH |].
  destruct (ltype l); (split; [try reflexivity; field; exact HD
                              | try reflexivity; field; exact HD]).
Qed.

End LayoutProofs.

Lemma handles_in_bbox_witness :
  let b := getRotatedBoundingBox (platform := refPlatform) photo in
  let p := getHandleWorldPosition (platform := refPlatform) photo br in
  (left b <= px p /\ px p <= right b /\ top b <= py p /\ py p <= bottom b)
  /\ px p == 140 /\ py p == 130.
Proof.
  split.
  - apply (handles_in_bbox (platform := refPlatform) photo br);
      vm_compute; reflexivity.
  - vm_compute. split; reflexivity.
Defined.

(** The layer that hangs over the left and the bottom edge is 100 wide and
    high; placed by its proportional fields at (10, 590) its box starts at
    -40 and ends at 640, and the re-layout moves it to (50, 550). *)
Lemma relayout_stays_on_canvas_witness :
  let placed := getRotatedBoundingBox (platform := refPlatform)
                  (placedByProps (platform := refPlatform) 800 600 edgeLayer) in
  let l' := relayoutLayer (platform := refPlatform) 800 600
              (Math_sqrt (Platform := refPlatform) (800 * 600)) edgeLayer in
  (left placed == - (40) /\ bottom placed == 640)
  /\ (x l' == 50 /\ y l' == 550)
  /\ fitsCanvas (platform := refPlatform) 800 600 l'.
Proof.
  split; [vm_compute; split; reflexivity |].
  split; [vm_compute; split; reflexivity |].
  apply (relayout_stays_on_canvas (platform := refPlatform) 800 600 edgeLayer);
    vm_compute; discriminate.
Defined.

Lemma proportions_round_trip_witness :
  let l' := placedByProps (platform := refPlatform) 800 600
              (spread (handleMovieInteractionEnd_payload (platform := refPlatform)
                         800 600 photo) photo) in
  x l' == 100 /\ y l' == 100 /\ size l' == 80.
Proof.
  destruct (proportions_round_trip (platform := refPlatform) 800 600 photo)
    as (H1 & H2 & H3 & _); try (vm_compute; discriminate).
  split; [rewrite H1; reflexivity |].
  split; [rewrite H2; reflexivity | rewrite H3; reflexivity].
Defined.

(** ** Selection by the pointer *)

Section SelectionProofs.
Context `{platform : Platform}.

(** X14.  The layer a pointer-down selects is a layer of the stack whose
    bounding region contains the point; it is a layer with a transparent
    pixel there only if no layer containing the point has an opaque one;
    and nothing is selected exactly when no layer contains the point. *)
Theorem hitTest_sound_complete (point : Point) (ls : list Layer) :
  (forall l, hitTest point ls = Some l ->
     In l ls /\ isPointInMovieLayer point l = true
     /\ (isPixelOpaqueAtPoint l point = false ->
         forall l', In l' ls -> isPointInMovieLayer point l' = true ->
                    isPixelOpaqueAtPoint l' point = false))
  /\ (hitTest point ls = None <->
      forall l, In l ls -> isPointInMovieLayer point l = false).
Proof.
  rewrite hitTest_logic. unfold selectFirstOpaque.
  destruct (find (fun l => isPointInMovieLayer point l && isPixelOpaqueAtPoint l point)%bool
              ls) as [l0 |] eqn:E1.
  - apply find_some in E1. destruct E1 as [Hin H0].
    apply andb_prop in H0. destruct H0 as [Hp Ho].
    split.
    + intros l E. inversion E; subst l.
      split; [exact Hin |]. split; [exact Hp |].
      intro Hno. rewrite Hno in Ho. discriminate.
    + split; [discriminate |]. intro H.
      rewrite (H l0 Hin) in Hp. discriminate.
  - pose proof (find_none _ _ E1) as Hnone.
    destruct (find (fun l => isPointInMovieLayer point l) ls) as [l1 |] eqn:E2.
    + apply find_some in E2. destruct E2 as [Hin Hp].
      split.
      * intros l E. inversion E; subst l.
        split; [exact Hin |]. split; [exact Hp |].
        intros _ l' Hin' Hp'. specialize (Hnone l' Hin').
        cbv beta in Hnone. rewrite Hp' in Hnone. exact Hnone.
      * split; [discriminate |]. intro H.
        rewrite (H l1 Hin) in Hp. discriminate.
    + split; [discriminate |].
      split; [intros _; apply (find_none _ _ E2) | reflexivity].
Qed.

End SelectionProofs.

Lemma hitTest_sound_complete_witness :
  (exists l, hitTest (platform := refPlatform) clickRightOfCentre flippedOverOpaque = Some l
             /\ In l flippedOverOpaque
             /\ isPointInMovieLayer (platform := refPlatform) clickRightOfCentre l = true)
  /\ hitTest (platform := refPlatform) (mkPoint 500 500) flippedOverOpaque = None.
Proof.
  destruct (hitTest_sound_complete (platform := refPlatform) clickRightOfCentre
              flippedOverOpaque) as [H1 _].
  destruct (hitTest_sound_complete (platform := refPlatform) (mkPoint 500 500)
              flippedOverOpaque) as [_ H2].
  split.
  - exists (sampleImage "B" 100 100 100 false opaqueRaster).
    assert (E : hitTest (platform := refPlatform) clickRightOfCentre flippedOverOpaque
                = Some (sampleImage "B" 100 100 100 false opaqueRaster))
      by (vm_compute; reflexivity).
    destruct (H1 _ E) as (Hin & Hp & _).
    split; [exact E |]. split; [exact Hin | exact Hp].
  - apply H2. intros l [<- | [<- | []]]; vm_compute; reflexivity.
Defined.

(** ** Text measurement *)

Section TextProofs.
Context `{platform : Platform}.

Lemma splitLines_nonempty (cur s : string) : splitLines cur s <> [].
Proof.
  revert cur. induction s as [| c r IH]; intro cur; simpl.
  - discriminate.
  - destruct (Nat.eqb (nat_of_ascii c) 10); [discriminate | apply IH].
Qed.

Lemma measure_fold_nonneg (font : string) (fontSize : Q) (ls : list string)
    (a d w : Q) :
  0 <= a -> 0 <= d -> 0 <= w ->
  let '(a', d', w') :=
    fold_left
      (fun (acc : Q * Q * Q) line =>
         let '(maxAscent, maxDescent, maxWidth) := acc in
         let metrics := measureText font fontSize line in
         (Math_max maxAscent (actualBoundingBoxAscent metrics),
          Math_max maxDescent (actualBoundingBoxDescent metrics),
          Math_max maxWidth (tm_width metrics)))
      ls (a, d, w) in
  0 <= a' /\ 0 <= d' /\ 0 <= w'.
Proof.
  revert a d w. induction ls as [| line r IH]; intros a d w Ha Hd Hw; simpl.
  - repeat split; assumption.
  - apply IH; unfold Math_max.
    + apply Qle_trans with a; [exact Ha | apply Q.le_max_l].
    + apply Qle_trans with d; [exact Hd | apply Q.le_max_l].
    + apply Qle_trans with w; [exact Hw | apply Q.le_max_l].
Qed.

(** X15.  The measured text block: the total height is the number of
    lines times the line height; no measure is negative, whatever the
    platform reports for a line; a blank text measures zero and has no
    line; and a text that is not blank, at a positive font size, has at
    least one line and positive line and total heights (the fallback
    [fontSize * 1.2] stands in when the platform reports no ascent and
    descent). *)
Theorem textBlock_metrics (text font : string) (fontSize : Q) :
  let m := getTextBlockMetrics text font fontSize in
  totalHeight m == inject_Z (Z.of_nat (List.length (lines m))) * lineHeight m
  /\ 0 <= maxWidth m /\ 0 <= ascent m
  /\ (isBlank text = true ->
      lines m = [] /\ maxWidth m == 0 /\ totalHeight m == 0)
  /\ (isBlank text = false -> 0 < fontSize ->
      lines m <> [] /\ 0 < lineHeight m /\ 0 < totalHeight m).
Proof.
  unfold getTextBlockMetrics.
  destruct (isBlank text) eqn:B.
  - cbn [totalHeight lines lineHeight maxWidth ascent List.length].
    split; [vm_compute; reflexivity |].
    split; [apply Qle_refl |]. split; [apply Qle_refl |].
    split; [| intro E; discriminate E].
    intros _. split; [reflexivity |]. split; reflexivity.
  - pose proof (measure_fold_nonneg font fontSize (splitLines EmptyString text) 0 0 0
                  (Qle_refl 0) (Qle_refl 0) (Qle_refl 0)) as Hfold.
    destruct (fold_left _ (splitLines EmptyString text) (0, 0, 0))
      as [[maxAscent maxDescent] maxW] eqn:E.
    destruct Hfold as (Ha & Hd & Hw).
    cbn [totalHeight lines lineHeight maxWidth ascent].
    split; [reflexivity |]. split; [exact Hw |]. split; [exact Ha |].
    split; [intro E'; discriminate E' |].
    intros _ Hfs.
    assert (Hlines : splitLines EmptyString text <> []) by apply splitLines_nonempty.
    split; [exact Hlines |].
    assert (Hlh : 0 < (if Qgtb (maxAscent + maxDescent) 0
                      then maxAscent + maxDescent else fontSize * (12 # 10))).
    { destruct (Qgtb (maxAscent + maxDescent) 0) eqn:G.
      - apply Qgtb_true in G. exact G.
      - lra. }
    split; [exact Hlh |].
    apply Qmult_lt_0_compat; [| exact Hlh].
    destruct (splitLines EmptyString text) as [| l0 r]; [contradiction |].
    change 0 with (inject_Z 0). rewrite <- Zlt_Qlt. simpl List.length. lia.
Qed.

(** X16.  A text layer whose text is blank can be neither hit nor grabbed:
    no point lies in it, and each of its handles is reported at the layer's
    own position. *)
Theorem blank_text_is_inert (l : Layer) (point : Point) (h : HandleName) :
  ltype l = TextLayer -> isBlank (text l) = true ->
  isPointInMovieLayer point l = false
  /\ getHandleWorldPosition l h = mkPoint (x l) (y l)
  /\ getLayerMetrics l = (0, 0).
Proof.
  intros T B.
  assert (M : getLayerMetrics l = (0, 0)).
  { unfold getLayerMetrics, getTextBlockMetrics. rewrite T, B. reflexivity. }
  unfold isPointInMovieLayer, getHandleWorldPosition. rewrite M.
  split; [reflexivity |]. split; reflexivity.
Qed.

End TextProofs.

Lemma textBlock_metrics_witness :
  (let m := getTextBlockMetrics (platform := refPlatform) "ab" "VT323" 10 in
   lines m <> [] /\ 0 < lineHeight m /\ 0 < totalHeight m)
  /\ (let m := getTextBlockMetrics (platform := refPlatform) wideSpaces "VT323" 10 in
      lines m = [] /\ maxWidth m == 0 /\ totalHeight m == 0).
Proof.
  split.
  - destruct (textBlock_metrics (platform := refPlatform) "ab" "VT323" 10)
      as (_ & _ & _ & _ & H).
    apply H; [reflexivity | vm_compute; reflexivity].
  - destruct (textBlock_metrics (platform := refPlatform) wideSpaces "VT323" 10)
      as (_ & _ & _ & H & _).
    apply H. reflexivity.
Defined.

Lemma blank_text_is_inert_witness :
  isPointInMovieLayer (platform := refPlatform) (mkPoint 10 10)
    (sampleText "blank" 10 10 20 "  ") = false.
Proof.
  apply (blank_text_is_inert (platform := refPlatform)
           (sampleText "blank" 10 10 20 "  ") (mkPoint 10 10) tl);
    reflexivity.
Defined.

(** ** The compositor: composition and settling *)

Section CompositorLaws.
Context `{platform : Platform}.
Variable Surface : Type.
Variable drawImage : Surface -> DrawCmd -> Surface.
Variable isFinalRender : bool.
Variable now : Q.

(** [drawLayers] rebuilds the stale caches and composites bottom-up. *)
Lemma drawLayers_spec (ctx : Surface) (ls : list Layer) :
  drawLayers Surface drawImage ctx ls isFinalRender now
  = (map ensureCache ls,
     compositeTopFirst Surface drawImage isFinalRender now ctx ls).
Proof.
  unfold drawLayers.
  rewrite (drawLayersFrom_spec Surface drawImage isFinalRender now
             (List.length ls) ls ctx (le_n _)).
  rewrite firstn_all, skipn_all, app_nil_r. reflexivity.
Qed.

Lemma compositeTopFirst_app (ctx : Surface) (upper lower : list Layer) :
  compositeTopFirst Surface drawImage isFinalRender now ctx (upper ++ lower)
  = compositeTopFirst Surface drawImage isFinalRender now
      (compositeTopFirst Surface drawImage isFinalRender now ctx lower) upper.
Proof.
  induction upper as [| a r IH]; simpl; [reflexivity |]. rewrite IH. reflexivity.
Qed.

(** X17.  Drawing a stack is drawing its lower part and then its upper
    part over the result, and the caches rebuilt are those the two partial
    draws rebuild: the split that the transform caches rely on. *)
Theorem drawLayers_app (ctx : Surface) (upper lower : list Layer) :
  let below := drawLayers Surface drawImage ctx lower isFinalRender now in
  let above := drawLayers Surface drawImage (snd below) upper isFinalRender now in
  drawLayers Surface drawImage ctx (upper ++ lower) isFinalRender now
  = (fst above ++ fst below, snd above).
Proof.
  cbv zeta. rewrite !drawLayers_spec. cbn [fst snd].
  rewrite map_app, compositeTopFirst_app. reflexivity.
Qed.

Lemma ensureCache_idempotent (l : Layer) : ensureCache (ensureCache l) = ensureCache l.
Proof.
  unfold ensureCache. destruct (cacheStale l) eqn:S; [| rewrite S; reflexivity].
  destruct (cacheStale (updateLayerCache l)) eqn:S'; [| reflexivity].
  revert S'. unfold cacheStale, updateLayerCache. cbv zeta.
  destruct (cache l) as [c |] eqn:C.
  - destruct (ltype l) eqn:T.
    + destruct (mipmaps l) as [| baseProxy rest] eqn:M.
      * unfold setValid. rewrite C. cbn [cache setCache ltype mipmaps]. rewrite T, M.
        cbn [cache setCache]. intros _. reflexivity.
      * destruct (Qeq_bool (Canvas.width baseProxy) 0) eqn:Z.
        -- unfold setValid. rewrite C. cbn [cache setCache ltype mipmaps]. rewrite T, M, Z.
           cbn [cache setCache]. intros _. reflexivity.
        -- unfold buildCache. rewrite C.
           destruct (Qleb _ 0 || Qleb _ 0)%bool; cbn [cache setCache Cache.isValid negb];
             intro S'; discriminate S'.
    + unfold buildCache. cbn [cache setNum]. rewrite C.
      destruct (Qleb _ 0 || Qleb _ 0)%bool; cbn [cache setCache Cache.isValid negb];
        intro S'; discriminate S'.
  - cbn [ltype setCache mipmaps cache]. destruct (ltype l) eqn:T.
    + destruct (mipmaps l) as [| baseProxy rest] eqn:M.
      * unfold setValid. cbn [cache setCache ltype mipmaps]. rewrite T, M.
        cbn [cache setCache]. intros _. reflexivity.
      * destruct (Qeq_bool (Canvas.width baseProxy) 0) eqn:Z.
        -- unfold setValid. cbn [cache setCache ltype mipmaps]. rewrite T, M, Z.
           cbn [cache setCache]. intros _. reflexivity.
        -- unfold buildCache. cbn [cache setCache].
           destruct (Qleb _ 0 || Qleb _ 0)%bool; cbn [cache setCache Cache.isValid negb];
             intro S'; discriminate S'.
    + unfold buildCache. cbn [cache setNum setCache].
      destruct (Qleb _ 0 || Qleb _ 0)%bool; cbn [cache setCache Cache.isValid negb];
        intro S'; discriminate S'.
Qed.
Lemma compositeTopFirst_ensured (ctx : Surface) (ls : list Layer) :
  compositeTopFirst Surface drawImage isFinalRender now ctx (map ensureCache ls)
  = compositeTopFirst Surface drawImage isFinalRender now ctx ls.
Proof.
  induction ls as [| a r IH]; simpl; [reflexivity |].
  rewrite IH, ensureCache_idempotent. reflexivity.
Qed.

(** X18.  A frame settles the caches: drawing the layers that a
    [drawLayers] pass left behind rebuilds nothing more and paints what the
    first pass painted. *)
Theorem drawLayers_settles (ctx ctx' : Surface) (ls : list Layer) :
  let firstPass := drawLayers Surface drawImage ctx ls isFinalRender now in
  drawLayers Surface drawImage ctx' (fst firstPass) isFinalRender now
  = (fst firstPass,
     snd (drawLayers Surface drawImage ctx' ls isFinalRender now)).
Proof.
  cbv zeta. rewrite !drawLayers_spec. cbn [fst snd].
  rewrite compositeTopFirst_ensured. f_equal.
  rewrite map_map. apply map_ext. apply ensureCache_idempotent.
Qed.

End CompositorLaws.

(** ** Content bounds *)

Lemma in_upto (n i : Z) : In i (upto n) <-> (0 <= i < n)%Z.
Proof.
  unfold upto. rewrite in_map_iff. split.
  - intros (k & <- & Hk). apply in_seq in Hk. lia.
  - intro H. exists (Z.to_nat i). split; [lia |]. apply in_seq. lia.
Qed.

(** The pixels in the order the two loops visit them. *)
Lemma scanRows_pixels (alpha : Z -> Z -> Z) (xs ys : list Z) (e : Extent) :
  fold_left (fun e y => fold_left (fun e x => scanPixel alpha e y x) xs e) ys e
  = fold_left (fun e p => scanPixel alpha e (snd p) (fst p))
      (flat_map (fun y => map (fun x => (x, y)) xs) ys) e.
Proof.
  revert e. induction ys as [| y r IH]; intro e; simpl; [reflexivity |].
  rewrite fold_left_app, <- IH. f_equal.
  clear. revert e. induction xs as [| x s IH]; intro e; simpl; [reflexivity |].
  apply IH.
Qed.

(** What a scan of any list of pixels does to the extent: it grows to
    hold every content pixel scanned, each of its sides is where it was or
    on a content pixel scanned, and it is unchanged if none is content. *)
Lemma scan_invariant (alpha : Z -> Z -> Z) (ps : list (Z * Z)) (e : Extent) :
  let e' := fold_left (fun e p => scanPixel alpha e (snd p) (fst p)) ps e in
  (minX e' <= minX e /\ minY e' <= minY e /\ maxX e <= maxX e' /\ maxY e <= maxY e')%Z
  /\ (forall x y, In (x, y) ps -> (alpha x y > ALPHA_THRESHOLD)%Z ->
        (minX e' <= x <= maxX e' /\ minY e' <= y <= maxY e')%Z)
  /\ (minX e' = minX e
      \/ exists y, In (minX e', y) ps /\ (alpha (minX e') y > ALPHA_THRESHOLD)%Z)
  /\ (maxX e' = maxX e
      \/ exists y, In (maxX e', y) ps /\ (alpha (maxX e') y > ALPHA_THRESHOLD)%Z)
  /\ (minY e' = minY e
      \/ exists x, In (x, minY e') ps /\ (alpha x (minY e') > ALPHA_THRESHOLD)%Z)
  /\ (maxY e' = maxY e
      \/ exists x, In (x, maxY e') ps /\ (alpha x (maxY e') > ALPHA_THRESHOLD)%Z).
Proof.
  revert e. induction ps as [| [px0 py0] r IH]; intro e; simpl.
  - split; [lia |]. split; [intros x y [] |].
    repeat split; left; reflexivity.
  - specialize (IH (scanPixel alpha e py0 px0)).
    set (e1 := scanPixel alpha e py0 px0) in *.
    set (e' := fold_left _ r e1) in *. cbv zeta in IH.
    destruct IH as (Hmono & Hin & HminX & HmaxX & HminY & HmaxY).
    assert (Hstep :
      (alpha px0 py0 > ALPHA_THRESHOLD)%Z
      /\ minX e1 = Z.min px0 (minX e) /\ minY e1 = Z.min py0 (minY e)
      /\ maxX e1 = Z.max px0 (maxX e) /\ maxY e1 = Z.max py0 (maxY e)
      \/ (alpha px0 py0 <= ALPHA_THRESHOLD)%Z /\ e1 = e).
    { unfold e1, scanPixel.
      destruct (alpha px0 py0 >? ALPHA_THRESHOLD)%Z eqn:A.
      - left. apply Z.gtb_lt in A. cbn [minX minY maxX maxY].
        split; [lia |].
        destruct (px0 <? minX e)%Z eqn:C1; [apply Z.ltb_lt in C1 | apply Z.ltb_ge in C1];
        (destruct (py0 <? minY e)%Z eqn:C2; [apply Z.ltb_lt in C2 | apply Z.ltb_ge in C2]);
        (destruct (px0 >? maxX e)%Z eqn:C3;
         [apply Z.gtb_lt in C3 | rewrite Z.gtb_ltb in C3; apply Z.ltb_ge in C3]);
        (destruct (py0 >? maxY e)%Z eqn:C4;
         [apply Z.gtb_lt in C4 | rewrite Z.gtb_ltb in C4; apply Z.ltb_ge in C4]);
        repeat split; lia.
      - right. rewrite Z.gtb_ltb in A. apply Z.ltb_ge in A. split; [exact A | reflexivity]. }
    destruct Hstep as [(A & E1 & E2 & E3 & E4) | (A & E)].
    + split; [lia |].
      split.
      { intros x y [Heq | Hr] Hop.
        - inversion Heq; subst x y. lia.
        - apply Hin; assumption. }
      split.
      { destruct HminX as [Hs | (y & Hy & Hoy)].
        - destruct (Z.min_spec px0 (minX e)) as [[Hlt Hm] | [Hge Hm]].
          + right. exists py0. rewrite Hs, E1, Hm. split; [left; reflexivity | exact A].
          + left. lia.
        - right. exists y. split; [right; exact Hy | exact Hoy]. }
      split.
      { destruct HmaxX as [Hs | (y & Hy & Hoy)].
        - destruct (Z.max_spec px0 (maxX e)) as [[Hlt Hm] | [Hge Hm]].
          + left. lia.
          + right. exists py0. rewrite Hs, E3, Hm. split; [left; reflexivity | exact A].
        - right. exists y. split; [right; exact Hy | exact Hoy]. }
      split.
      { destruct HminY as [Hs | (x & Hx & Hox)].
        - destruct (Z.min_spec py0 (minY e)) as [[Hlt Hm] | [Hge Hm]].
          + right. exists px0. rewrite Hs, E2, Hm. split; [left; reflexivity | exact A].
          + left. lia.
        - right. exists x. split; [right; exact Hx | exact Hox]. }
      { destruct HmaxY as [Hs | (x & Hx & Hox)].
        - destruct (Z.max_spec py0 (maxY e)) as [[Hlt Hm] | [Hge Hm]].
          + left. lia.
          + right. exists px0. rewrite Hs, E4, Hm. split; [left; reflexivity | exact A].
        - right. exists x. split; [right; exact Hx | exact Hox]. }
    + rewrite E in *.
      split; [exact Hmono |].
      split.
      { intros x y [Heq | Hr] Hop.
        - inversion Heq; subst x y. lia.
        - apply Hin; assumption. }
      split.
      { destruct HminX as [Hs | (y & Hy & Hoy)]; [left; exact Hs |].
        right. exists y. split; [right; exact Hy | exact Hoy]. }
      split.
      { destruct HmaxX as [Hs | (y & Hy & Hoy)]; [left; exact Hs |].
        right. exists y. split; [right; exact Hy | exact Hoy]. }
      split.
      { destruct HminY as [Hs | (x & Hx & Hox)]; [left; exact Hs |].
        right. exists x. split; [right; exact Hx | exact Hox]. }
      { destruct HmaxY as [Hs | (x & Hx & Hox)]; [left; exact Hs |].
        right. exists x. split; [right; exact Hx | exact Hox]. }
Qed.

Lemma in_pixels (W H x y : Z) :
  In (x, y) (flat_map (fun y => map (fun x => (x, y)) (upto W)) (upto H))
  <-> (0 <= x < W)%Z /\ (0 <= y < H)%Z.
Proof.
  rewrite in_flat_map. split.
  - intros (y0 & Hy & Hin). apply in_map_iff in Hin. destruct Hin as (x0 & E & Hx).
    inversion E; subst. apply in_upto in Hy. apply in_upto in Hx. split; assumption.
  - intros [Hx Hy]. exists y. split; [apply in_upto; exact Hy |].
    apply in_map_iff. exists x. split; [reflexivity | apply in_upto; exact Hx].
Qed.

(** The extent the scan ends with: its [maxX] is still -1 exactly when the
    raster has no content pixel; otherwise it lies inside the canvas, holds
    every content pixel and each of its sides is on one. *)
Lemma contentExtent_spec (canvas : Canvas.t) :
  let e := contentExtent canvas in
  (maxX e = (-1)%Z <-> forall x y, ~ isContent canvas x y)
  /\ (maxX e <> (-1)%Z ->
      (0 <= minX e <= maxX e)%Z /\ (maxX e < Qceiling (Canvas.width canvas))%Z
      /\ (0 <= minY e <= maxY e)%Z /\ (maxY e < Qceiling (Canvas.height canvas))%Z
      /\ (forall x y, isContent canvas x y ->
            (minX e <= x <= maxX e /\ minY e <= y <= maxY e)%Z)
      /\ (exists y, isContent canvas (minX e) y)
      /\ (exists y, isContent canvas (maxX e) y)
      /\ (exists x, isContent canvas x (minY e))
      /\ (exists x, isContent canvas x (maxY e))).
Proof.
  intro e.
  set (W := Qceiling (Canvas.width canvas)).
  set (H := Qceiling (Canvas.height canvas)).
  assert (He : e = fold_left (fun e p => scanPixel (Canvas.alpha canvas) e (snd p) (fst p))
                 (flat_map (fun y => map (fun x => (x, y)) (upto W)) (upto H))
                 (mkExtent W H (-1) (-1))).
  { unfold e, contentExtent, scanRows, scanRow. fold W H. apply scanRows_pixels. }
  pose proof (scan_invariant (Canvas.alpha canvas)
                (flat_map (fun y => map (fun x => (x, y)) (upto W)) (upto H))
                (mkExtent W H (-1) (-1))) as Inv.
  cbv zeta in Inv. rewrite <- He in Inv. cbn [minX minY maxX maxY] in Inv.
  destruct Inv as (Hmono & Hin & HminX & HmaxX & HminY & HmaxY).
  assert (Hcontent : forall x y, isContent canvas x y ->
            (minX e <= x <= maxX e /\ minY e <= y <= maxY e)%Z).
  { intros x y (Hx & Hy & Ha). apply Hin; [| exact Ha].
    apply in_pixels. split; assumption. }
  assert (Hside : forall x y,
            In (x, y) (flat_map (fun y => map (fun x => (x, y)) (upto W)) (upto H)) ->
            (Canvas.alpha canvas x y > ALPHA_THRESHOLD)%Z -> isContent canvas x y).
  { intros x y Hp Ha. apply in_pixels in Hp. destruct Hp as [Hx Hy].
    split; [exact Hx |]. split; [exact Hy | exact Ha]. }
  split.
  - split.
    + intros Hm x y Hc. pose proof (Hcontent x y Hc) as Hb.
      destruct Hc as (Hx & _). lia.
    + intro Hnone. destruct HmaxX as [Hs | (y & Hy & Hoy)]; [exact Hs |].
      exfalso. apply (Hnone (maxX e) y). apply Hside; assumption.
  - intro Em.
    destruct HmaxX as [Hs | (y1 & Hy1 & Hoy1)]; [contradiction |].
    pose proof (Hside _ _ Hy1 Hoy1) as C1.
    pose proof (Hcontent _ _ C1) as B1. destruct C1 as (Cx & Cy & _).
    assert (HX : exists y, isContent canvas (minX e) y).
    { destruct HminX as [Hs | (y & Hy & Hoy)]; [lia |].
      exists y. apply Hside; assumption. }
    assert (HY : exists x, isContent canvas x (minY e)).
    { destruct HminY as [Hs | (x & Hx & Hox)]; [lia |].
      exists x. apply Hside; assumption. }
    assert (HY' : exists x, isContent canvas x (maxY e)).
    { destruct HmaxY as [Hs | (x & Hx & Hox)]; [lia |].
      exists x. apply Hside; assumption. }
    destruct HX as (y2 & C2). destruct HY as (x3 & C3). destruct HY' as (x4 & C4).
    pose proof C2 as (C2x & _). pose proof C3 as (_ & C3y & _).
    pose proof C4 as (_ & C4y & _).
    split; [lia |]. split; [lia |]. split; [lia |]. split; [lia |].
    split; [exact Hcontent |].
    split; [exists y2; exact C2 |].
    split; [exists y1; split; [exact Cx | split; [exact Cy | exact Hoy1]] |].
    split; [exists x3; exact C3 | exists x4; exact C4].
Qed.

(** The frame of the scan and the extent it comes from. *)
Lemma scanContentBounds_correct (canvas : Canvas.t) :
  let f := scanContentBounds canvas in
  let e := contentExtent canvas in
  (Frame.isEmpty f = true <-> forall x y, ~ isContent canvas x y)
  /\ (Frame.isEmpty f = true ->
      f = Frame.mk 0 0 (Canvas.width canvas) (Canvas.height canvas) true)
  /\ (Frame.isEmpty f = false ->
      f = Frame.mk (inject_Z (minX e)) (inject_Z (minY e))
            (inject_Z (maxX e - minX e + 1)) (inject_Z (maxY e - minY e + 1)) false
      /\ (0 <= minX e <= maxX e)%Z /\ (maxX e < Qceiling (Canvas.width canvas))%Z
      /\ (0 <= minY e <= maxY e)%Z /\ (maxY e < Qceiling (Canvas.height canvas))%Z
      /\ (forall x y, isContent canvas x y ->
            (minX e <= x <= maxX e /\ minY e <= y <= maxY e)%Z)
      /\ (exists y, isContent canvas (minX e) y)
      /\ (exists y, isContent canvas (maxX e) y)
      /\ (exists x, isContent canvas x (minY e))
      /\ (exists x, isContent canvas x (maxY e))).
Proof.
  intros f e. pose proof (contentExtent_spec canvas) as [Hempty Hfull].
  fold e in Hempty, Hfull.
  unfold f, scanContentBounds. fold e.
  destruct (maxX e =? -1)%Z eqn:Em.
  - apply Z.eqb_eq in Em. cbn [Frame.isEmpty].
    split; [split; [intros _; apply Hempty; exact Em | reflexivity] |].
    split; [reflexivity | intro D; discriminate D].
  - apply Z.eqb_neq in Em. cbn [Frame.isEmpty].
    split; [split; [intro D; discriminate D | intro Hn; apply Hempty in Hn; contradiction] |].
    split; [intro D; discriminate D |]. intros _.
    split; [reflexivity | apply Hfull; exact Em].
Qed.

(** A frame that is not empty is at least one pixel wide and high, and so
    is the canvas it was scanned from. *)
Lemma contentBounds_positive (canvas : Canvas.t) :
  Frame.isEmpty (scanContentBounds canvas) = false ->
  0 < Frame.width (scanContentBounds canvas)
  /\ 0 < Frame.height (scanContentBounds canvas)
  /\ 0 < Canvas.width canvas /\ 0 < Canvas.height canvas.
Proof.
  pose proof (contentExtent_spec canvas) as [_ Hfull]. cbv zeta in Hfull.
  unfold scanContentBounds.
  destruct (maxX (contentExtent canvas) =? -1)%Z eqn:Em;
    cbn [Frame.isEmpty Frame.width Frame.height]; [intro D; discriminate D |].
  intros _. apply Z.eqb_neq in Em.
  destruct (Hfull Em) as (Hx & Hxw & Hy & Hyh & _).
  assert (Cw : forall q, (0 < Qceiling q)%Z -> 0 < q).
  { intros q Hq. pose proof (Qceiling_lt q) as Hc.
    unfold Z.sub in Hc. rewrite inject_Z_plus, inject_Z_opp in Hc.
    change (inject_Z 1) with 1 in Hc.
    assert (1 <= inject_Z (Qceiling q)).
    { change 1 with (inject_Z 1). rewrite <- Zle_Qle. lia. }
    lra. }
  split; [change 0 with (inject_Z 0); rewrite <- Zlt_Qlt; lia |].
  split; [change 0 with (inject_Z 0); rewrite <- Zlt_Qlt; lia |].
  split; apply Cw; lia.
Qed.

(** X19.  [calculateContentBounds] throws on a canvas without width or
    without height, where [getImageData] fails.  On any other canvas it
    returns a frame: it reports an empty raster exactly when no pixel has
    an alpha above the threshold, and then returns the whole canvas;
    otherwise the frame it returns lies inside the canvas, holds every
    content pixel, and is tight: each of its four sides passes through a
    content pixel. *)
Theorem contentBounds_correct (canvas : Canvas.t) :
  (Canvas.width canvas == 0 \/ Canvas.height canvas == 0 ->
   calculateContentBounds canvas = Thrown "IndexSizeError")
  /\ (~ Canvas.width canvas == 0 -> ~ Canvas.height canvas == 0 ->
      exists f,
        calculateContentBounds canvas = Returned f
        /\ let e := contentExtent canvas in
           (Frame.isEmpty f = true <-> forall x y, ~ isContent canvas x y)
           /\ (Frame.isEmpty f = true ->
               f = Frame.mk 0 0 (Canvas.width canvas) (Canvas.height canvas) true)
           /\ (Frame.isEmpty f = false ->
               f = Frame.mk (inject_Z (minX e)) (inject_Z (minY e))
                     (inject_Z (maxX e - minX e + 1)) (inject_Z (maxY e - minY e + 1))
                     false
               /\ (0 <= minX e <= maxX e)%Z
               /\ (maxX e < Qceiling (Canvas.width canvas))%Z
               /\ (0 <= minY e <= maxY e)%Z
               /\ (maxY e < Qceiling (Canvas.height canvas))%Z
               /\ (forall x y, isContent canvas x y ->
                     (minX e <= x <= maxX e /\ minY e <= y <= maxY e)%Z)
               /\ (exists y, isContent canvas (minX e) y)
               /\ (exists y, isContent canvas (maxX e) y)
               /\ (exists x, isContent canvas x (minY e))
               /\ (exists x, isContent canvas x (maxY e)))).
Proof.
  unfold calculateContentBounds. split.
  - intros [E | E]; apply Qeq_bool_iff in E; rewrite E;
      [reflexivity | rewrite orb_true_r; reflexivity].
  - intros Hw Hh. apply Qeq_bool_false in Hw. apply Qeq_bool_false in Hh.
    rewrite Hw, Hh. exists (scanContentBounds canvas).
    split; [reflexivity | apply scanContentBounds_correct].
Qed.

Lemma contentBounds_correct_witness :
  calculateContentBounds framedRaster = Returned (Frame.mk 2 1 3 2 false)
  /\ (forall x y, isContent framedRaster x y -> (2 <= x <= 4 /\ 1 <= y <= 2)%Z)
  /\ calculateContentBounds emptyRaster = Thrown "IndexSizeError"
  /\ calculateContentBounds (Canvas.mk 2048 0 (fun _ _ => 255%Z))
     = Thrown "IndexSizeError".
Proof.
  destruct (contentBounds_correct framedRaster) as (_ & H).
  destruct (contentBounds_correct emptyRaster) as (H0 & _).
  destruct (contentBounds_correct (Canvas.mk 2048 0 (fun _ _ => 255%Z))) as (H1 & _).
  destruct H as (f & Hf & _ & _ & Hc); [discriminate | discriminate |].
  assert (Ef : f = Frame.mk 2 1 3 2 false).
  { vm_compute in Hf. inversion Hf. reflexivity. }
  subst f. destruct Hc as (_ & _ & _ & _ & _ & Hc & _); [reflexivity |].
  split; [exact Hf |]. split; [exact Hc |].
  split; [apply H0; left; reflexivity | apply H1; right; reflexivity].
Defined.

(** ** The crop after background removal keeps the picture in place *)

Section CropProofs.
Context `{platform : Platform}.

(** The arithmetic of the re-anchoring: a layer at [(x0, y0)] of width
    [size0] over a [W] by [H] raster is replaced by one over the crop of
    that raster at [(bx, by)] of size [cw] by [ch], moved by the shift of
    the centres turned by [(c, s)] and scaled to the crop.  When
    [(c', s')] turns back what [(c, s)] turns, a world point that fell on
    the raster at [q] falls on the crop at [q - (bx, by)]. *)
Lemma crop_reanchor_arithmetic (x0 y0 size0 W H bx by_ cw ch c s c' s' Px Py : Q) :
  c' * c - s' * s == 1 -> s' * c + c' * s == 0 ->
  ~ size0 == 0 -> ~ W == 0 -> ~ cw == 0 ->
  let sx := bx + cw / 2 - W / 2 in
  let sy := by_ + ch / 2 - H / 2 in
  let k := size0 / W in
  let x1 := x0 + (sx * c - sy * s) * k in
  let y1 := y0 + (sx * s + sy * c) * k in
  let size1 := size0 * (cw / W) in
  let lx0 := (Px - x0) * c' - (Py - y0) * s' in
  let ly0 := (Px - x0) * s' + (Py - y0) * c' in
  let lx1 := (Px - x1) * c' - (Py - y1) * s' in
  let ly1 := (Px - x1) * s' + (Py - y1) * c' in
  (lx1 + size1 / 2) * (cw / size1) == (lx0 + size0 / 2) * (W / size0) - bx
  /\ (ly1 + size1 * (ch / cw) / 2) * (cw / size1)
     == (ly0 + size0 * (H / W) / 2) * (W / size0) - by_.
Proof.
  intros H1 H2 Hs HW Hc. cbv zeta.
  set (sx := bx + cw / 2 - W / 2). set (sy := by_ + ch / 2 - H / 2).
  set (k := size0 / W).
  assert (Ex : (Px - (x0 + (sx * c - sy * s) * k)) * c'
               - (Py - (y0 + (sx * s + sy * c) * k)) * s'
               == ((Px - x0) * c' - (Py - y0) * s')
                  - k * (sx * (c' * c - s' * s) - sy * (s' * c + c' * s))) by ring.
  assert (Ey : (Px - (x0 + (sx * c - sy * s) * k)) * s'
               + (Py - (y0 + (sx * s + sy * c) * k)) * c'
               == ((Px - x0) * s' + (Py - y0) * c')
                  - k * (sx * (s' * c + c' * s) + sy * (c' * c - s' * s))) by ring.
  rewrite H1, H2 in Ex, Ey.
  split.
  - rewrite Ex. unfold sx, sy, k. field. repeat split; assumption.
  - rewrite Ey. unfold sx, sy, k. field. repeat split; assumption.
Qed.

(** X20.  Cropping an image layer to its content after the background
    removal keeps the picture where it is: for an unmirrored layer whose
    masked raster has content, at any rotation, [runU2NetOnImageLayer] does
    not throw, and the pixel of the cropped raster under a world point is
    the pixel of the uncropped raster that was under it, the two rasters'
    coordinates differing by the origin of the crop.  The platform's sine
    and cosine are taken to be odd and even at the layer's angle and to
    square-sum to one. *)
Theorem runU2Net_crop_keeps_picture (l : Layer) (base : Canvas.t) (rest : list Canvas.t)
    (tempCanvas newBase : Canvas.t) (newRest : list Canvas.t)
    (canvasWidth canvasHeight : Q) (point : Point) :
  let newBounds := scanContentBounds tempCanvas in
  let a := rot l * Math_PI / 180 in
  let a' := - rot l * Math_PI / 180 in
  ltype l = ImageLayer -> mipmaps l = base :: rest -> flipX l = false ->
  Canvas.width tempCanvas = Canvas.width base ->
  Canvas.height tempCanvas = Canvas.height base ->
  Frame.isEmpty newBounds = false ->
  Canvas.width newBase = Frame.width newBounds ->
  Canvas.height newBase = Frame.height newBounds ->
  Math_cos a' == Math_cos a -> Math_sin a' == - Math_sin a ->
  Math_cos a * Math_cos a + Math_sin a * Math_sin a == 1 ->
  ~ size l == 0 -> ~ Canvas.width base == 0 ->
  exists payload,
    runU2NetOnImageLayer_payload l tempCanvas (newBase :: newRest)
      canvasWidth canvasHeight = Returned payload
    /\ calculateContentBounds tempCanvas = Returned newBounds
    /\ let l' := spread payload l in
       exists q q',
         applyBrushToLayer_proxy l point = Some q
         /\ applyBrushToLayer_proxy l' point = Some q'
         /\ px q' == px q - Frame.x newBounds
         /\ py q' == py q - Frame.y newBounds.
Proof.
  intros newBounds a a' T M F Wt Ht Ne Wn Hn Hc Hs Hu Hsz HW.
  destruct (contentBounds_positive tempCanvas Ne) as (Hpos & _ & Pw & Ph).
  fold newBounds in Hpos.
  assert (Hcw : ~ Frame.width newBounds == 0) by lra.
  assert (Zw : Qeq_bool (Canvas.width tempCanvas) 0 = false)
    by (apply Qeq_bool_false; lra).
  assert (Zh : Qeq_bool (Canvas.height tempCanvas) 0 = false)
    by (apply Qeq_bool_false; lra).
  assert (Eb : calculateContentBounds tempCanvas = Returned newBounds).
  { unfold calculateContentBounds. rewrite Zw, Zh. reflexivity. }
  unfold runU2NetOnImageLayer_payload. rewrite Zw, Zh. cbn [orb]. rewrite Eb.
  eexists. split; [reflexivity |]. split; [reflexivity |].
  match goal with
  | |- context [spread ?P l] => set (payload := P); set (l' := spread payload l)
  end.
  assert (T' : ltype l' = ImageLayer) by exact T.
  assert (M' : mipmaps l' = newBase :: newRest) by reflexivity.
  assert (F' : flipX l' = false) by exact F.
  assert (R' : rot l' = rot l) by reflexivity.
  unfold applyBrushToLayer_proxy. rewrite T, M, T', M', F, F', R'. cbv zeta.
  eexists. eexists. split; [reflexivity |]. split; [reflexivity |].
  cbn [px py]. fold a'.
  assert (X' : x l' = x l + ((Frame.x newBounds + Frame.width newBounds / 2
                              - Canvas.width tempCanvas / 2) * Math_cos a
                             - (Frame.y newBounds + Frame.height newBounds / 2
                                - Canvas.height tempCanvas / 2) * Math_sin a)
                            * (size l / Canvas.width tempCanvas)) by reflexivity.
  assert (Y' : y l' = y l + ((Frame.x newBounds + Frame.width newBounds / 2
                              - Canvas.width tempCanvas / 2) * Math_sin a
                             + (Frame.y newBounds + Frame.height newBounds / 2
                                - Canvas.height tempCanvas / 2) * Math_cos a)
                            * (size l / Canvas.width tempCanvas)) by reflexivity.
  assert (S' : size l' = size l * (Frame.width newBounds / Canvas.width tempCanvas)).
  { unfold l', payload. rewrite Ne. reflexivity. }
  rewrite X', Y', S', Wn, Hn, Wt, Ht.
  apply (crop_reanchor_arithmetic (x l) (y l) (size l) (Canvas.width base)
           (Canvas.height base) (Frame.x newBounds) (Frame.y newBounds)
           (Frame.width newBounds) (Frame.height newBounds)
           (Math_cos a) (Math_sin a) (Math_cos a') (Math_sin a')
           (px point) (py point)).
  - rewrite Hc, Hs. rewrite <- Hu. ring.
  - rewrite Hc, Hs. ring.
  - exact Hsz.
  - exact HW.
  - exact Hcw.
Qed.

End CropProofs.

Lemma runU2Net_crop_keeps_picture_witness :
  exists payload,
    runU2NetOnImageLayer_payload (platform := pythagoreanPlatform)
      framedLayer framedRaster [croppedRaster] 800 600 = Returned payload
    /\ exists q q',
         applyBrushToLayer_proxy (platform := pythagoreanPlatform) framedLayer
           (mkPoint 110 95) = Some q
         /\ applyBrushToLayer_proxy (platform := pythagoreanPlatform)
              (spread payload framedLayer) (mkPoint 110 95) = Some q'
         /\ px q' == px q - 2 /\ py q' == py q - 1.
Proof.
  assert (Eb : scanContentBounds framedRaster = Frame.mk 2 1 3 2 false)
    by (vm_compute; reflexivity).
  pose proof (runU2Net_crop_keeps_picture (platform := pythagoreanPlatform) framedLayer
                framedRaster [] framedRaster croppedRaster [] 800 600 (mkPoint 110 95))
    as H.
  cbv zeta in H. rewrite Eb in H. cbn [Frame.isEmpty Frame.width Frame.height
                                        Frame.x Frame.y] in H.
  specialize (H eq_refl eq_refl eq_refl eq_refl eq_refl eq_refl eq_refl eq_refl).
  match type of H with ?A -> _ =>
    assert (A1 : A) by (vm_compute; reflexivity); specialize (H A1) end.
  match type of H with ?A -> _ =>
    assert (A2 : A) by (vm_compute; reflexivity); specialize (H A2) end.
  match type of H with ?A -> _ =>
    assert (A3 : A) by (vm_compute; reflexivity); specialize (H A3) end.
  match type of H with ?A -> _ =>
    assert (A4 : A) by (vm_compute; discriminate); specialize (H A4) end.
  match type of H with ?A -> _ =>
    assert (A5 : A) by (vm_compute; discriminate); specialize (H A5) end.
  destruct H as (payload & Hp & _ & q & q' & Hq & Hq' & Hx & Hy).
  exists payload. split; [exact Hp |].
  exists q, q'. split; [exact Hq |]. split; [exact Hq' |]. split; [exact Hx | exact Hy].
Defined.

(** ** The view animation *)

Lemma ease_error (v t : Q) :
  Qabs (v + (t - v) * smoothingFactor - t) == (7 # 10) * Qabs (v - t).
Proof.
  assert (E : v + (t - v) * smoothingFactor - t == (7 # 10) * (v - t))
    by (unfold smoothingFactor; ring).
  rewrite E, Qabs_Qmult. reflexivity.
Qed.

(** X21.  One animation frame moves the scale and both pan coordinates
    towards the target without passing it: each stays between its old
    value and the target, its distance to the target is at most 7/10 of
    what it was, and a frame that ends the animation leaves the view
    exactly on the target. *)
Theorem view_animation_frame (viewState targetViewState : ViewState) :
  let r := _updateViewAnimation true viewState targetViewState in
  let v' := fst r in
  Qabs (scale v' - scale targetViewState)
    <= (7 # 10) * Qabs (scale viewState - scale targetViewState)
  /\ Qabs (px (pan v') - px (pan targetViewState))
     <= (7 # 10) * Qabs (px (pan viewState) - px (pan targetViewState))
  /\ Qabs (py (pan v') - py (pan targetViewState))
     <= (7 # 10) * Qabs (py (pan viewState) - py (pan targetViewState))
  /\ (scale viewState <= scale targetViewState ->
      scale viewState <= scale v' /\ scale v' <= scale targetViewState)
  /\ (scale targetViewState <= scale viewState ->
      scale targetViewState <= scale v' /\ scale v' <= scale viewState)
  /\ (snd r = false -> v' = targetViewState).
Proof.
  destruct viewState as [s [x0 y0]], targetViewState as [ts [tx ty]].
  unfold _updateViewAnimation. cbn [negb scale pan px py].
  pose proof (ease_error s ts) as Es.
  pose proof (ease_error x0 tx) as Ex.
  pose proof (ease_error y0 ty) as Ey.
  pose proof (Qabs_nonneg (s - ts)) as Ps.
  pose proof (Qabs_nonneg (x0 - tx)) as Px.
  pose proof (Qabs_nonneg (y0 - ty)) as Py.
  destruct (Qltb (Math_abs (s + (ts - s) * smoothingFactor - ts)) epsilon
            && Qltb (Math_abs (x0 + (tx - x0) * smoothingFactor - tx)) epsilon
            && Qltb (Math_abs (y0 + (ty - y0) * smoothingFactor - ty)) epsilon)%bool;
    cbv zeta; cbn [fst snd scale pan px py].
  - assert (Z0 : forall a, Qabs (a - a) == 0).
    { intro a. assert (E : a - a == 0) by ring. rewrite E. reflexivity. }
    rewrite !Z0.
    split; [lra |]. split; [lra |]. split; [lra |].
    split; [intro; split; lra |]. split; [intro; split; lra |]. reflexivity.
  - rewrite Es, Ex, Ey.
    split; [lra |]. split; [lra |]. split; [lra |].
    unfold smoothingFactor.
    split; [intro; split; lra |]. split; [intro; split; lra |].
    intro D. discriminate D.
Qed.

Lemma view_animation_frame_witness :
  let r := _updateViewAnimation true (mkViewState 1 (mkPoint 0 0))
             (mkViewState 2 (mkPoint (-100) (-50))) in
  (1 <= scale (fst r) /\ scale (fst r) <= 2)
  /\ scale (fst r) == 13 # 10.
Proof.
  destruct (view_animation_frame (mkViewState 1 (mkPoint 0 0))
              (mkViewState 2 (mkPoint (-100) (-50)))) as (_ & _ & _ & H & _).
  split; [apply H; vm_compute; discriminate | vm_compute; reflexivity].
Defined.

Lemma animationFrames_idle (n : nat) (v t : ViewState) :
  animationFrames n (v, false) t = (v, false).
Proof. induction n as [| n IH]; simpl; [reflexivity | exact IH]. Qed.

(** The potential of the animation: a distance [d] to the target that
    [n] more frames bring below [epsilon]. *)
Lemma potential_step (n : nat) (d : Q) :
  0 <= d ->
  7000 * d < 7 + 3 * inject_Z (Z.of_nat (S n)) ->
  7000 * ((7 # 10) * d) < 7 + 3 * inject_Z (Z.of_nat n).
Proof.
  intros Hd H. rewrite Nat2Z.inj_succ in H. unfold Z.succ in H.
  rewrite inject_Z_plus in H. change (inject_Z 1) with 1 in H.
  assert (0 <= inject_Z (Z.of_nat n)).
  { change 0 with (inject_Z 0). rewrite <- Zle_Qle. lia. }
  lra.
Qed.

Lemma settles_within (N : nat) :
  forall (v t : ViewState) (n : nat),
    7000 * Qabs (scale v - scale t) < 7 + 3 * inject_Z (Z.of_nat N) ->
    7000 * Qabs (px (pan v) - px (pan t)) < 7 + 3 * inject_Z (Z.of_nat N) ->
    7000 * Qabs (py (pan v) - py (pan t)) < 7 + 3 * inject_Z (Z.of_nat N) ->
    (N < n)%nat ->
    animationFrames n (v, true) t = (t, false).
Proof.
  induction N as [| N IH]; intros v t n Hs Hx Hy Hn;
    (destruct n as [| n]; [lia |]);
    destruct v as [s [x0 y0]], t as [ts [tx ty]];
    cbn [scale pan px py] in *; cbn [animationFrames fst snd];
    unfold _updateViewAnimation; cbn [negb scale pan px py]; unfold Math_abs;
    pose proof (ease_error s ts) as Es;
    pose proof (ease_error x0 tx) as Ex;
    pose proof (ease_error y0 ty) as Ey;
    pose proof (Qabs_nonneg (s - ts)) as Ps;
    pose proof (Qabs_nonneg (x0 - tx)) as Px;
    pose proof (Qabs_nonneg (y0 - ty)) as Py.
  - change (inject_Z (Z.of_nat 0)) with 0 in *.
    assert (C1 : Qltb (Qabs (s + (ts - s) * smoothingFactor - ts)) epsilon = true)
      by (apply Qltb_true; rewrite Es; unfold epsilon; lra).
    assert (C2 : Qltb (Qabs (x0 + (tx - x0) * smoothingFactor - tx)) epsilon = true)
      by (apply Qltb_true; rewrite Ex; unfold epsilon; lra).
    assert (C3 : Qltb (Qabs (y0 + (ty - y0) * smoothingFactor - ty)) epsilon = true)
      by (apply Qltb_true; rewrite Ey; unfold epsilon; lra).
    rewrite C1, C2, C3. cbn [andb]. apply animationFrames_idle.
  - destruct (Qltb (Qabs (s + (ts - s) * smoothingFactor - ts)) epsilon
              && Qltb (Qabs (x0 + (tx - x0) * smoothingFactor - tx)) epsilon
              && Qltb (Qabs (y0 + (ty - y0) * smoothingFactor - ty)) epsilon)%bool.
    + apply animationFrames_idle.
    + apply IH; cbn [scale pan px py]; [| | | lia].
      * rewrite Es. apply potential_step; assumption.
      * rewrite Ex. apply potential_step; assumption.
      * rewrite Ey. apply potential_step; assumption.
Qed.

Lemma frames_for_error (d : Q) (N : nat) :
  (Z.to_nat (Qceiling (7 * Qabs d / epsilon)) <= N)%nat ->
  7000 * Qabs d < 7 + 3 * inject_Z (Z.of_nat N).
Proof.
  intro H. pose proof (Qabs_nonneg d) as Hd.
  assert (E : 7 * Qabs d / epsilon == 7000 * Qabs d) by (unfold epsilon; field).
  set (a := 7 * Qabs d / epsilon) in *.
  pose proof (Qle_ceiling a) as Hc.
  assert (Hz : (0 <= Qceiling a)%Z).
  { rewrite Zle_Qle. change (inject_Z 0) with 0. lra. }
  assert (Hn : inject_Z (Qceiling a) <= inject_Z (Z.of_nat N)).
  { rewrite <- Zle_Qle. lia. }
  lra.
Qed.

(** X22.  The view animation ends: from any view, with the target held
    still, after [framesToSettle] frames the view is exactly the target and
    no further frame is requested. *)
Theorem view_animation_settles (viewState targetViewState : ViewState) :
  animationFrames (framesToSettle viewState targetViewState) (viewState, true)
    targetViewState
  = (targetViewState, false).
Proof.
  unfold framesToSettle.
  set (n1 := Z.to_nat (Qceiling (7 * Qabs (scale viewState - scale targetViewState)
                                 / epsilon))).
  set (n2 := Z.to_nat (Qceiling (7 * Qabs (px (pan viewState) - px (pan targetViewState))
                                 / epsilon))).
  set (n3 := Z.to_nat (Qceiling (7 * Qabs (py (pan viewState) - py (pan targetViewState))
                                 / epsilon))).
  apply (settles_within (n1 + n2 + n3)); [| | | lia];
    apply frames_for_error; fold n1 n2 n3; lia.
Qed.

(** ** The target view stays constrained *)

Lemma constrainPan_fixed (c : Bitmap.t) (panX panY s : Q) :
  let p := _constrainPan (Some c) panX panY s in
  px (_constrainPan (Some c) (px p) (py p) s) == px p
  /\ py (_constrainPan (Some c) (px p) (py p) s) == py p.
Proof.
  unfold _constrainPan.
  destruct (Qeq_bool (Bitmap.width c) 0); [split; reflexivity |].
  destruct (Qltb s 1); [split; reflexivity |].
  cbn [px py]. split; apply clamp_twice.
Qed.

Lemma viewConstrained_after (c : Bitmap.t) (panX panY s : Q) :
  OVERVIEW_SCALE <= s -> s <= 5 ->
  viewConstrained c
    (mkViewState s (mkPoint (px (_constrainPan (Some c) panX panY s))
                            (py (_constrainPan (Some c) panX panY s)))).
Proof.
  intros H1 H2. unfold viewConstrained. cbn [scale pan px py].
  split; [exact H1 |]. split; [exact H2 |]. apply constrainPan_fixed.
Qed.

(** X23.  The wheel, the pan gesture and the view reset keep the target
    view constrained: its scale stays between the overview scale 1/2 and
    5, and its pan stays one that [_constrainPan] accepts as it is,
    whatever the event, the anchor and the platform's [Math.pow]. *)
Theorem view_stays_constrained (Math_pow : Q -> Q -> Q) (movieCanvas : Bitmap.t)
    (e : WheelEvent) (point panelCentre : Point) (rectWidth movementX movementY : Q)
    (targetViewState : ViewState) :
  viewConstrained movieCanvas targetViewState ->
  viewConstrained movieCanvas
    (handleCanvasWheel Math_pow movieCanvas e point panelCentre targetViewState)
  /\ viewConstrained movieCanvas
       (handleMovieInteractionMove_pan movieCanvas rectWidth movementX movementY
          targetViewState)
  /\ viewConstrained movieCanvas resetView.
Proof.
  intro Hv. pose proof Hv as (Hlo & Hhi & _).
  split; [| split].
  - unfold handleCanvasWheel. destruct (ctrlKey e).
    + cbv zeta.
      match goal with
      | |- context [Qeq_bool ?a ?b] => destruct (Qeq_bool a b); [exact Hv |]
      end.
      apply viewConstrained_after; unfold OVERVIEW_SCALE; q_minmax; lra.
    + destruct (Qleb (scale targetViewState) 1); [exact Hv |].
      apply viewConstrained_after; assumption.
  - unfold handleMovieInteractionMove_pan.
    destruct (Qeq_bool rectWidth 0); [exact Hv |].
    apply viewConstrained_after; assumption.
  - unfold viewConstrained, resetView, OVERVIEW_SCALE. cbn [scale pan px py].
    split; [lra |]. split; [lra |].
    unfold _constrainPan. destruct (Qeq_bool (Bitmap.width movieCanvas) 0);
      [split; reflexivity |].
    assert (L : Qltb 1 1 = false) by reflexivity. rewrite L. cbn [px py].
    split; q_minmax; lra.
Qed.

Lemma view_stays_constrained_witness :
  viewConstrained (Bitmap.mk 1000 800)
    (handleCanvasWheel (fun _ _ => 4) (Bitmap.mk 1000 800)
       (mkWheelEvent true 0 (-100) 0) (mkPoint 500 400) (mkPoint 500 400)
       (mkViewState 2 (mkPoint (-500) (-400))))
  /\ scale (handleCanvasWheel (fun _ _ => 4) (Bitmap.mk 1000 800)
              (mkWheelEvent true 0 (-100) 0) (mkPoint 500 400) (mkPoint 500 400)
              (mkViewState 2 (mkPoint (-500) (-400)))) == 5.
Proof.
  split.
  - apply (view_stays_constrained (fun _ _ => 4) (Bitmap.mk 1000 800)
             (mkWheelEvent true 0 (-100) 0) (mkPoint 500 400) (mkPoint 500 400)
             1000 0 0 (mkViewState 2 (mkPoint (-500) (-400)))).
    unfold viewConstrained. vm_compute.
    split; [discriminate |]. split; [discriminate |]. split; reflexivity.
  - vm_compute. reflexivity.
Defined.

(** ** Pointer coordinates *)

(** X24.  [getMovieCanvasPoint] undoes the view transform of the frame:
    the world point it returns for a pointer position is the one that
    [drawFrame] paints on the canvas pixel under the pointer.  For a canvas
    that is not laid out (a zero-sized rectangle) it returns the origin. *)
Theorem pointer_point_inverts_view (referenceCanvas : Bitmap.t) (rect : ClientRect)
    (viewState : ViewState) (clientX clientY : Q) :
  let world := getMovieCanvasPoint referenceCanvas rect viewState clientX clientY in
  (~ rectWidth rect == 0 -> ~ rectHeight rect == 0 -> ~ scale viewState == 0 ->
   px (drawFrame_transform viewState world)
   == (clientX - rectLeft rect) * (Bitmap.width referenceCanvas / rectWidth rect)
   /\ py (drawFrame_transform viewState world)
      == (clientY - rectTop rect) * (Bitmap.height referenceCanvas / rectHeight rect))
  /\ (rectWidth rect == 0 \/ rectHeight rect == 0 -> world = mkPoint 0 0).
Proof.
  unfold getMovieCanvasPoint, drawFrame_transform. split.
  - intros Hw Hh Hs.
    pose proof (proj2 (Qeq_bool_false _ _) Hw) as Bw.
    pose proof (proj2 (Qeq_bool_false _ _) Hh) as Bh. rewrite Bw, Bh.
    cbn [orb px py]. split; field; split; assumption.
  - intros [Hz | Hz]; apply Qeq_bool_iff in Hz; rewrite Hz;
      [| rewrite orb_true_r]; reflexivity.
Qed.

Lemma pointer_point_inverts_view_witness :
  let world := getMovieCanvasPoint (Bitmap.mk 1000 800) (mkClientRect 10 20 500 400)
                 (mkViewState 2 (mkPoint (-100) (-50))) 110 120 in
  px (drawFrame_transform (mkViewState 2 (mkPoint (-100) (-50))) world) == 200
  /\ px world == 150.
Proof.
  destruct (pointer_point_inverts_view (Bitmap.mk 1000 800) (mkClientRect 10 20 500 400)
              (mkViewState 2 (mkPoint (-100) (-50))) 110 120) as [H _].
  destruct H as [Hx _]; try (vm_compute; discriminate).
  split; [rewrite Hx; vm_compute; reflexivity | vm_compute; reflexivity].
Defined.

(** ** The exported image *)

Lemma Qdiv_ge_one (a b : Q) : 0 < b -> (1 <= a / b <-> b <= a).
Proof.
  intro Hb. split; intro H.
  - assert (E : a == a / b * b) by (field; lra).
    rewrite E. setoid_replace b with (1 * b) at 1 by ring.
    apply Qmult_le_compat_r; lra.
  - apply Qle_shift_div_l; lra.
Qed.

Lemma Math_round_le (q : Q) (z : Z) : q <= inject_Z z -> Math_round q <= inject_Z z.
Proof.
  intro H. unfold Math_round. rewrite <- Zle_Qle. apply round_le. exact H.
Qed.

Lemma Math_round_below (q : Q) (z : Z) :
  q < inject_Z z + (1 # 2) -> Math_round q <= inject_Z z.
Proof.
  intro H. destruct (Math_round_near q) as [_ N]. unfold Math_round in *.
  rewrite <- Zle_Qle.
  assert (L : inject_Z (Qfloor (q + (1 # 2))) < inject_Z (z + 1)).
  { rewrite inject_Z_plus. change (inject_Z 1) with 1. lra. }
  rewrite <- Zlt_Qlt in L. lia.
Qed.

(** X25.  The exported canvas is never larger than 4096 pixels on a side.
    A background within that limit is exported at its natural size
    (transposed when the project is tilted); a larger one has its longer
    side set to exactly 4096 and the other side scaled in proportion, to
    the nearest pixel of the value the source computes: the aspect ratio
    rounded to a double and 4096 divided or multiplied by it rounded again,
    which is within 3 x 2^-53 of the proportional side. *)
Theorem export_within_limit (cs : CanvasState) (bgImage : Image) :
  (0 < naturalWidth bgImage < 2 ^ 53)%Z -> (0 < naturalHeight bgImage < 2 ^ 53)%Z ->
  let c := exportCanvas cs bgImage in
  let fw := fst (masterSize bgImage (isTilted cs)) in
  let fh := snd (masterSize bgImage (isTilted cs)) in
  Bitmap.width c <= MAX_EXPORT_DIMENSION /\ Bitmap.height c <= MAX_EXPORT_DIMENSION
  /\ (fw <= MAX_EXPORT_DIMENSION -> fh <= MAX_EXPORT_DIMENSION -> c = Bitmap.mk fw fh)
  /\ (MAX_EXPORT_DIMENSION < fw \/ MAX_EXPORT_DIMENSION < fh ->
      (fh <= fw ->
       let side := MAX_EXPORT_DIMENSION * fh / fw in
       Bitmap.width c == MAX_EXPORT_DIMENSION
       /\ side * (1 - 3 * pow2 (-53)) - (1 # 2) < Bitmap.height c
       /\ Bitmap.height c <= side * (1 + 3 * pow2 (-53)) + (1 # 2))
      /\ (fw < fh ->
          let side := MAX_EXPORT_DIMENSION * fw / fh in
          Bitmap.height c == MAX_EXPORT_DIMENSION
          /\ side * (1 - 3 * pow2 (-53)) - (1 # 2) < Bitmap.width c
          /\ Bitmap.width c <= side * (1 + 3 * pow2 (-53)) + (1 # 2))).
Proof.
  intros Hw Hh c fw fh.
  assert (Rw : exists zw, fw = inject_Z zw /\ (0 < zw < 2 ^ 53)%Z).
  { unfold fw, masterSize. destruct (isTilted cs); cbn [fst]; eexists;
      (split; [reflexivity | assumption]). }
  assert (Rh : exists zh, fh = inject_Z zh /\ (0 < zh < 2 ^ 53)%Z).
  { unfold fh, masterSize. destruct (isTilted cs); cbn [snd]; eexists;
      (split; [reflexivity | assumption]). }
  assert (Ec : c = let '(ew, eh) :=
                     if (Qgtb fw MAX_EXPORT_DIMENSION || Qgtb fh MAX_EXPORT_DIMENSION)%bool
                     then if Qeq_bool fh 0 then (MAX_EXPORT_DIMENSION, 0)
                          else if Qgeb (fdiv fw fh) 1
                               then (MAX_EXPORT_DIMENSION,
                                     fdiv MAX_EXPORT_DIMENSION (fdiv fw fh))
                               else (fmul MAX_EXPORT_DIMENSION (fdiv fw fh),
                                     MAX_EXPORT_DIMENSION)
                     else (fw, fh) in
                   Bitmap.mk (Math_round ew) (Math_round eh)).
  { unfold c, exportCanvas, exportDimensions, fw, fh, masterSize.
    destruct (isTilted cs); reflexivity. }
  clearbody c fw fh. subst c. unfold MAX_EXPORT_DIMENSION in *.
  destruct Rw as (zw & -> & Zw). destruct Rh as (zh & -> & Zh).
  assert (Pw : 0 < inject_Z zw) by (change 0 with (inject_Z 0); rewrite <- Zlt_Qlt; lia).
  assert (Ph : 0 < inject_Z zh) by (change 0 with (inject_Z 0); rewrite <- Zlt_Qlt; lia).
  assert (R0 : Math_round 4096 = 4096) by (vm_compute; reflexivity).
  assert (U : pow2 (-53) == 1 # 9007199254740992) by reflexivity.
  destruct (Qgtb (inject_Z zw) 4096 || Qgtb (inject_Z zh) 4096)%bool eqn:G.
  - assert (Hbig : 4096 < inject_Z zw \/ 4096 < inject_Z zh).
    { apply orb_true_iff in G. destruct G as [G | G]; apply Qgtb_true in G; auto. }
    assert (Nz : Qeq_bool (inject_Z zh) 0 = false) by (apply Qeq_bool_false; lra).
    rewrite Nz.
    destruct (fdiv_error (inject_Z zw) (inject_Z zh) (Qlt_le_weak _ _ Pw) Ph) as [L1 L2].
    destruct (Qlt_le_dec (inject_Z zw) (inject_Z zh)) as [Hlt | Hge].
    + (* the higher side is the longer one *)
      assert (Hz : (zw + 1 <= zh)%Z) by (rewrite <- Zlt_Qlt in Hlt; lia).
      assert (Hq : inject_Z zw + 1 <= inject_Z zh).
      { change 1 with (inject_Z 1). rewrite <- inject_Z_plus, <- Zle_Qle. exact Hz. }
      assert (Hs : inject_Z zw * (1 # 9007199254740992) < 1).
      { assert (inject_Z zw < inject_Z (2 ^ 53)) by (rewrite <- Zlt_Qlt; lia).
        change (inject_Z (2 ^ 53)) with 9007199254740992 in *. lra. }
      assert (Hr : inject_Z zw / inject_Z zh * (1 + (1 # 9007199254740992)) < 1).
      { assert (E : inject_Z zw / inject_Z zh * (1 + (1 # 9007199254740992))
                    == (inject_Z zw * (1 + (1 # 9007199254740992))) / inject_Z zh)
          by (field; lra).
        rewrite E. apply Qlt_shift_div_r; [exact Ph | lra]. }
      assert (A : Qgeb (fdiv (inject_Z zw) (inject_Z zh)) 1 = false).
      { unfold Qgeb. destruct (Qle_bool 1 (fdiv (inject_Z zw) (inject_Z zh))) eqn:C;
          [| reflexivity].
        apply Qle_bool_iff in C. rewrite U in L2. lra. }
      rewrite A. cbn [Bitmap.width Bitmap.height]. rewrite R0.
      assert (Hratio : 0 <= inject_Z zw / inject_Z zh)
        by (apply Qle_shift_div_l; lra).
      destruct (fmul_rounded_factor 4096 (inject_Z zw / inject_Z zh)
                  (fdiv (inject_Z zw) (inject_Z zh))) as [M1 M2];
        [lra | exact Hratio | exact L1 | exact L2 |].
      assert (E : 4096 * (inject_Z zw / inject_Z zh) == 4096 * inject_Z zw / inject_Z zh)
        by (field; lra).
      rewrite E in M1, M2.
      assert (Bq : 4096 * inject_Z zw / inject_Z zh <= 4096).
      { apply Qle_shift_div_r; [exact Ph | lra]. }
      assert (Bq0 : 0 <= 4096 * inject_Z zw / inject_Z zh).
      { apply Qle_shift_div_l; lra. }
      set (side := 4096 * inject_Z zw / inject_Z zh) in *. clearbody side.
      rewrite U in *.
      destruct (Math_round_near (fmul 4096 (fdiv (inject_Z zw) (inject_Z zh))))
        as [N1 N2].
      split.
      { change 4096 with (inject_Z 4096) at 2. apply Math_round_below.
        change (inject_Z 4096) with 4096. lra. }
      split; [apply Qle_refl |].
      split; [intros; lra |].
      intros _. split; [intro; lra |]. intros _.
      split; [reflexivity |]. split; lra.
    + (* the wider side is the longer one *)
      assert (H1 : 1 <= inject_Z zw / inject_Z zh) by (apply Qle_shift_div_l; lra).
      assert (A : Qgeb (fdiv (inject_Z zw) (inject_Z zh)) 1 = true).
      { unfold Qgeb. apply Qle_bool_iff. unfold fdiv. apply roundToDouble_ge_one.
        exact H1. }
      rewrite A. cbn [Bitmap.width Bitmap.height]. rewrite R0.
      destruct (fdiv_by_ratio 4096 (inject_Z zw) (inject_Z zh)) as [M1 M2];
        [lra | exact Pw | lra |].
      assert (Bq : 4096 * inject_Z zh / inject_Z zw <= 4096).
      { apply Qle_shift_div_r; [exact Pw | lra]. }
      assert (Bq0 : 0 <= 4096 * inject_Z zh / inject_Z zw).
      { apply Qle_shift_div_l; lra. }
      set (side := 4096 * inject_Z zh / inject_Z zw) in *. clearbody side.
      rewrite U in *.
      destruct (Math_round_near (fdiv 4096 (fdiv (inject_Z zw) (inject_Z zh))))
        as [N1 N2].
      split; [apply Qle_refl |].
      split.
      { change 4096 with (inject_Z 4096) at 2. apply Math_round_below.
        change (inject_Z 4096) with 4096. lra. }
      split; [intros; lra |].
      intros _. split; [| intro; lra]. intros _.
      split; [reflexivity |]. split; lra.
  - apply orb_false_iff in G. destruct G as [Gw Gh].
    apply Qgtb_false in Gw. apply Qgtb_false in Gh.
    cbn [Bitmap.width Bitmap.height]. rewrite !Math_round_inject_Z.
    split; [exact Gw |]. split; [exact Gh |].
    split; [intros; reflexivity |]. intros [L | L]; lra.
Qed.

Lemma export_within_limit_witness :
  exportCanvas (mkCanvasState [] None "image" None 1 1 (Some 90%Z) false None)
    (mkImage 8192 2048 "0, 0, 0")
  = Bitmap.mk 1024 4096
  /\ Bitmap.height
       (exportCanvas (mkCanvasState [] None "image" None 1 1 (Some 90%Z) false None)
          (mkImage 8192 2048 "0, 0, 0")) <= MAX_EXPORT_DIMENSION
  /\ exportCanvas (mkCanvasState [] None "image" None 1 1 (Some 0%Z) false None)
       (mkImage 8192 93 "0, 0, 0")
     = Bitmap.mk 4096 46.
Proof.
  destruct (export_within_limit
              (mkCanvasState [] None "image" None 1 1 (Some 90%Z) false None)
              (mkImage 8192 2048 "0, 0, 0")) as (_ & H & _);
    [split; reflexivity | split; reflexivity |].
  split; [vm_compute; reflexivity |]. split; [exact H | vm_compute; reflexivity].
Defined.

(** ** The WebGL renderer's matrices *)

Lemma matrixMultiply_assoc (a b c : Mat3) :
  Mat3_eq (_matrixMultiply (_matrixMultiply a b) c)
          (_matrixMultiply a (_matrixMultiply b c)).
Proof.
  unfold Mat3_eq, _matrixMultiply. cbn [e0 e1 e2 e3 e4 e5 e6 e7 e8].
  repeat split; ring.
Qed.

Lemma matrixMultiply_identity (a : Mat3) :
  Mat3_eq (_matrixMultiply _createMatrix a) a
  /\ Mat3_eq (_matrixMultiply a _createMatrix) a.
Proof.
  unfold Mat3_eq, _matrixMultiply, _createMatrix. cbn [e0 e1 e2 e3 e4 e5 e6 e7 e8].
  repeat split; ring.
Qed.

(** Multiplying a matrix by a second one makes the shader apply the
    second one first: [q] is where the second matrix, whose last column is
    (0, 0, 1), takes the vertex, and [r] where the first takes [q]. *)
Lemma vertexPosition_multiply (a b : Mat3) (p q r : Point) :
  e2 b == 0 -> e5 b == 0 -> e8 b == 1 ->
  px (vertexPosition b p) == px q /\ py (vertexPosition b p) == py q ->
  px (vertexPosition a q) == px r /\ py (vertexPosition a q) == py r ->
  px (vertexPosition (_matrixMultiply a b) p) == px r
  /\ py (vertexPosition (_matrixMultiply a b) p) == py r.
Proof.
  intros H2 H5 H8 [Qx Qy] [Rx Ry]. rewrite <- Rx, <- Ry.
  unfold vertexPosition in *. unfold _matrixMultiply.
  cbn [e0 e1 e2 e3 e4 e5 e6 e7 e8 px py] in *.
  rewrite <- Qx, <- Qy.
  split.
  - assert (E : (e0 b * e0 a + e1 b * e3 a + e2 b * e6 a) * px p
                + (e3 b * e0 a + e4 b * e3 a + e5 b * e6 a) * py p
                + (e6 b * e0 a + e7 b * e3 a + e8 b * e6 a)
                == e0 a * (e0 b * px p + e3 b * py p + e6 b)
                   + e3 a * (e1 b * px p + e4 b * py p + e7 b) + e6 a
                   + (e8 b - 1) * e6 a + e2 b * e6 a * px p + e5 b * e6 a * py p)
      by ring.
    rewrite E, H2, H5, H8. ring.
  - assert (E : (e0 b * e1 a + e1 b * e4 a + e2 b * e7 a) * px p
                + (e3 b * e1 a + e4 b * e4 a + e5 b * e7 a) * py p
                + (e6 b * e1 a + e7 b * e4 a + e8 b * e7 a)
                == e1 a * (e0 b * px p + e3 b * py p + e6 b)
                   + e4 a * (e1 b * px p + e4 b * py p + e7 b) + e7 a
                   + (e8 b - 1) * e7 a + e2 b * e7 a * px p + e5 b * e7 a * py p)
      by ring.
    rewrite E, H2, H5, H8. ring.
Qed.

Section WebGLProofs.
Context `{platform : Platform}.

(** X26.  The matrix [_drawLayer] builds places the unit quad on the
    layer: the vertex [(u, v)] of the quad goes to the clip-space position
    of the canvas pixel where the view transform of the frame puts the
    layer's point at [(width * (u - 1/2), height * (v - 1/2))] from its
    centre, mirrored when the layer is flipped and turned by the matrix of
    [_rotation].  The centre of the quad lands on the layer's position. *)
Theorem drawLayer_matrix_places_quad (canvasWidth canvasHeight : Q)
    (props : DrawProps) (a_position : Point) :
  ~ canvasWidth == 0 -> ~ canvasHeight == 0 ->
  let c := Math_cos (propsRot props * Math_PI / 180) in
  let s := Math_sin (propsRot props * Math_PI / 180) in
  let localX :=
    (if propsFlipX props then - propsWidth props else propsWidth props)
    * (px a_position - (1 # 2)) in
  let localY := propsHeight props * (py a_position - (1 # 2)) in
  let world :=
    mkPoint (propsX props + (c * localX + s * localY))
            (propsY props + (- s * localX + c * localY)) in
  let v := vertexPosition (_drawLayer_matrix canvasWidth canvasHeight props) a_position in
  let target :=
    clipOfPixel canvasWidth canvasHeight
      (drawFrame_transform (propsViewState props) world) in
  (px v == px target /\ py v == py target)
  /\ (px a_position == 1 # 2 -> py a_position == 1 # 2 ->
      px world == propsX props /\ py world == propsY props).
Proof.
  intros HW HH c s localX localY world v target. split.
  - unfold v, _drawLayer_matrix. cbv zeta.
    set (sx := if propsFlipX props then - propsWidth props else propsWidth props).
    fold c s.
    apply (vertexPosition_multiply _ _ a_position
             (mkPoint (px a_position - (1 # 2)) (py a_position - (1 # 2))));
      try reflexivity;
      [unfold vertexPosition, _translation; cbn [e0 e1 e3 e4 e6 e7 px py]; split; ring |].
    apply (vertexPosition_multiply _ _ _ (mkPoint localX localY));
      try reflexivity;
      [unfold vertexPosition, _scaling, localX, localY;
       cbn [e0 e1 e3 e4 e6 e7 px py]; fold sx; split; ring |].
    apply (vertexPosition_multiply _ _ _
             (mkPoint (c * localX + s * localY) (- s * localX + c * localY)));
      try reflexivity;
      [unfold vertexPosition, _rotation; cbn [e0 e1 e3 e4 e6 e7 px py]; fold c s;
       split; ring |].
    apply (vertexPosition_multiply _ _ _ world);
      try reflexivity;
      [unfold vertexPosition, _translation, world; cbn [e0 e1 e3 e4 e6 e7 px py];
       split; ring |].
    apply (vertexPosition_multiply _ _ _
             (mkPoint (scale (propsViewState props) * px world)
                      (scale (propsViewState props) * py world)));
      try reflexivity;
      [unfold vertexPosition, _scaling; cbn [e0 e1 e3 e4 e6 e7 px py]; split; ring |].
    apply (vertexPosition_multiply _ _ _
             (drawFrame_transform (propsViewState props) world));
      try reflexivity;
      [unfold vertexPosition, _translation, drawFrame_transform;
       cbn [e0 e1 e3 e4 e6 e7 px py]; split; ring |].
    unfold target.
    generalize (drawFrame_transform (propsViewState props) world). intro w.
    unfold vertexPosition, _matrixMultiply, _createMatrix, _projection,
      clipOfPixel.
    cbn [e0 e1 e2 e3 e4 e5 e6 e7 e8 px py]. split; field; split; assumption.
  - intros Hu Hv. unfold world, localX, localY. cbn [px py].
    rewrite Hu, Hv. split; ring.
Qed.

End WebGLProofs.

Lemma drawLayer_matrix_places_quad_witness :
  let props := mkDrawProps (mkViewState 2 (mkPoint (-100) (-50))) 300 200 80 60 0 true in
  let v := vertexPosition
             (_drawLayer_matrix (platform := refPlatform) 1000 800 props)
             (mkPoint 0 0) in
  px v == 4 # 25 /\ py v == 11 # 40.
Proof.
  cbv zeta.
  pose proof (drawLayer_matrix_places_quad (platform := refPlatform) 1000 800
                (mkDrawProps (mkViewState 2 (mkPoint (-100) (-50))) 300 200 80 60 0 true)
                (mkPoint 0 0)) as H.
  cbv zeta in H.
  destruct H as [[Hx Hy] _]; [vm_compute; discriminate | vm_compute; discriminate |].
  split.
  - eapply Qeq_trans; [exact Hx | vm_compute; reflexivity].
  - eapply Qeq_trans; [exact Hy | vm_compute; reflexivity].
Defined.

(** ** Handle hit testing *)

Section HandleProofs.
Context `{platform : Platform}.

(** X27.  The handle hit test agrees with the handle positions the resize
    gesture uses: a corner handle is reported only for a point closer than
    the hit radius, 16 screen pixels, to where [getHandleWorldPosition]
    puts that corner, and a corner whose position is within the radius of
    the point is never missed for nothing: some handle is reported.  A
    layer without extent, or a canvas shown at scale zero, has no handle. *)
Theorem handle_hit_matches_position (viewScale rectWidth : Q) (movieCanvas : Bitmap.t)
    (point : Point) (layer : Layer) :
  let scale := viewScale * (rectWidth / Bitmap.width movieCanvas) in
  let radius := DESIRED_HIT_RADIUS_ON_SCREEN / scale in
  let near (h : HandleName) :=
    Math_hypot (px point - px (getHandleWorldPosition layer h))
               (py point - py (getHandleWorldPosition layer h)) < radius in
  let hit := getMovieHandleAtPoint viewScale rectWidth movieCanvas point layer in
  (forall h, hit = Some h -> h <> rotateHandle -> near h)
  /\ (forall h, h <> rotateHandle -> near h -> ~ scale == 0 ->
        fst (getLayerMetrics layer) == 0 \/ snd (getLayerMetrics layer) == 0
        \/ hit <> None)
  /\ (scale == 0 -> hit = None)
  /\ (fst (getLayerMetrics layer) == 0 \/ snd (getLayerMetrics layer) == 0 ->
      hit = None).
Proof.
  intros scale radius near hit.
  unfold hit, near, getMovieHandleAtPoint, getHandleWorldPosition. fold scale radius.
  destruct (getLayerMetrics layer) as [dWidth dHeight]. cbn [fst snd].
  destruct (frameOffset layer) as [offsetX offsetY].
  destruct (Qeq_bool scale 0) eqn:Es.
  - split; [intros h D; discriminate D |].
    split; [intros h _ _ Hs; apply Qeq_bool_iff in Es; contradiction |].
    split; reflexivity.
  - assert (Hs : ~ scale == 0) by (apply Qeq_bool_false; exact Es).
    destruct (Qeq_bool dWidth 0 || Qeq_bool dHeight 0)%bool eqn:Em.
    + split; [intros h D; discriminate D |].
      split; [| split; reflexivity].
      intros h _ _ _. apply orb_prop in Em.
      destruct Em as [Em | Em]; apply Qeq_bool_iff in Em; [left | right; left]; exact Em.
    + apply orb_false_elim in Em. destruct Em as [Ew Eh].
      apply Qeq_bool_false in Ew. apply Qeq_bool_false in Eh.
      set (cos := Math_cos (rot layer * Math_PI / 180)).
      set (sin := Math_sin (rot layer * Math_PI / 180)).
      set (test := fun name : HandleName =>
                     match cornerOf name dWidth dHeight with
                     | Some h =>
                         Qltb (Math_hypot
                                 (px point - (x layer + ((offsetX + px h) * cos
                                                         - (offsetY + py h) * sin)))
                                 (py point - (y layer + ((offsetX + px h) * sin
                                                         + (offsetY + py h) * cos))))
                              radius
                     | None => false
                     end).
      match goal with
      | |- context [if ?b then Some rotateHandle else _] => destruct b
      end.
      * split; [intros h E Hn; inversion E; subst h; contradiction |].
        split; [intros h _ _ _; right; right; discriminate |].
        split; [intro Hz; contradiction |].
        intros [Hz | Hz]; contradiction.
      * split.
        { intros h E Hn. apply find_some in E. destruct E as [_ Ht].
          unfold test in Ht. destruct h; cbn [cornerOf px py] in *;
            try contradiction; apply Qltb_true; exact Ht. }
        split.
        { intros h Hn Hnear _. right. right.
          destruct (find test [tl; tr; bl; br]) eqn:Ef; [discriminate |].
          exfalso. pose proof (find_none _ _ Ef h) as Hnone.
          assert (Hin : In h [tl; tr; bl; br]).
          { destruct h; simpl; auto. contradiction. }
          specialize (Hnone Hin). unfold test in Hnone.
          destruct h; cbn [cornerOf px py] in *; try contradiction;
            apply Qltb_false in Hnone; apply (Qlt_not_le _ _ Hnear Hnone). }
        split; [intro Hz; contradiction |].
        intros [Hz | Hz]; contradiction.
Qed.

End HandleProofs.

Lemma handle_hit_matches_position_witness :
  getMovieHandleAtPoint (platform := refPlatform) 1 800 (Bitmap.mk 800 600)
    (mkPoint 141 131) photo = Some br
  /\ Math_hypot (Platform := refPlatform)
       (141 - px (getHandleWorldPosition (platform := refPlatform) photo br))
       (131 - py (getHandleWorldPosition (platform := refPlatform) photo br))
     < 16 / (1 * (800 / 800)).
Proof.
  destruct (handle_hit_matches_position (platform := refPlatform) 1 800
              (Bitmap.mk 800 600) (mkPoint 141 131) photo) as (H & _).
  assert (E : getMovieHandleAtPoint (platform := refPlatform) 1 800 (Bitmap.mk 800 600)
                (mkPoint 141 131) photo = Some br) by (vm_compute; reflexivity).
  split; [exact E |]. apply (H br E). discriminate.
Defined.

(** ** The eraser stroke *)

Lemma dabOffsets_nth (dist stepBase i : Q) :
  forall k o, nth_error (dabOffsets dist stepBase i) k = Some o ->
    o == i + inject_Z (Z.of_nat k) * Math_max 1 stepBase /\ i <= o /\ o < dist.
Proof.
  funelim (dabOffsets dist stepBase i); intros k o Hk.
  - pose proof (proj1 (Qltb_true _ _) e) as Hlt.
    assert (Hs : 1 <= Math_max 1 stepBase) by apply Q.le_max_l.
    destruct k as [| k]; simpl in Hk.
    + inversion Hk; subst o. split; [simpl; ring |]. split; [apply Qle_refl | exact Hlt].
    + destruct (H k o Hk) as (Ho & Hlo & Hhi).
      split; [| split; [lra | exact Hhi]].
      rewrite Ho, Nat2Z.inj_succ. unfold Z.succ. rewrite inject_Z_plus.
      change (inject_Z 1) with 1. ring.
  - destruct k; discriminate Hk.
Qed.

Lemma dabOffsets_step (dist stepBase i : Q) :
  dabOffsets dist stepBase i
  = if Qltb i dist then i :: dabOffsets dist stepBase (i + Math_max 1 stepBase) else [].
Proof.
  funelim (dabOffsets dist stepBase i).
  - rewrite e. reflexivity.
  - rewrite e. reflexivity.
Qed.

Lemma dabOffsets_last (dist stepBase i d : Q) :
  i < dist ->
  dist - Math_max 1 stepBase <= last (dabOffsets dist stepBase i) d.
Proof.
  funelim (dabOffsets dist stepBase i); intro Hi.
  - destruct (Qlt_le_dec (i + Math_max 1 stepBase) dist) as [Hnext | Hstop].
    + specialize (H d Hnext).
      rewrite (dabOffsets_step dist stepBase (i + Math_max 1 stepBase)) in *.
      assert (C : Qltb (i + Math_max 1 stepBase) dist = true)
        by (apply Qltb_true; exact Hnext).
      rewrite C in *. exact H.
    + rewrite (dabOffsets_step dist stepBase (i + Math_max 1 stepBase)).
      assert (C : Qltb (i + Math_max 1 stepBase) dist = false)
        by (apply Qltb_false; exact Hstop).
      rewrite C. simpl. lra.
  - pose proof (proj1 (Qltb_false _ _) e) as Hge. lra.
Qed.

(** X28.  The interpolated dabs of an eraser stroke leave no gap: their
    offsets from the last point are 0, step, 2 step, ... with
    [step = max(1, radius / 3)], all short of the distance to the new
    point, and the last of them is within one step of the new point, where
    the final dab is painted.  A pointer that has not moved, and the first
    point of a stroke, get the final dab only. *)
Theorem eraser_dabs_leave_no_gap `{platform : Platform} (Math_atan2 : Q -> Q -> Q)
    (lastPoint : option Point) (proxy : Point) (radius dist : Q) :
  let step := Math_max 1 (radius / 3) in
  let offsets := dabOffsets dist (radius / 3) 0 in
  (forall k o, nth_error offsets k = Some o ->
     o == inject_Z (Z.of_nat k) * step /\ 0 <= o /\ o < dist)
  /\ (0 < dist -> offsets <> [] /\ dist - step <= last offsets 0)
  /\ (dist <= 0 -> offsets = [])
  /\ last (eraseDabs Math_atan2 lastPoint proxy radius) (mkPoint 0 0) = proxy
  /\ eraseDabs Math_atan2 None proxy radius = [proxy].
Proof.
  intros step offsets. split; [| split; [| split; [| split]]].
  - intros k o Hk.
    destruct (dabOffsets_nth dist (radius / 3) 0 k o Hk) as (Ho & Hlo & Hhi).
    split; [rewrite Ho; fold step; ring |]. split; assumption.
  - intro Hd. split.
    + unfold offsets. rewrite dabOffsets_step.
      assert (C : Qltb 0 dist = true) by (apply Qltb_true; exact Hd).
      rewrite C. discriminate.
    + apply dabOffsets_last. exact Hd.
  - intro Hd. unfold offsets. rewrite dabOffsets_step.
    assert (C : Qltb 0 dist = false) by (apply Qltb_false; exact Hd).
    rewrite C. reflexivity.
  - unfold eraseDabs. apply last_last.
  - reflexivity.
Qed.

Lemma eraser_dabs_leave_no_gap_witness :
  dabOffsets 10 (9 / 3) 0 = [0; 0 + Qmax 1 (9 / 3); 0 + Qmax 1 (9 / 3) + Qmax 1 (9 / 3);
                             0 + Qmax 1 (9 / 3) + Qmax 1 (9 / 3) + Qmax 1 (9 / 3)]
  /\ 10 - Math_max 1 (9 / 3) <= last (dabOffsets 10 (9 / 3) 0) 0.
Proof.
  destruct (eraser_dabs_leave_no_gap (platform := refPlatform) (fun _ _ => 0) None
              (mkPoint 0 0) 9 10) as (_ & H & _).
  destruct H as [_ Hl]; [reflexivity |].
  split; [| exact Hl].
  vm_compute. reflexivity.
Defined.

(** ** The asset library's quota *)

Lemma storeBytes_from (l : list AssetRecord) (a : Z) :
  fold_left (fun sum r => (sum + fullSize r + thumbSize r)%Z) l a
  = (a + storeBytes l)%Z.
Proof.
  unfold storeBytes. revert a. induction l as [| r l IH]; intro a; simpl; [lia |].
  rewrite IH. rewrite (IH (_ + thumbSize r)%Z). lia.
Qed.

Lemma storeBytes_cons (r : AssetRecord) (l : list AssetRecord) :
  storeBytes (r :: l) = (fullSize r + thumbSize r + storeBytes l)%Z.
Proof. unfold storeBytes at 1. simpl. rewrite storeBytes_from. lia. Qed.

Lemma NoDup_map_inj {A B : Type} (f : A -> B) (l : list A) (a b : A) :
  NoDup (map f l) -> In a l -> In b l -> f a = f b -> a = b.
Proof.
  induction l as [| c l IH]; intros Hnd Ha Hb E; [destruct Ha |].
  simpl in Hnd. inversion Hnd as [| ? ? Hnot Hnd']; subst.
  destruct Ha as [-> | Ha], Hb as [-> | Hb].
  - reflexivity.
  - exfalso. apply Hnot. rewrite E. apply in_map. exact Hb.
  - exfalso. apply Hnot. rewrite <- E. apply in_map. exact Ha.
  - apply IH; assumption.
Qed.

(** Deleting records keeps the keys of the store distinct. *)
Lemma keys_distinct_after_filter (keep : AssetRecord -> bool) (store : list AssetRecord) :
  NoDup (map assetId store) -> NoDup (map assetId (filter keep store)).
Proof.
  intro Hnd. induction store as [| r store IH]; simpl; [constructor |].
  simpl in Hnd. apply NoDup_cons_iff in Hnd. destruct Hnd as [Hnew Hrest].
  destruct (keep r); [| apply IH; exact Hrest].
  simpl. apply NoDup_cons; [| apply IH; exact Hrest].
  intro Hin. apply Hnew. apply in_map_iff in Hin. destruct Hin as (x & E & Hx).
  apply in_map_iff. exists x. split; [exact E |]. apply filter_In in Hx. tauto.
Qed.

Lemma idbDelete_In (id : string) (store : list AssetRecord) (x : AssetRecord) :
  In x (idbDelete id store) <-> In x store /\ assetId x <> id.
Proof.
  unfold idbDelete. rewrite filter_In, negb_true_iff, String.eqb_neq. tauto.
Qed.

Lemma delete_many_In (D store : list AssetRecord) (x : AssetRecord) :
  In x (fold_left (fun s r => idbDelete (assetId r) s) D store)
  <-> In x store /\ ~ In (assetId x) (map assetId D).
Proof.
  revert store. induction D as [| r D IH]; intro store; simpl.
  - tauto.
  - rewrite IH, idbDelete_In. split.
    + intros [[H1 H2] H3]. split; [exact H1 |]. intros [E | E]; [congruence | tauto].
    + intros [H1 H2]. split; [split; [exact H1 |] |].
      * intro E. apply H2. left. congruence.
      * intro E. apply H2. right. exact E.
Qed.

Lemma storeBytes_delete (store : list AssetRecord) (r : AssetRecord) :
  NoDup (map assetId store) -> In r store ->
  storeBytes (idbDelete (assetId r) store)
  = (storeBytes store - (fullSize r + thumbSize r))%Z.
Proof.
  induction store as [| a l IH]; intros Hnd Hin; [destruct Hin |].
  simpl in Hnd. inversion Hnd as [| ? ? Hnot Hnd']; subst.
  unfold idbDelete. simpl. fold (idbDelete (assetId r) l).
  destruct (String.eqb (assetId a) (assetId r)) eqn:E; simpl.
  - apply String.eqb_eq in E.
    assert (a = r).
    { apply (NoDup_map_inj assetId (a :: l)); simpl; auto. }
    subst a.
    assert (Hall : idbDelete (assetId r) l = l).
    { apply filter_keeps_all. apply Forall_forall.
      intros b Hb. apply negb_true_iff, String.eqb_neq.
      intro Eb. apply Hnot. rewrite <- Eb. apply in_map. exact Hb. }
    rewrite Hall, storeBytes_cons. lia.
  - apply String.eqb_neq in E.
    destruct Hin as [-> | Hin]; [contradiction E; reflexivity |].
    rewrite !storeBytes_cons, (IH Hnd' Hin). lia.
Qed.

Lemma storeBytes_delete_many (D store : list AssetRecord) :
  NoDup (map assetId store) -> NoDup (map assetId D) -> incl D store ->
  (storeBytes (fold_left (fun s r => idbDelete (assetId r) s) D store)
   = storeBytes store - storeBytes D)%Z.
Proof.
  revert store. induction D as [| r D IH]; intros store Hs Hd Hincl; simpl.
  - unfold storeBytes at 3. simpl. lia.
  - simpl in Hd. inversion Hd as [| ? ? Hnot Hd']; subst.
    rewrite IH.
    + rewrite storeBytes_delete, storeBytes_cons; [lia | exact Hs |].
      apply Hincl. left. reflexivity.
    + apply keys_distinct_after_filter. exact Hs.
    + exact Hd'.
    + intros x Hx. apply idbDelete_In. split; [apply Hincl; right; exact Hx |].
      intro E. apply Hnot. rewrite <- E. apply in_map. exact Hx.
Qed.

Lemma insertByAge_perm (a : AssetRecord) (l : list AssetRecord) :
  Permutation (insertByAge a l) (a :: l).
Proof.
  induction l as [| b r IH]; simpl; [apply Permutation_refl |].
  destruct (recCreatedAt a <=? recCreatedAt b)%Z; [apply Permutation_refl |].
  apply Permutation_trans with (b :: a :: r); [apply perm_skip; exact IH | apply perm_swap].
Qed.

Lemma sortByAge_perm (l : list AssetRecord) : Permutation (sortByAge l) l.
Proof.
  induction l as [| a l IH]; simpl; [apply Permutation_refl |].
  apply Permutation_trans with (a :: sortByAge l);
    [apply insertByAge_perm | apply perm_skip; exact IH].
Qed.

Lemma insertByAge_sorted (a : AssetRecord) (l : list AssetRecord) :
  StronglySorted (fun x y => (recCreatedAt x <= recCreatedAt y)%Z) l ->
  StronglySorted (fun x y => (recCreatedAt x <= recCreatedAt y)%Z) (insertByAge a l).
Proof.
  induction l as [| b r IH]; intro H; simpl.
  - constructor; constructor.
  - inversion H as [| ? ? Hr Hb]; subst.
    destruct (recCreatedAt a <=? recCreatedAt b)%Z eqn:E.
    + apply Z.leb_le in E. constructor; [exact H |].
      constructor; [exact E |].
      apply Forall_impl with (P := fun y => (recCreatedAt b <= recCreatedAt y)%Z);
        [intros; lia | exact Hb].
    + apply Z.leb_gt in E. constructor; [apply IH; exact Hr |].
      apply (Permutation_Forall (Permutation_sym (insertByAge_perm a r))).
      constructor; [lia | exact Hb].
Qed.

Lemma sortByAge_sorted (l : list AssetRecord) :
  StronglySorted (fun x y => (recCreatedAt x <= recCreatedAt y)%Z) (sortByAge l).
Proof.
  induction l as [| a l IH]; simpl; [constructor | apply insertByAge_sorted; exact IH].
Qed.

Lemma sorted_app_le (D K : list AssetRecord) :
  StronglySorted (fun x y => (recCreatedAt x <= recCreatedAt y)%Z) (D ++ K) ->
  forall d k, In d D -> In k K -> (recCreatedAt d <= recCreatedAt k)%Z.
Proof.
  induction D as [| a D IH]; intros H d k Hd Hk; [destruct Hd |].
  simpl in H. inversion H as [| ? ? Hr Ha]; subst.
  destruct Hd as [-> | Hd].
  - rewrite Forall_forall in Ha. apply Ha. apply in_or_app. right. exact Hk.
  - apply IH; assumption.
Qed.

(** The loop deletes a prefix [D] of the list it walks and stops either at
    its end or with [totalBytes] within the limit. *)
Lemma evictOldest_shape (limitBytes : Z) (S store : list AssetRecord) (total : Z) :
  exists D K,
    S = D ++ K
    /\ fst (evictOldest limitBytes S (store, total))
       = fold_left (fun s r => idbDelete (assetId r) s) D store
    /\ snd (evictOldest limitBytes S (store, total)) = (total - storeBytes D)%Z
    /\ (K = [] \/ (total - storeBytes D <= limitBytes)%Z).
Proof.
  revert store total. induction S as [| r S IH]; intros store total.
  - exists [], []. simpl. unfold storeBytes. simpl.
    split; [reflexivity |]. split; [reflexivity |]. split; [lia | left; reflexivity].
  - simpl. destruct (total <=? limitBytes)%Z eqn:E.
    + apply Z.leb_le in E. exists [], (r :: S). unfold storeBytes. simpl.
      split; [reflexivity |]. split; [reflexivity |]. split; [lia | right; lia].
    + destruct (IH (idbDelete (assetId r) store)
                   (total - (fullSize r + thumbSize r))%Z)
        as (D & K & HS & Hf & Hs & Hstop).
      exists (r :: D), K. rewrite storeBytes_cons.
      split; [simpl; rewrite HS; reflexivity |].
      split; [exact Hf |].
      split; [rewrite Hs; lia |].
      destruct Hstop as [Hk | Hle]; [left; exact Hk | right; lia].
Qed.

(** X29.  [enforceQuota] on a store with distinct keys: it only deletes;
    it never deletes a favourite; a store within the limit is left as it
    is; when it returns, the store is within the limit or only favourites
    remain; and it deletes oldest first: every record deleted is at least
    as old as every non-favourite kept. *)
Theorem enforceQuota_evicts_oldest (limitBytes : Z) (store : list AssetRecord) :
  NoDup (map assetId store) ->
  let store' := enforceQuota limitBytes store in
  (forall r, In r store' -> In r store)
  /\ (forall r, In r store -> isFavorite r = true -> In r store')
  /\ ((storeBytes store <= limitBytes)%Z -> store' = store)
  /\ ((storeBytes store' <= limitBytes)%Z
      \/ forall r, In r store' -> isFavorite r = true)
  /\ (forall d k, In d store -> ~ In d store' -> In k store' -> isFavorite k = false ->
        (recCreatedAt d <= recCreatedAt k)%Z).
Proof.
  intros Hnd store'. unfold store', enforceQuota. cbv zeta.
  destruct (storeBytes store <=? limitBytes)%Z eqn:E.
  - apply Z.leb_le in E.
    split; [intros r H; exact H |]. split; [intros r H _; exact H |].
    split; [reflexivity |]. split; [left; exact E |].
    intros d k Hd Hnot. contradiction.
  - apply Z.leb_gt in E.
    set (S := sortByAge (filter (fun a => negb (isFavorite a)) store)).
    destruct (evictOldest_shape limitBytes S store (storeBytes store))
      as (D & K & HS & Hf & Hs & Hstop).
    rewrite Hf.
    assert (HinS : forall x, In x S <-> In x store /\ isFavorite x = false).
    { intro x. unfold S. split.
      - intro H. apply (Permutation_in _ (sortByAge_perm _)) in H.
        apply filter_In in H. rewrite negb_true_iff in H. exact H.
      - intro H. apply (Permutation_in _ (Permutation_sym (sortByAge_perm _))).
        apply filter_In. rewrite negb_true_iff. exact H. }
    assert (HndS : NoDup (map assetId S)).
    { apply (Permutation_NoDup
               (Permutation_map assetId (Permutation_sym (sortByAge_perm _)))).
      apply keys_distinct_after_filter. exact Hnd. }
    assert (HndD : NoDup (map assetId D)).
    { rewrite HS, map_app in HndS. apply NoDup_app_remove_r in HndS. exact HndS. }
    assert (HD : forall x, In x D -> In x store /\ isFavorite x = false).
    { intros x Hx. apply HinS. rewrite HS. apply in_or_app. left. exact Hx. }
    assert (Hid : forall x, In x store -> In (assetId x) (map assetId D) -> In x D).
    { intros x Hx Hi. apply in_map_iff in Hi. destruct Hi as (d & Ed & Hd).
      assert (d = x).
      { apply (NoDup_map_inj assetId store); [exact Hnd | | exact Hx | exact Ed].
        apply HD. exact Hd. }
      subst d. exact Hd. }
    split; [intros r H; apply delete_many_In in H; tauto |].
    split.
    { intros r Hr Hfav. apply delete_many_In. split; [exact Hr |].
      intro Hi. destruct (HD r (Hid r Hr Hi)) as [_ Hnf]. congruence. }
    split; [intro Hle; lia |].
    split.
    { destruct Hstop as [Hk | Hle].
      - right. intros r Hr. apply delete_many_In in Hr. destruct Hr as [Hr Hni].
        destruct (isFavorite r) eqn:Fr; [reflexivity |]. exfalso. apply Hni.
        apply in_map. assert (Hs' : In r S) by (apply HinS; split; assumption).
        rewrite HS, Hk, app_nil_r in Hs'. exact Hs'.
      - left. rewrite storeBytes_delete_many; [exact Hle | exact Hnd | exact HndD |].
        intros x Hx. apply HD. exact Hx. }
    intros d k Hd Hnot Hk Hnf.
    apply delete_many_In in Hk. destruct Hk as [Hk Hkni].
    assert (HdD : In d D).
    { apply Hid; [exact Hd |].
      destruct (in_dec string_dec (assetId d) (map assetId D)) as [Hi | Hn];
        [exact Hi |].
      exfalso. apply Hnot. apply delete_many_In. split; assumption. }
    assert (HkK : In k K).
    { assert (Hs' : In k S) by (apply HinS; split; assumption).
      rewrite HS in Hs'. apply in_app_or in Hs'. destruct Hs' as [Hs' | Hs'];
        [| exact Hs'].
      exfalso. apply Hkni. apply in_map. exact Hs'. }
    apply (sorted_app_le D K); [| exact HdD | exact HkK].
    rewrite <- HS. apply sortByAge_sorted.
Qed.

Lemma enforceQuota_evicts_oldest_witness :
  map assetId (enforceQuota 100 sampleStore) = ["new"; "fav"]%string
  /\ (forall r, In r sampleStore -> isFavorite r = true ->
        In r (enforceQuota 100 sampleStore)).
Proof.
  destruct (enforceQuota_evicts_oldest 100 sampleStore) as (_ & H & _).
  - simpl. repeat constructor; simpl; intuition discriminate.
  - split; [vm_compute; reflexivity | exact H].
Defined.

(** ** The transform caches of a gesture *)

Section ScrubProofs.
Context `{platform : Platform}.















End ScrubProofs.

